(** * Voracious Code Storage: a shallow embedding of [server.go]

    The development follows the layout of the server:

    - Go strings and byte slices are [list byte]; the helpers of the Go
      standard library that the handler calls ([strings.HasPrefix],
      [strconv.Atoi], [utf8.Valid], [strings.ToLower], ...) are written out
      on that representation;
    - [fileStore], a [map[string][][]byte], is a [gmap] from keys to the
      list of revisions;
    - one iteration of the command loop of [handleConnection] is the function
      [handleCommand]: it takes the fields of the command line, the shared
      store and the unread bytes of the connection, and returns what the
      loop does next;
    - the loop itself is [commandLoop]: it reads a line, trims and splits
      it, and runs [handleCommand], until the input ends, a PUT meets the
      end of the input, or a panic; [handleConnection] writes the greeting
      and runs the loop.

    The unread bytes are all that the client sends before it closes its
    side, so that a read either succeeds or meets the end of the stream.
    What the server logs is left out. The integer type [int] is taken to be
    64 bits wide. The case tables of package [unicode] for the runes above
    U+007F and its white-space table for the runes above U+00FF depend on
    the Go release; they are parameters of the server. The functions [main]
    and [runServer], which listen and start one [handleConnection] per
    client, are not modelled: the commands of concurrent connections act on
    the store one at a time, which the relations [reachable] and [later]
    express. *)

From Stdlib Require Import ZArith Lia Strings.Byte Strings.String.
From stdpp Require Import base option list gmap sorting.

Local Open Scope Z_scope.

(** ** Bytes *)

Abbreviation bytes := (list byte).

#[global] Instance byte_eq_dec : EqDecision byte := Byte.byte_eq_dec.

(** The numeric value of a byte, and the conversion [byte(z)] of Go, which
    keeps the low eight bits. *)
Definition bz (b : byte) : Z := Z.of_N (Byte.to_N b).

Definition zb (z : Z) : byte :=
  default x00 (Byte.of_N (Z.to_N (z mod 256))).

#[global] Instance byte_countable : Countable byte.
Proof.
  refine (inj_countable' (fun b => Byte.to_N b)
            (fun n => default x00 (Byte.of_N n)) _).
  intros b. rewrite Byte.of_to_N. reflexivity.
Defined.

(** A string literal of the Go source, as bytes. *)
Definition lit (s : string) : bytes := list_byte_of_string s.

(** The line feed that ends every line of the protocol. *)
Definition LF : byte := x0a.

(** A reply line: the text followed by a line feed. *)
Definition line (s : bytes) : bytes := s ++ [LF].

(** Indexing [p[i]] where the code has already checked the bound. *)
Definition at_ (p : bytes) (i : nat) : byte := default x00 (p !! i).

(** ** Package [unicode/utf8] *)

Module utf8.

Definition RuneError : Z := 0xFFFD.
Definition RuneSelf : Z := 0x80.
Definition MaxRune : Z := 0x10FFFF.

Definition surrogateMin : Z := 0xD800.
Definition surrogateMax : Z := 0xDFFF.

Definition tx : Z := 0x80.
Definition t2 : Z := 0xC0.
Definition t3 : Z := 0xE0.
Definition t4 : Z := 0xF0.

Definition maskx : Z := 0x3F.
Definition mask2 : Z := 0x1F.
Definition mask3 : Z := 0x0F.
Definition mask4 : Z := 0x07.

Definition rune1Max : Z := 0x7F.
Definition rune2Max : Z := 0x7FF.
Definition rune3Max : Z := 0xFFFF.

Definition locb : Z := 0x80.
Definition hicb : Z := 0xBF.

(** Codes of the table [first]: [xx] an invalid starter, [as_] an ASCII
    byte, otherwise the accept-range index in the high nibble and the size
    in the low three bits. *)
Definition xx : Z := 0xF1.
Definition as_ : Z := 0xF0.
Definition s1 : Z := 0x02.
Definition s2 : Z := 0x13.
Definition s3 : Z := 0x03.
Definition s4 : Z := 0x23.
Definition s5 : Z := 0x34.
Definition s6 : Z := 0x04.
Definition s7 : Z := 0x44.

(** The 256-entry table [first], by the ranges of its rows. *)
Definition first (b : byte) : Z :=
  let c := bz b in
  if c <? 0x80 then as_
  else if c <? 0xC2 then xx
  else if c <? 0xE0 then s1
  else if c =? 0xE0 then s2
  else if c <? 0xED then s3
  else if c =? 0xED then s4
  else if c <? 0xF0 then s3
  else if c =? 0xF0 then s5
  else if c <? 0xF4 then s6
  else if c =? 0xF4 then s7
  else xx.

Record acceptRange := { lo : Z; hi : Z }.

Definition acceptRanges (i : Z) : acceptRange :=
  if i =? 0 then {| lo := locb; hi := hicb |}
  else if i =? 1 then {| lo := 0xA0; hi := hicb |}
  else if i =? 2 then {| lo := locb; hi := 0x9F |}
  else if i =? 3 then {| lo := 0x90; hi := hicb |}
  else if i =? 4 then {| lo := locb; hi := 0x8F |}
  else {| lo := 0; hi := 0 |}.

(** [DecodeRune p] (and [DecodeRuneInString]): the first rune of [p] and its
    width in bytes; an invalid encoding gives [(RuneError, 1)]. *)
Definition DecodeRune (p : bytes) : Z * Z :=
  let n := Z.of_nat (length p) in
  if n <? 1 then (RuneError, 0)
  else
    let p0 := at_ p 0 in
    let x := first p0 in
    if as_ <=? x then
      (* the mask selects [p0] for [as_] and [RuneError] for [xx] *)
      (if x =? xx then RuneError else bz p0, 1)
    else
      let sz := Z.land x 7 in
      let accept := acceptRanges (Z.shiftr x 4) in
      if n <? sz then (RuneError, 1)
      else
        let b1 := at_ p 1 in
        if (bz b1 <? lo accept) || (hi accept <? bz b1) then (RuneError, 1)
        else if sz <=? 2 then
          (Z.lor (Z.shiftl (Z.land (bz p0) mask2) 6) (Z.land (bz b1) maskx), 2)
        else
          let b2 := at_ p 2 in
          if (bz b2 <? locb) || (hicb <? bz b2) then (RuneError, 1)
          else if sz <=? 3 then
            (Z.lor (Z.lor (Z.shiftl (Z.land (bz p0) mask3) 12)
                          (Z.shiftl (Z.land (bz b1) maskx) 6))
                   (Z.land (bz b2) maskx), 3)
          else
            let b3 := at_ p 3 in
            if (bz b3 <? locb) || (hicb <? bz b3) then (RuneError, 1)
            else
              (Z.lor (Z.lor (Z.lor (Z.shiftl (Z.land (bz p0) mask4) 18)
                                   (Z.shiftl (Z.land (bz b1) maskx) 12))
                            (Z.shiftl (Z.land (bz b2) maskx) 6))
                     (Z.land (bz b3) maskx), 4).

(** [RuneLen r]: the number of bytes of the encoding of [r], or -1. *)
Definition RuneLen (r : Z) : Z :=
  if r <? 0 then -1
  else if r <=? rune1Max then 1
  else if r <=? rune2Max then 2
  else if (surrogateMin <=? r) && (r <=? surrogateMax) then -1
  else if r <=? rune3Max then 3
  else if r <=? MaxRune then 4
  else -1.

Definition encode3 (r : Z) : bytes :=
  [ zb (Z.lor t3 (bz (zb (Z.shiftr r 12))));
    zb (Z.lor tx (Z.land (bz (zb (Z.shiftr r 6))) maskx));
    zb (Z.lor tx (Z.land (bz (zb r)) maskx)) ].

(** [AppendRune nil r] (what [Builder.WriteRune] appends): the encoding of
    [r]; a rune out of range or a surrogate is written as [RuneError]. *)
Definition AppendRune (r : Z) : bytes :=
  let i := r mod 2 ^ 32 in
  if i <=? rune1Max then [zb r]
  else if i <=? rune2Max then
    [ zb (Z.lor t2 (bz (zb (Z.shiftr r 6))));
      zb (Z.lor tx (Z.land (bz (zb r)) maskx)) ]
  else if (MaxRune <? i) || ((surrogateMin <=? i) && (i <=? surrogateMax))
  then encode3 RuneError
  else if i <=? rune3Max then encode3 r
  else
    [ zb (Z.lor t4 (bz (zb (Z.shiftr r 18))));
      zb (Z.lor tx (Z.land (bz (zb (Z.shiftr r 12))) maskx));
      zb (Z.lor tx (Z.land (bz (zb (Z.shiftr r 6))) maskx));
      zb (Z.lor tx (Z.land (bz (zb r)) maskx)) ].

(** [Valid p]: whether [p] consists entirely of valid encodings. The loop
    over the index [i] is a recursion on the remaining bytes [p[i:]]; the
    test [i+size > n] is the case where the remaining bytes run out. The
    eight-bytes-at-a-time ASCII prefix skip of the Go function is the first
    branch taken repeatedly. *)
Fixpoint Valid (p : bytes) : bool :=
  match p with
  | [] => true
  | pi :: p1 =>
    if bz pi <? RuneSelf then Valid p1
    else
      let x := first pi in
      if x =? xx then false
      else
        let size := Z.land x 7 in
        let accept := acceptRanges (Z.shiftr x 4) in
        match p1 with
        | [] => false
        | c1 :: p2 =>
          if (bz c1 <? lo accept) || (hi accept <? bz c1) then false
          else if size =? 2 then Valid p2
          else
            match p2 with
            | [] => false
            | c2 :: p3 =>
              if (bz c2 <? locb) || (hicb <? bz c2) then false
              else if size =? 3 then Valid p3
              else
                match p3 with
                | [] => false
                | c3 :: p4 =>
                  if (bz c3 <? locb) || (hicb <? bz c3) then false
                  else Valid p4
                end
            end
        end
  end.

Definition UTFMax : Z := 4.

(** [RuneStart b]: [b] is not a continuation byte. *)
Definition RuneStart (b : byte) : bool :=
  negb (Z.land (bz b) 0xC0 =? 0x80).

(** The loop [for start--; start >= lim; start--] of [DecodeLastRune]: back
    to the nearest byte that can start a rune, [UTFMax] bytes at most. *)
Fixpoint backToRuneStart (fuel : nat) (p : bytes) (start lim : Z) : Z :=
  match fuel with
  | O => start
  | S fuel' =>
    if start <? lim then start
    else if RuneStart (at_ p (Z.to_nat start)) then start
    else backToRuneStart fuel' p (start - 1) lim
  end.

(** [DecodeLastRune p] (and [DecodeLastRuneInString]): the last rune of [p]
    and its width in bytes. *)
Definition DecodeLastRune (p : bytes) : Z * Z :=
  let end_ := Z.of_nat (length p) in
  if end_ =? 0 then (RuneError, 0)
  else
    let start := end_ - 1 in
    let r := bz (at_ p (Z.to_nat start)) in
    if r <? RuneSelf then (r, 1)
    else
      let lim := if end_ - UTFMax <? 0 then 0 else end_ - UTFMax in
      let start := backToRuneStart (Z.to_nat UTFMax) p (start - 1) lim in
      let start := if start <? 0 then 0 else start in
      let '(r, size) := DecodeRune (drop (Z.to_nat start) p) in
      if negb (start + size =? end_) then (RuneError, 1) else (r, size).

End utf8.

(** ** Package [unicode] *)

Module unicode.

Definition MaxASCII : Z := 0x7F.

(** [ToLower r] and [ToUpper r]. Above [MaxASCII] both consult the case
    tables of the Unicode version of the Go release, [To(LowerCase, r)] and
    [To(UpperCase, r)]; the tables are the parameter [To]. *)
Definition ToLower (To : Z -> Z) (r : Z) : Z :=
  if r <=? MaxASCII then
    (if (bz "A" <=? r) && (r <=? bz "Z") then r + (bz "a" - bz "A") else r)
  else To r.

Definition ToUpper (To : Z -> Z) (r : Z) : Z :=
  if r <=? MaxASCII then
    (if (bz "a" <=? r) && (r <=? bz "z") then r - (bz "a" - bz "A") else r)
  else To r.

Definition MaxLatin1 : Z := 0xFF.

(** [IsSpace r]. Up to [MaxLatin1] the white space is listed in the
    function: tab, line feed, vertical tab, form feed, carriage return,
    space, U+0085 and U+00A0. Above, it is the range table [White_Space]
    of the Unicode version of the Go release, the parameter [White_Space]. *)
Definition IsSpace (White_Space : Z -> bool) (r : Z) : bool :=
  if r mod 2 ^ 32 <=? MaxLatin1 then
    (r =? 0x09) || (r =? 0x0A) || (r =? 0x0B) || (r =? 0x0C) || (r =? 0x0D)
    || (r =? 0x20) || (r =? 0x85) || (r =? 0xA0)
  else White_Space r.

End unicode.

(** A fragment of the case tables, for the examples: the runes of the
    Latin-1 supplement (U+00B5 and U+00FF have their upper case outside
    it), and the runes above U+00FF whose other case is an ASCII letter
    (U+0130 and U+212A, KELVIN SIGN, in lower case; U+0131 and U+017F in
    upper case). The other runes above U+00FF are left alone, which is not
    what the tables of Go hold for them. *)
Definition latin1Lower (r : Z) : Z :=
  if (0xC0 <=? r) && (r <=? 0xDE) && negb (r =? 0xD7) then r + 32
  else if r =? 0x130 then 0x69
  else if r =? 0x212A then 0x6B
  else r.

Definition latin1Upper (r : Z) : Z :=
  if (0xE0 <=? r) && (r <=? 0xFE) && negb (r =? 0xF7) then r - 32
  else if r =? 0xB5 then 0x39C
  else if r =? 0xFF then 0x178
  else if r =? 0x131 then 0x49
  else if r =? 0x17F then 0x53
  else r.

(** The white space above U+00FF, for the examples (the table has held
    these runes since Unicode 6.3). *)
Definition whiteSpace (r : Z) : bool :=
  (r =? 0x1680) || ((0x2000 <=? r) && (r <=? 0x200A)) || (r =? 0x2028)
  || (r =? 0x2029) || (r =? 0x202F) || (r =? 0x205F) || (r =? 0x3000).

(** ** Package [strings] (and [bytes.Equal]) *)

Module strings.

Definition HasPrefix (s prefix : bytes) : bool :=
  (length prefix <=? length s)%nat
  && bool_decide (take (length prefix) s = prefix).

Definition HasSuffix (s suffix : bytes) : bool :=
  (length suffix <=? length s)%nat
  && bool_decide (drop (length s - length suffix) s = suffix).

Definition TrimPrefix (s prefix : bytes) : bytes :=
  if HasPrefix s prefix then drop (length prefix) s else s.

(** [Index s substr] for a one-byte [substr], which is [IndexByte]: the
    index of the first [c] in [s], or -1. *)
Fixpoint IndexByte (s : bytes) (c : byte) : Z :=
  match s with
  | [] => -1
  | b :: s' =>
    if bool_decide (b = c) then 0
    else let i := IndexByte s' c in if i <? 0 then -1 else i + 1
  end.

Section Map.

Variable mapping : Z -> Z.

(** The first loop of [Map], [for i, c := range s], which looks for the
    first rune that [mapping] changes. [None]: the loop ran to the end and
    the builder was never grown. [Some (b, s')]: the builder holds [b] and
    the rest of the input is [s' = s[i+width:]]. The range loop decodes at
    most [length s] runes, which bounds the recursion. *)
Fixpoint Map_first (fuel : nat) (s : bytes) (i : nat) : option (bytes * bytes) :=
  match fuel with
  | O => None
  | S fuel' =>
    if (length s <=? i)%nat then None
    else
      let '(c, w) := utf8.DecodeRune (drop i s) in
      let r := mapping c in
      if (r =? c) && negb (c =? utf8.RuneError)
      then Map_first fuel' s (i + Z.to_nat w)
      else
        let '(c', width) :=
          if c =? utf8.RuneError then utf8.DecodeRune (drop i s)
          else (c, utf8.RuneLen c) in
        if (c =? utf8.RuneError) && negb (width =? 1) && (r =? c')
        then Map_first fuel' s (i + Z.to_nat w)
        else
          Some (take i s ++ (if 0 <=? r then utf8.AppendRune r else []),
                drop (i + Z.to_nat width) s)
  end.

(** The second loop of [Map]: every remaining rune is mapped and written,
    a negative result dropping the rune. *)
Fixpoint Map_rest (fuel : nat) (s : bytes) : bytes :=
  match fuel with
  | O => []
  | S fuel' =>
    if (length s <=? 0)%nat then []
    else
      let '(c, w) := utf8.DecodeRune s in
      let r := mapping c in
      (if 0 <=? r then
         (if r <? utf8.RuneSelf then [zb r] else utf8.AppendRune r)
       else [])
      ++ Map_rest fuel' (drop (Z.to_nat w) s)
  end.

Definition Map (s : bytes) : bytes :=
  match Map_first (length s) s 0 with
  | None => s
  | Some (b, s') => b ++ Map_rest (length s') s'
  end.

End Map.

Definition isASCII (s : bytes) : bool :=
  forallb (fun c => bz c <? utf8.RuneSelf) s.

Definition lowerByte (c : byte) : byte :=
  if (bz "A" <=? bz c) && (bz c <=? bz "Z")
  then zb (bz c + (bz "a" - bz "A")) else c.

Definition upperByte (c : byte) : byte :=
  if (bz "a" <=? bz c) && (bz c <=? bz "z")
  then zb (bz c - (bz "a" - bz "A")) else c.

(** [ToLower s]: on an all-ASCII string the bytes [A]..[Z] are replaced in
    place (the builder copies the stretches between them unchanged); any
    other string goes through [Map(unicode.ToLower, s)]. *)
Definition ToLower (To : Z -> Z) (s : bytes) : bytes :=
  if isASCII s then map lowerByte s else Map (unicode.ToLower To) s.

Definition ToUpper (To : Z -> Z) (s : bytes) : bytes :=
  if isASCII s then map upperByte s else Map (unicode.ToUpper To) s.

(** The table [asciiSpace]: tab, line feed, vertical tab, form feed,
    carriage return and space. *)
Definition asciiSpace (c : byte) : bool :=
  (bz c =? 0x09) || (bz c =? 0x0A) || (bz c =? 0x0B) || (bz c =? 0x0C)
  || (bz c =? 0x0D) || (bz c =? 0x20).

Section Func.

Variable f : Z -> bool.

(** [indexFunc s f truth]: the byte index of the first rune [r] of [s]
    with [f r = truth], or -1. The loop is [for i, r := range s]. *)
Fixpoint indexFunc (fuel : nat) (s : bytes) (i : nat) (truth : bool) : Z :=
  match fuel with
  | O => -1
  | S fuel' =>
    if (length s <=? i)%nat then -1
    else
      let '(r, w) := utf8.DecodeRune (drop i s) in
      if Bool.eqb (f r) truth then Z.of_nat i
      else indexFunc fuel' s (i + Z.to_nat w) truth
  end.

(** [lastIndexFunc s f truth]: the same from the end, [i] running down from
    [len(s)] by the width of the last rune of [s[0:i]]. *)
Fixpoint lastIndexFunc (fuel : nat) (s : bytes) (i : nat) (truth : bool) : Z :=
  match fuel with
  | O => -1
  | S fuel' =>
    if (i <=? 0)%nat then -1
    else
      let '(r, size) := utf8.DecodeLastRune (take i s) in
      let i' := (i - Z.to_nat size)%nat in
      if Bool.eqb (f r) truth then Z.of_nat i'
      else lastIndexFunc fuel' s i' truth
  end.

Definition TrimLeftFunc (s : bytes) : bytes :=
  let i := indexFunc (length s) s 0 false in
  if i =? -1 then [] else drop (Z.to_nat i) s.

Definition TrimRightFunc (s : bytes) : bytes :=
  let i := lastIndexFunc (length s) s (length s) false in
  let i :=
    if (0 <=? i) && (utf8.RuneSelf <=? bz (at_ s (Z.to_nat i)))
    then i + snd (utf8.DecodeRune (drop (Z.to_nat i) s))
    else i + 1 in
  take (Z.to_nat i) s.

Definition TrimFunc (s : bytes) : bytes := TrimRightFunc (TrimLeftFunc s).

(** The loop [for end, rune := range s] of [FieldsFunc], which collects the
    spans [s[start:end]] of the fields; [start] is negative between two
    fields, and the last field may end with the string. *)
Fixpoint FieldsFunc_spans (fuel : nat) (s : bytes) (end_ : nat) (start : Z)
    : list (Z * Z) :=
  if (length s <=? end_)%nat then
    (if 0 <=? start then [(start, Z.of_nat (length s))] else [])
  else
    match fuel with
    | O => []
    | S fuel' =>
      let '(rune, w) := utf8.DecodeRune (drop end_ s) in
      if f rune then
        (if 0 <=? start then
           (start, Z.of_nat end_)
           :: FieldsFunc_spans fuel' s (end_ + Z.to_nat w) (Z.lnot start)
         else FieldsFunc_spans fuel' s (end_ + Z.to_nat w) start)
      else
        FieldsFunc_spans fuel' s (end_ + Z.to_nat w)
          (if start <? 0 then Z.of_nat end_ else start)
    end.

Definition FieldsFunc (s : bytes) : list bytes :=
  map (fun span : Z * Z =>
         take (Z.to_nat (span.2 - span.1)) (drop (Z.to_nat span.1) s))
      (FieldsFunc_spans (length s) s 0 (-1)).

End Func.

(** The second loop of [TrimSpace], on [s = s[start:]]: [stop] runs down
    from the end over the ASCII white space; a byte that is not ASCII hands
    over to [TrimRightFunc]. *)
Fixpoint TrimSpace_stop (IsSpace : Z -> bool) (s : bytes) (stop : nat) : bytes :=
  match stop with
  | O => []
  | S stop' =>
    let c := at_ s stop' in
    if utf8.RuneSelf <=? bz c then TrimRightFunc IsSpace (take stop s)
    else if negb (asciiSpace c) then take stop s
    else TrimSpace_stop IsSpace s stop'
  end.

(** [TrimSpace s]; the first loop, over the leading ASCII white space, is
    a recursion on [s[start:]], and a byte that is not ASCII hands over to
    [TrimFunc]. *)
Fixpoint TrimSpace (IsSpace : Z -> bool) (s : bytes) : bytes :=
  match s with
  | [] => []
  | c :: s' =>
    if utf8.RuneSelf <=? bz c then TrimFunc IsSpace s
    else if negb (asciiSpace c) then TrimSpace_stop IsSpace s (length s)
    else TrimSpace IsSpace s'
  end.

(** The ASCII path of [Fields]: the scan over [s[i:]]. [field] is
    [Some s[fieldStart:i]] inside a field and [None] while the white space
    before a field is skipped; a field is cut at the white space after it,
    and the last one may end with the string. *)
Fixpoint Fields_scan (s : bytes) (field : option bytes) : list bytes :=
  match s with
  | [] => match field with Some fld => [fld] | None => [] end
  | c :: s' =>
    if asciiSpace c then
      match field with
      | Some fld => fld :: Fields_scan s' None
      | None => Fields_scan s' None
      end
    else Fields_scan s' (Some (default [] field ++ [c]))
  end.

(** [Fields s]. A byte above 0x7F anywhere in [s] (the test
    [setBits >= utf8.RuneSelf]) sends the string to [FieldsFunc] with
    [unicode.IsSpace]; on an ASCII string the count of the first loop is the
    number of fields, so that the slice [a] is filled exactly. *)
Definition Fields (IsSpace : Z -> bool) (s : bytes) : list bytes :=
  if negb (isASCII s) then FieldsFunc IsSpace s else Fields_scan s None.

End strings.

(** ** Package [strconv] and the verb [%d] of [fmt] *)

Module strconv.

Definition digitVal (c : byte) : option Z :=
  let d := bz c - bz "0" in
  if (0 <=? d) && (d <=? 9) then Some d else None.

(** The value of a string of decimal digits; [None] is the syntax error of
    [ParseUint] on a byte that is not a digit. *)
Fixpoint digitsValue (n : Z) (s : bytes) : option Z :=
  match s with
  | [] => Some n
  | c :: s' =>
    match digitVal c with
    | None => None
    | Some d => digitsValue (n * 10 + d) s'
    end
  end.

(** [Atoi s], with [None] for every non-nil [err]: an optional sign, then
    one or more decimal digits, and the value must fit in 64 bits. (The Go
    function has a fast path for short strings and falls back to
    [ParseInt(s, 10, 0)]; both compute what is written here.) *)
Definition Atoi (s : bytes) : option Z :=
  match s with
  | [] => None
  | c :: s' =>
    let neg := bool_decide (c = "-"%byte) in
    let ds := if neg || bool_decide (c = "+"%byte) then s' else s in
    match ds with
    | [] => None
    | _ =>
      match digitsValue 0 ds with
      | None => None
      | Some un =>
        if neg then (if 2 ^ 63 <? un then None else Some (- un))
        else (if 2 ^ 63 <=? un then None else Some un)
      end
    end
  end.

(** The decimal digits of [n >= 0], most significant first. *)
Fixpoint formatBits (fuel : nat) (n : Z) (acc : bytes) : bytes :=
  let acc' := zb (bz "0" + n mod 10) :: acc in
  match fuel with
  | O => acc'
  | S fuel' => if n <? 10 then acc' else formatBits fuel' (n / 10) acc'
  end.

(** [Itoa n], which is also [fmt.Sprintf("%d", n)]. *)
Definition Itoa (n : Z) : bytes :=
  if n <? 0 then "-"%byte :: formatBits (Z.to_nat (- n)) (- n) []
  else formatBits (Z.to_nat n) n [].

End strconv.

(** ** Package [sort]: the order of [sort.Strings] *)

(** [a < b] on Go strings: byte-wise lexicographic, a proper prefix first. *)
Fixpoint strLt (a b : bytes) : bool :=
  match a, b with
  | _, [] => false
  | [], _ :: _ => true
  | x :: a', y :: b' =>
    if bz x <? bz y then true
    else if bz y <? bz x then false
    else strLt a' b'
  end.

Definition strLe (a b : bytes) : Prop := strLt b a = false.

#[global] Instance strLe_dec a b : Decision (strLe a b).
Proof. unfold strLe. apply _. Defined.

(** [sort.Strings]: the input in ascending order. The order is total and
    antisymmetric, so the result does not depend on the sorting algorithm
    (see [sort_Strings_unique] below). *)
Definition sort_Strings (l : list bytes) : list bytes := merge_sort strLe l.

(** ** The store, the outcome of a command, and the checks of PUT *)

Abbreviation store := (gmap bytes (list bytes)).

(** What one iteration of the command loop does. *)
Inductive outcome :=
| Continue (fs : store) (rd : bytes) (out : bytes)
    (** the iteration ends ([continue], or the end of the [switch]): the
        store is [fs], the unread input is [rd], and [out] was written *)
| Return (fs : store) (out : bytes)
    (** [return]: the deferred [conn.Close()] ends the connection *)
| Panic.
    (** a run-time panic; nothing recovers it, so the process exits *)

(** [validPath.MatchString]: the pattern [^[a-zA-Z0-9/._-]+$] matches a
    non-empty string of bytes of the class. A byte above 0x7F is never in
    the class (it decodes to a rune above 0x7F or to U+FFFD), and [$]
    matches only at the end of the text. *)
Definition pathChar (c : byte) : bool :=
  let v := bz c in
  ((bz "a" <=? v) && (v <=? bz "z"))
  || ((bz "A" <=? v) && (v <=? bz "Z"))
  || ((bz "0" <=? v) && (v <=? bz "9"))
  || bool_decide (c = "/"%byte) || bool_decide (c = "."%byte)
  || bool_decide (c = "_"%byte) || bool_decide (c = "-"%byte).

Definition validPath_MatchString (s : bytes) : bool :=
  (0 <? length s)%nat && forallb pathChar s.

(** The largest allocation the run time accepts (linux/amd64): [make]
    panics on a negative length and on one above it. For a length within
    the bound the model takes the memory to be there: in the running server
    an allocation that the machine cannot satisfy ends the process with the
    fatal error [out of memory], which is not a panic and which the model
    does not have. What is proved of a PUT with such a length holds of the
    server whenever the allocation succeeds. *)
Definition maxAlloc : Z := 2 ^ 48.

Definition makeslice_ok (len : Z) : bool := (0 <=? len) && (len <=? maxAlloc).

(** 64-bit wrap-around of [int] arithmetic. *)
Definition wrap64 (z : Z) : Z := (z + 2 ^ 63) mod 2 ^ 64 - 2 ^ 63.

(** The loop that sets [isText]. *)
Fixpoint isText (fileData : bytes) : bool :=
  match fileData with
  | [] => true
  | b :: rest =>
    if (bz b <? 32) && negb (bz b =? 10) && negb (bz b =? 13) && negb (bz b =? 9)
    then false
    else if bz b =? 127 then false
    else isText rest
  end.

(** [conn.Write] of an error or usage line followed by the prompt. *)
Definition READY : bytes := line (lit "READY").

Definition len {A} (l : list A) : Z := Z.of_nat (length l).

(** ** The connection *)

(** [reader.ReadString('\n')]: the bytes up to and including the first line
    feed, and the unread rest; [None] when the stream ends before a line
    feed (the error is [io.EOF], and the caller drops what was read). *)
Fixpoint ReadString (rd : bytes) : option (bytes * bytes) :=
  match rd with
  | [] => None
  | c :: rd' =>
    if bool_decide (c = LF) then Some ([c], rd')
    else
      match ReadString rd' with
      | Some (l, rest) => Some (c :: l, rest)
      | None => None
      end
  end.

(** How [handleConnection] ends: it returns and the deferred [conn.Close()]
    runs, or a panic ends the process. *)
Inductive ending := Closed | Crashed.

(** * The words of the specification, and the views used in the proofs *)

(** ** Paths, payloads and replies *)

(** The alphabet of a file path. *)
Definition pathAlphabet : bytes :=
  lit "ABCDEFGHIJKLMNOPQRSTUVWXYZabcdefghijklmnopqrstuvwxyz0123456789/._-".

(** A path is well-formed iff it begins with [/] and consists solely of
    characters of the alphabet. *)
Definition wellFormedPath (p : bytes) : Prop :=
  (exists p', p = "/"%byte :: p') /\ Forall (fun c => c ∈ pathAlphabet) p.

(** A byte of a text payload: no control character other than tab, line
    feed and carriage return, and not 0x7F. *)
Definition textByte (c : byte) : Prop :=
  (0x20 <= bz c \/ bz c = 0x09 \/ bz c = 0x0A \/ bz c = 0x0D) /\ bz c <> 0x7F.

(** The two replies a command ends with. *)
Definition errReply (msg : string) : bytes := line (lit msg) ++ READY.

Definition okPut (revID : Z) : bytes := line (lit "OK r" ++ strconv.Itoa revID) ++ READY.

Definition okGet (fileData : bytes) : bytes :=
  line (lit "OK " ++ strconv.Itoa (len fileData)) ++ fileData ++ READY.

(** ** Well-formed UTF-8 *)

(** A continuation byte. *)
Definition contByte (b : byte) : Prop := 0x80 <= bz b <= 0xBF.

(** The well-formed byte sequences of the Unicode standard (table 3-7). *)
Inductive wellFormedUTF8 : bytes -> Prop :=
| wf_nil : wellFormedUTF8 []
| wf_one b0 s :
    bz b0 <= 0x7F -> wellFormedUTF8 s -> wellFormedUTF8 (b0 :: s)
| wf_two b0 b1 s :
    0xC2 <= bz b0 <= 0xDF -> contByte b1 ->
    wellFormedUTF8 s -> wellFormedUTF8 (b0 :: b1 :: s)
| wf_three b0 b1 b2 s :
    0xE0 <= bz b0 <= 0xEF -> contByte b1 -> contByte b2 ->
    (bz b0 = 0xE0 -> 0xA0 <= bz b1) ->
    (bz b0 = 0xED -> bz b1 <= 0x9F) ->
    wellFormedUTF8 s -> wellFormedUTF8 (b0 :: b1 :: b2 :: s)
| wf_four b0 b1 b2 b3 s :
    0xF0 <= bz b0 <= 0xF4 -> contByte b1 -> contByte b2 -> contByte b3 ->
    (bz b0 = 0xF0 -> 0x90 <= bz b1) ->
    (bz b0 = 0xF4 -> bz b1 <= 0x8F) ->
    wellFormedUTF8 s -> wellFormedUTF8 (b0 :: b1 :: b2 :: b3 :: s).

(** The rows of the table [first]: the size and the accept range of the
    second byte that each leading byte selects. *)
Inductive firstRow (b : byte) : Z -> Prop :=
| row_as : bz b < 0x80 -> firstRow b utf8.as_
| row_xx : 0x80 <= bz b < 0xC2 \/ 0xF5 <= bz b -> firstRow b utf8.xx
| row_s1 : 0xC2 <= bz b <= 0xDF -> firstRow b utf8.s1
| row_s2 : bz b = 0xE0 -> firstRow b utf8.s2
| row_s3 : 0xE1 <= bz b <= 0xEC \/ 0xEE <= bz b <= 0xEF -> firstRow b utf8.s3
| row_s4 : bz b = 0xED -> firstRow b utf8.s4
| row_s5 : bz b = 0xF0 -> firstRow b utf8.s5
| row_s6 : 0xF1 <= bz b <= 0xF3 -> firstRow b utf8.s6
| row_s7 : bz b = 0xF4 -> firstRow b utf8.s7.

(** A text payload, in the words of the specification: well-formed UTF-8
    without control characters other than tab, line feed and carriage
    return, and without 0x7F. *)
Definition textPayload (b : bytes) : Prop :=
  wellFormedUTF8 b /\ Forall textByte b.

(** Every file of the store has a revision. *)
Definition nonEmptyFiles (fs : store) : Prop :=
  forall k revs, fs !! k = Some revs -> 1 <= len revs.

(** ** The entries of a listing *)

(** The entry that a key contributes, [rel] being the key without the
    prefix: the words of the specification. *)
Inductive entryOf (rel : bytes) (revs : list bytes) : bytes -> bytes -> Prop :=
| entry_dir seg rest :
    rel = seg ++ "/"%byte :: rest -> "/"%byte ∉ seg ->
    entryOf rel revs (seg ++ lit "/") (lit "DIR")
| entry_file :
    "/"%byte ∉ rel ->
    entryOf rel revs rel (lit "r" ++ strconv.Itoa (len revs)).

(** The same entry, as the loop body computes it. *)
Definition entryFn (rel : bytes) (revs : list bytes) : bytes * bytes :=
  let idx := strings.IndexByte rel "/" in
  if negb (idx =? -1) then (take (Z.to_nat idx) rel ++ lit "/", lit "DIR")
  else (rel, lit "r" ++ strconv.Itoa (len revs)).

(** Some key of [kvs] that begins with [pre] contributes the entry
    [name], [meta]. *)
Definition contributes (pre : bytes) (kvs : list (bytes * list bytes))
    (name meta : bytes) : Prop :=
  exists rel revs, (pre ++ rel, revs) ∈ kvs /\ entryOf rel revs name meta.

(** Strictly ascending byte order. *)
Definition ascending (l : list bytes) : Prop :=
  StronglySorted (fun a b => strLt a b = true) l.

(** The line of an entry, and the reply of LIST. *)
Definition renderEntry (e : bytes * bytes) : bytes :=
  line (e.1 ++ lit " " ++ e.2).

Definition okList (es : list (bytes * bytes)) : bytes :=
  line (lit "OK " ++ strconv.Itoa (len es))
  ++ concat (map renderEntry es) ++ READY.

(** The value of a two-, three- and four-byte encoding. *)
Definition rune2 (p0 b1 : byte) : Z := (bz p0 mod 32) * 64 + bz b1 mod 64.

Definition rune3 (p0 b1 b2 : byte) : Z :=
  (bz p0 mod 16) * 4096 + (bz b1 mod 64) * 64 + bz b2 mod 64.

Definition rune4 (p0 b1 b2 b3 : byte) : Z :=
  (bz p0 mod 8) * 262144 + (bz b1 mod 64) * 4096
  + (bz b2 mod 64) * 64 + bz b3 mod 64.

(** [decoded s c w]: the cases of [DecodeRune s = (c, w)] on a string that
    is not empty. An invalid first byte or a truncated or ill-formed
    sequence gives [RuneError] and width 1. *)
Inductive decoded : bytes -> Z -> Z -> Prop :=
| dec_ascii p0 s :
    bz p0 < 0x80 -> decoded (p0 :: s) (bz p0) 1
| dec_invalid p0 s :
    0x80 <= bz p0 -> decoded (p0 :: s) utf8.RuneError 1
| dec_two p0 b1 s :
    0xC2 <= bz p0 <= 0xDF -> contByte b1 ->
    decoded (p0 :: b1 :: s) (rune2 p0 b1) 2
| dec_three p0 b1 b2 s :
    0xE0 <= bz p0 <= 0xEF -> contByte b1 -> contByte b2 ->
    (bz p0 = 0xE0 -> 0xA0 <= bz b1) ->
    (bz p0 = 0xED -> bz b1 <= 0x9F) ->
    decoded (p0 :: b1 :: b2 :: s) (rune3 p0 b1 b2) 3
| dec_four p0 b1 b2 b3 s :
    0xF0 <= bz p0 <= 0xF4 -> contByte b1 -> contByte b2 -> contByte b3 ->
    (bz p0 = 0xF0 -> 0x90 <= bz b1) ->
    (bz p0 = 0xF4 -> bz b1 <= 0x8F) ->
    decoded (p0 :: b1 :: b2 :: b3 :: s) (rune4 p0 b1 b2 b3) 4.

(** What the second loop of [Map] writes for a mapped rune. *)
Definition writeRune (r : Z) : bytes :=
  if 0 <=? r then
    (if r <? utf8.RuneSelf then [zb r] else utf8.AppendRune r)
  else [].

(** ** Case-permutations *)

(** One of the bytes [A]..[Z]. *)
Definition upperLetter (c : byte) : Prop := bz "A" <= bz c <= bz "Z".

(** Two bytes that are the same but for the case of an ASCII letter. *)
Definition sameLetter (a b : byte) : Prop :=
  a = b
  \/ (upperLetter a /\ bz b = bz a + 32)
  \/ (upperLetter b /\ bz a = bz b + 32).

(** [p'] is a case-permutation of [p]. *)
Definition casePermutation (p p' : bytes) : Prop := Forall2 sameLetter p p'.

(** ** Revision tokens *)

(** [decimal ds n]: the bytes [ds] are one or more decimal digits that
    denote [n]. *)
Inductive decimal : bytes -> Z -> Prop :=
| decimal_digit d :
    0 <= d <= 9 -> decimal [zb (bz "0" + d)] d
| decimal_snoc ds n d :
    decimal ds n -> 0 <= d <= 9 ->
    decimal (ds ++ [zb (bz "0" + d)]) (10 * n + d).

(** A token that names revision [n]: the byte [r] or [R], then decimal
    digits that denote [n], with an optional [+] before them. *)
Definition revisionToken (t : bytes) (n : Z) : Prop :=
  exists c ds,
    (c = "r"%byte \/ c = "R"%byte) /\ decimal ds n
    /\ (t = c :: ds \/ t = c :: "+"%byte :: ds).

(** ** The key and the prefix of the specification *)

(** [normalize_key]: lower-cases [s] byte for byte. *)
Definition normalize_key (s : bytes) : bytes := map strings.lowerByte s.

(** The prefix of LIST in the words of the specification:
    [normalize_key(d)] with a trailing [/] appended if absent. *)
Definition specPrefix (d : bytes) : bytes :=
  if bool_decide (last (normalize_key d) = Some "/"%byte) then normalize_key d
  else normalize_key d ++ lit "/".

(** ** Invariants of the store and the shape of a reply *)

(** No byte of the key is one of [A]..[Z]. *)
Definition lowerCase (k : bytes) : Prop := Forall (fun c => ~ upperLetter c) k.

(** No revision equals the revision before it. *)
Definition noRepeat (revs : list bytes) : Prop :=
  forall (i : nat) a b, revs !! i = Some a -> revs !! S i = Some b -> a <> b.

(** The reply ends with the prompt. *)
Definition endsWithPrompt (out : bytes) : Prop := exists body, out = body ++ READY.

(** What holds of every file that PUT has stored: the key is a well-formed
    path in lower case, there is a revision, every revision is a text
    payload and none repeats the one before it. *)
Definition storeInvariant (fs : store) : Prop :=
  forall k revs,
    fs !! k = Some revs ->
    wellFormedPath k /\ lowerCase k /\ 1 <= len revs
    /\ Forall textPayload revs /\ noRepeat revs.

(** ** Command lines *)

(** A token of a command line: one or more ASCII bytes, none of them white
    space. *)
Definition token (t : bytes) : Prop :=
  t <> [] /\ Forall (fun c => bz c < 0x80 /\ strings.asciiSpace c = false) t.

(** A run of ASCII white space, possibly empty. *)
Definition blank (ws : bytes) : Prop :=
  Forall (fun c => strings.asciiSpace c = true) ws.

(** [tokensOf l ts]: the line [l] is the tokens [ts], in this order, with
    white space between them and possibly before the first and after the
    last. *)
Inductive tokensOf : bytes -> list bytes -> Prop :=
| tokens_none ws : blank ws -> tokensOf ws []
| tokens_last ws t : blank ws -> token t -> tokensOf (ws ++ t) [t]
| tokens_more ws t sp l ts :
    blank ws -> token t -> strings.asciiSpace sp = true ->
    tokensOf l ts -> tokensOf (ws ++ t ++ sp :: l) (t :: ts).

(** The tokens on one line, a space between them. *)
Fixpoint unwords (ts : list bytes) : bytes :=
  match ts with
  | [] => []
  | [t] => t
  | t :: ts' => t ++ " "%byte :: unwords ts'
  end.

(** * Concrete inputs *)

(** The store after [PUT /x 3] with [foo], and after a further [PUT /x 3]
    with [bar]. *)
Definition store_foo : store := {[ lit "/x" := [lit "foo"] ]}.
Definition store_foo_bar : store := {[ lit "/x" := [lit "foo"; lit "bar"] ]}.

(** The Kelvin sign U+212A in UTF-8, after a slash. *)
Definition kelvinPath : bytes := [x2f; xe2; x84; xaa].

(** A store with one file in the directory [/k]. *)
Definition store_k : store := {[ lit "/k/a" := [lit "x"] ]}.

(** The store of scenario 6 of the specification. *)
Definition store_dir : store :=
  {[ lit "/dir/a.txt" := [lit "A"]; lit "/dir/sub/b.txt" := [lit "B"] ]}.

(** * The server *)

Section Server.

(** The non-ASCII part of the case tables of package [unicode]. *)
Variable To_LowerCase : Z -> Z.
Variable To_UpperCase : Z -> Z.

(** [strings.ToLower] and [strings.ToUpper] with these tables. *)
Definition ToLower : bytes -> bytes := strings.ToLower To_LowerCase.
Definition ToUpper : bytes -> bytes := strings.ToUpper To_UpperCase.

(** The critical section of PUT, between [storeMutex.Lock()] and
    [storeMutex.Unlock()]: the new store and [revID]. *)
Definition putRevision (fs : store) (storeKey fileData : bytes) : store * Z :=
  let currentRevisions := default [] (fs !! storeKey) in
  if (0 <? len currentRevisions)
     && bool_decide (last currentRevisions = Some fileData)
  then (fs, len currentRevisions)
  else
    let fs' := <[storeKey := default [] (fs !! storeKey) ++ [fileData]]> fs in
    (fs', len (default [] (fs' !! storeKey))).

(** [case "PUT"]. *)
Definition handlePUT (parts : list bytes) (fs : store) (rd : bytes) : outcome :=
  if negb (length parts =? 3)%nat then
    Continue fs rd (line (lit "ERR usage: PUT file length") ++ READY)
  else
    let filename := parts !!! 1%nat in
    if negb (strings.HasPrefix filename (lit "/")) then
      Continue fs rd (line (lit "ERR illegal file name") ++ READY)
    else if negb (validPath_MatchString filename) then
      Continue fs rd (line (lit "ERR illegal file name") ++ READY)
    else
      let storeKey := ToLower filename in
      match strconv.Atoi (parts !!! 2%nat) with
      | None => Continue fs rd (line (lit "ERR invalid length") ++ READY)
      | Some length =>
        if negb (makeslice_ok length) then Panic
        else if len rd <? length then
          (* [io.ReadFull] meets the end of the stream *)
          Return fs []
        else
          let fileData := take (Z.to_nat length) rd in
          let rd' := drop (Z.to_nat length) rd in
          if negb (utf8.Valid fileData) then
            Continue fs rd' (line (lit "ERR text files only") ++ READY)
          else if negb (isText fileData) then
            Continue fs rd' (line (lit "ERR text files only") ++ READY)
          else
            let '(fs', revID) := putRevision fs storeKey fileData in
            Continue fs' rd' (line (lit "OK r" ++ strconv.Itoa revID) ++ READY)
      end.

(** [case "GET"]. *)
Definition handleGET (parts : list bytes) (fs : store) (rd : bytes) : outcome :=
  if (length parts <? 2)%nat then
    Continue fs rd (line (lit "ERR usage: GET file [revision]") ++ READY)
  else
    let filename := parts !!! 1%nat in
    let storeKey := ToLower filename in
    match fs !! storeKey with
    | None => Continue fs rd (line (lit "ERR no such file") ++ READY)
    | Some revisions =>
      (* [targetIndex], or [None] where the code replies and continues *)
      let target : option Z :=
        if (3 <=? length parts)%nat then
          let revString := parts !!! 2%nat in
          if negb (strings.HasPrefix (ToLower revString) (lit "r")) then None
          else
            match strconv.Atoi (drop 1 revString) with
            | None => None
            | Some revNum => Some (wrap64 (revNum - 1))
            end
        else Some (len revisions - 1) in
      match target with
      | None => Continue fs rd (line (lit "ERR no such revision") ++ READY)
      | Some targetIndex =>
        if (targetIndex <? 0) || (len revisions <=? targetIndex) then
          Continue fs rd (line (lit "ERR no such revision") ++ READY)
        else
          let fileData := revisions !!! Z.to_nat targetIndex in
          Continue fs rd
            (line (lit "OK " ++ strconv.Itoa (len fileData)) ++ fileData ++ READY)
      end
    end.

(** The body of [for path, revisions := range fileStore]. *)
Definition listStep (targetDir : bytes) (entries : gmap bytes bytes)
    (kv : bytes * list bytes) : gmap bytes bytes :=
  let '(path, revisions) := kv in
  if strings.HasPrefix path targetDir then
    let relative := strings.TrimPrefix path targetDir in
    let idx := strings.IndexByte relative "/" in
    if negb (idx =? -1) then
      let dirName := take (Z.to_nat idx) relative in
      <[dirName ++ lit "/" := lit "DIR"]> entries
    else
      let rev := len revisions in
      <[relative := lit "r" ++ strconv.Itoa rev]> entries
  else entries.

(** The map [entries] after the loop has visited the pairs [kvs] in this
    order. Go visits a map in an unspecified order; [listEntries_order]
    below shows that the order does not matter here. *)
Definition listEntries (targetDir : bytes) (kvs : list (bytes * list bytes))
    : gmap bytes bytes :=
  foldl (listStep targetDir) ∅ kvs.

(** [targetDir]: the lower-cased directory, ending with [/]. *)
Definition targetDirOf (dir : bytes) : bytes :=
  let targetDir := ToLower dir in
  if negb (strings.HasSuffix targetDir (lit "/")) then targetDir ++ lit "/"
  else targetDir.

(** [fmt.Sprintf("%s %s\n", name, meta)]. *)
Definition entryLine (entries : gmap bytes bytes) (name : bytes) : bytes :=
  let meta := default [] (entries !! name) in
  line (name ++ lit " " ++ meta).

(** [case "LIST"]. *)
Definition handleLIST (parts : list bytes) (fs : store) (rd : bytes) : outcome :=
  if negb (length parts =? 2)%nat then
    Continue fs rd (line (lit "ERR usage: LIST dir") ++ READY)
  else
    let targetDir := targetDirOf (parts !!! 1%nat) in
    let entries := listEntries targetDir (map_to_list fs) in
    let sortedNames := sort_Strings (map fst (map_to_list entries)) in
    Continue fs rd
      (line (lit "OK " ++ strconv.Itoa (len sortedNames))
       ++ concat (map (entryLine entries) sortedNames)
       ++ READY).

(** The body of the [for] loop of [handleConnection] once the line is read
    and split: [parts] are the fields of the line. *)
Definition handleCommand (parts : list bytes) (fs : store) (rd : bytes) : outcome :=
  if (length parts =? 0)%nat then Continue fs rd []
  else
    let cmd := ToUpper (parts !!! 0%nat) in
    if bool_decide (cmd = lit "PUT") then handlePUT parts fs rd
    else if bool_decide (cmd = lit "GET") then handleGET parts fs rd
    else if bool_decide (cmd = lit "LIST") then handleLIST parts fs rd
    else if bool_decide (cmd = lit "HELP") then
      Continue fs rd (line (lit "OK usage: HELP|GET|PUT|LIST") ++ READY)
    else
      Continue fs rd (line (lit "ERR illegal method: " ++ cmd) ++ READY).

(** The store states that the server can be in: it starts empty, and every
    command of every connection is one step (PUT changes the store while
    it holds the write lock, so commands of concurrent connections act on
    the store one after the other). *)
Inductive reachable : store -> Prop :=
| reachable_init : reachable ∅
| reachable_Continue fs parts rd fs' rd' out :
    reachable fs ->
    handleCommand parts fs rd = Continue fs' rd' out ->
    reachable fs'
| reachable_Return fs parts rd fs' out :
    reachable fs ->
    handleCommand parts fs rd = Return fs' out ->
    reachable fs'.

(** The index a revision token selects: [targetIndex] of the code, or
    [None] where the code has already replied with an error. *)
Definition tokenTarget (revString : bytes) : option Z :=
  if negb (strings.HasPrefix (ToLower revString) (lit "r")) then None
  else
    match strconv.Atoi (drop 1 revString) with
    | None => None
    | Some revNum => Some (wrap64 (revNum - 1))
    end.

(** The prefix of LIST as the code computes it, [targetDir] (see
    [targetDirOf_listPrefix]): the directory through [strings.ToLower], with
    a trailing [/] appended if absent. It is the prefix of the
    specification, [specPrefix], on the directories of ASCII bytes only. *)
Definition listPrefix (d : bytes) : bytes :=
  if bool_decide (last (ToLower d) = Some "/"%byte) then ToLower d
  else ToLower d ++ lit "/".

(** The entries of a listing, in the order in which they are written. *)
Definition listing (pre : bytes) (fs : store) : list (bytes * bytes) :=
  let entries := listEntries pre (map_to_list fs) in
  map (fun name => (name, default [] (entries !! name)))
      (sort_Strings (map fst (map_to_list entries))).

(** One command, of any connection, takes the store [fs] to [fs']. *)
Inductive step (fs : store) : store -> Prop :=
| step_Continue parts rd fs' rd' out :
    handleCommand parts fs rd = Continue fs' rd' out -> step fs fs'
| step_Return parts rd fs' out :
    handleCommand parts fs rd = Return fs' out -> step fs fs'.

(** [later fs fs']: [fs'] is the store some commands after [fs]. *)
Inductive later (fs : store) : store -> Prop :=
| later_now : later fs fs
| later_step fs' fs'' : later fs fs' -> step fs' fs'' -> later fs fs''.

(** The reply of LIST when the loop over [fileStore] visits the pairs in
    the order [kvs] and the loop over [entries] collects the names in the
    order [names]. *)
Definition listReply (targetDir : bytes) (kvs : list (bytes * list bytes))
    (names : list bytes) : bytes :=
  let entries := listEntries targetDir kvs in
  let sortedNames := sort_Strings names in
  line (lit "OK " ++ strconv.Itoa (len sortedNames))
  ++ concat (map (entryLine entries) sortedNames)
  ++ READY.

(** The [for] loop of [handleConnection], for a connection that runs alone
    on the store [fs] and whose client sends [rd] and closes its side: how
    the connection ends, the store it leaves and what it wrote. Every
    iteration that continues has consumed its line, so that [length rd]
    iterations are enough ([commandLoop_fuel] below). [White_Space] is the
    table [unicode.White_Space] for the runes above U+00FF. *)
Fixpoint commandLoop (White_Space : Z -> bool) (fuel : nat) (fs : store)
    (rd : bytes) : ending * store * bytes :=
  match ReadString rd with
  | None => (Closed, fs, [])
  | Some (line, rd1) =>
    let line := strings.TrimSpace (unicode.IsSpace White_Space) line in
    let parts := strings.Fields (unicode.IsSpace White_Space) line in
    match handleCommand parts fs rd1 with
    | Continue fs' rd' out =>
      match fuel with
      | O => (Closed, fs', out)
      | S fuel' =>
        let '(e, fs'', out') := commandLoop White_Space fuel' fs' rd' in
        (e, fs'', out ++ out')
      end
    | Return fs' out => (Closed, fs', out)
    | Panic => (Crashed, fs, [])
    end
  end.

(** The loop, run until the connection ends. *)
Definition commands (White_Space : Z -> bool) (fs : store) (rd : bytes)
    : ending * store * bytes :=
  commandLoop White_Space (length rd) fs rd.

(** What follows a reply: the rest of the connection, after [out]. *)
Definition andThen (out : bytes) (rest : ending * store * bytes)
    : ending * store * bytes :=
  let '(e, fs, out') := rest in (e, fs, out ++ out').

(** [handleConnection]: the greeting, then the loop. *)
Definition handleConnection (White_Space : Z -> bool) (fs : store)
    (rd : bytes) : ending * store * bytes :=
  andThen READY (commands White_Space fs rd).

(** * Proofs *)

(** ** Bytes *)

Lemma bz_range b : 0 <= bz b < 256.
Proof.
  unfold bz. pose proof (Byte.to_N_bounded b). lia.
Qed.

Lemma zb_bz b : zb (bz b) = b.
Proof.
  unfold zb, bz. pose proof (Byte.to_N_bounded b).
  rewrite Z.mod_small by lia. rewrite N2Z.id, Byte.of_to_N. reflexivity.
Qed.

Lemma bz_zb z : bz (zb z) = z mod 256.
Proof.
  unfold zb, bz.
  assert (Hr : (Z.to_N (z mod 256) <= 255)%N).
  { pose proof (Z.mod_pos_bound z 256). lia. }
  destruct (Byte.of_N (Z.to_N (z mod 256))) as [b|] eqn:E.
  - apply Byte.to_of_N in E. simpl. rewrite E.
    pose proof (Z.mod_pos_bound z 256). lia.
  - apply Byte.of_N_None_iff in E. lia.
Qed.

Lemma bz_inj a b : bz a = bz b -> a = b.
Proof.
  intros H. rewrite <- (zb_bz a), <- (zb_bz b), H. reflexivity.
Qed.

(** ** The library functions on examples *)

Example Atoi_5 : strconv.Atoi (lit "5") = Some 5.
Proof. reflexivity. Qed.

Example Atoi_minus_5 : strconv.Atoi (lit "-5") = Some (-5).
Proof. reflexivity. Qed.

Example Atoi_plus_1 : strconv.Atoi (lit "+1") = Some 1.
Proof. reflexivity. Qed.

Example Atoi_empty_sign : strconv.Atoi (lit "-") = None.
Proof. reflexivity. Qed.

Example Atoi_too_big : strconv.Atoi (lit "9223372036854775808") = None.
Proof. reflexivity. Qed.

Example Atoi_min : strconv.Atoi (lit "-9223372036854775808") = Some (- 2 ^ 63).
Proof. reflexivity. Qed.

Example Itoa_120 : strconv.Itoa 120 = lit "120".
Proof. reflexivity. Qed.

Example ToLower_ascii : strings.ToLower (fun r => r) (lit "/Dir/A.TXT") = lit "/dir/a.txt".
Proof. reflexivity. Qed.

Example ToLower_invalid :
  strings.ToLower (fun r => r) [x2f; xff; x41] = [x2f; xef; xbf; xbd; x61].
Proof. reflexivity. Qed.

Example ToLower_kelvin :
  strings.ToLower (fun r => if r =? 0x212A then 0x6B else r) [x2f; xe2; x84; xaa] = lit "/k".
Proof. reflexivity. Qed.

Example Valid_deadbeef : utf8.Valid [xde; xad; xbe; xef] = false.
Proof. reflexivity. Qed.

(** ** Basic facts *)

Lemma pathChar_alphabet c : pathChar c = bool_decide (c ∈ pathAlphabet).
Proof. destruct c; vm_compute; reflexivity. Qed.

Lemma validPath_wellFormed p :
  strings.HasPrefix p (lit "/") = true /\ validPath_MatchString p = true
  <-> wellFormedPath p.
Proof.
  unfold wellFormedPath, validPath_MatchString, strings.HasPrefix.
  rewrite !andb_true_iff, bool_decide_eq_true, forallb_forall, Forall_forall.
  split.
  - intros [[_ Hp] [_ Hc]]. split.
    + destruct p as [|c p]; simpl in Hp; [discriminate|].
      rewrite take_0 in Hp. injection Hp as ->. eauto.
    + intros c Hin. apply list_elem_of_In in Hin. specialize (Hc c Hin).
      rewrite pathChar_alphabet in Hc. by apply bool_decide_eq_true in Hc.
  - intros [[p' ->] Hc]. repeat split; try reflexivity.
    intros c Hin. rewrite pathChar_alphabet. apply bool_decide_eq_true.
    apply Hc, list_elem_of_In; exact Hin.
Qed.

Lemma isText_textByte b : isText b = true <-> Forall textByte b.
Proof.
  induction b as [|c b IH]; simpl.
  - split; [constructor | reflexivity].
  - rewrite Forall_cons, <- IH. unfold textByte.
    pose proof (bz_range c).
    destruct (bz c <? 32) eqn:E1; destruct (bz c =? 10) eqn:E2;
      destruct (bz c =? 13) eqn:E3; destruct (bz c =? 9) eqn:E4;
      destruct (bz c =? 127) eqn:E5; simpl;
      try (split; [intros; split; [lia | assumption] | intros [_ ?]; assumption]);
      split; try discriminate; intros [? _]; lia.
Qed.

Lemma len_nonneg {A} (l : list A) : 0 <= len l.
Proof. unfold len. lia. Qed.

Lemma len_app {A} (l1 l2 : list A) : len (l1 ++ l2) = len l1 + len l2.
Proof. unfold len. rewrite length_app. lia. Qed.

Lemma to_nat_len {A} (l : list A) : Z.to_nat (len l) = length l.
Proof. unfold len. lia. Qed.

(** *** Dispatch on the verb *)

Lemma handleCommand_PUT verb args fs rd :
  ToUpper verb = lit "PUT" ->
  handleCommand (verb :: args) fs rd = handlePUT (verb :: args) fs rd.
Proof.
  intros H. unfold handleCommand. simpl. rewrite H. reflexivity.
Qed.

Lemma handleCommand_GET verb args fs rd :
  ToUpper verb = lit "GET" ->
  handleCommand (verb :: args) fs rd = handleGET (verb :: args) fs rd.
Proof.
  intros H. unfold handleCommand. simpl. rewrite H. reflexivity.
Qed.

Lemma handleCommand_LIST verb args fs rd :
  ToUpper verb = lit "LIST" ->
  handleCommand (verb :: args) fs rd = handleLIST (verb :: args) fs rd.
Proof.
  intros H. unfold handleCommand. simpl. rewrite H. reflexivity.
Qed.

(** *** Normalisation of a well-formed path *)

Lemma alphabet_ascii c : c ∈ pathAlphabet -> (bz c <? utf8.RuneSelf) = true.
Proof.
  intros H.
  assert (Hb : bool_decide (c ∈ pathAlphabet) = true)
    by (apply bool_decide_eq_true_2; exact H).
  revert Hb. clear H. destruct c; vm_compute; congruence.
Qed.

Lemma wellFormed_isASCII p : wellFormedPath p -> strings.isASCII p = true.
Proof.
  intros [_ H]. unfold strings.isASCII. apply forallb_forall.
  intros c Hc. apply alphabet_ascii. rewrite Forall_forall in H.
  apply H, list_elem_of_In, Hc.
Qed.

Lemma ToLower_ascii_map s :
  strings.isASCII s = true -> ToLower s = map strings.lowerByte s.
Proof. intros H. unfold ToLower, strings.ToLower. rewrite H. reflexivity. Qed.

(** *** The critical section of PUT *)

Lemma putRevision_dup fs k b revs :
  fs !! k = Some revs -> last revs = Some b ->
  putRevision fs k b = (fs, len revs).
Proof.
  intros Hk Hl. unfold putRevision. rewrite Hk. simpl.
  assert ((0 <? len revs) = true) as ->.
  { destruct revs; [discriminate|]. apply Z.ltb_lt. unfold len. simpl length. lia. }
  rewrite bool_decide_eq_true_2 by assumption. reflexivity.
Qed.

Lemma putRevision_new fs k b :
  (forall revs, fs !! k = Some revs -> last revs <> Some b) ->
  putRevision fs k b
  = (<[k := default [] (fs !! k) ++ [b]]> fs, len (default [] (fs !! k)) + 1).
Proof.
  intros Hn. unfold putRevision.
  assert ((0 <? len (default [] (fs !! k)))
          && bool_decide (last (default [] (fs !! k)) = Some b) = false) as ->.
  { apply andb_false_iff. right. apply bool_decide_eq_false_2.
    destruct (fs !! k) as [revs|] eqn:E; simpl; [eauto | discriminate]. }
  rewrite lookup_insert_eq. simpl. rewrite len_app. reflexivity.
Qed.

(** A PUT whose header and payload pass every check runs the critical
    section on the lower-cased path and replies with the revision id. *)
Lemma PUT_accepted verb p n b rest fs :
  ToUpper verb = lit "PUT" ->
  wellFormedPath p ->
  strconv.Atoi n = Some (len b) ->
  len b <= maxAlloc ->
  utf8.Valid b = true ->
  Forall textByte b ->
  handleCommand [verb; p; n] fs (b ++ rest)
  = Continue (putRevision fs (map strings.lowerByte p) b).1 rest
             (okPut (putRevision fs (map strings.lowerByte p) b).2).
Proof.
  intros Hv Hp Hn Hmax Hutf Htxt.
  rewrite handleCommand_PUT by assumption.
  unfold handlePUT. simpl.
  pose proof (proj2 (validPath_wellFormed p) Hp) as [H1 H2].
  rewrite H1, H2. simpl. rewrite Hn.
  unfold makeslice_ok.
  pose proof (len_nonneg b).
  replace (0 <=? len b) with true by lia.
  replace (len b <=? maxAlloc) with true by lia. simpl.
  rewrite len_app. pose proof (len_nonneg rest).
  replace (len b + len rest <? len b) with false by lia.
  rewrite to_nat_len, take_app_length, drop_app_length.
  rewrite Hutf. simpl.
  rewrite (proj2 (isText_textByte b) Htxt). simpl.
  rewrite ToLower_ascii_map by (apply wellFormed_isASCII; assumption).
  destruct (putRevision fs (map strings.lowerByte p) b) as [fs' revID].
  reflexivity.
Qed.

(** ** Well-formed UTF-8 *)

Ltac zbool :=
  repeat match goal with
  | |- context [Z.ltb ?a ?b] => destruct (Z.ltb_spec a b)
  | |- context [Z.leb ?a ?b] => destruct (Z.leb_spec a b)
  | |- context [Z.eqb ?a ?b] => destruct (Z.eqb_spec a b)
  end.

Lemma first_row b : firstRow b (utf8.first b).
Proof.
  unfold utf8.first. pose proof (bz_range b).
  zbool;
    first [ apply row_as; lia | apply row_xx; lia | apply row_s1; lia
          | apply row_s2; lia | apply row_s3; lia | apply row_s4; lia
          | apply row_s5; lia | apply row_s6; lia | apply row_s7; lia ].
Qed.

Ltac wf_fin IH :=
  unfold contByte; try lia; try (intros; lia);
  (apply IH; [simpl; lia | assumption]).

Ltac wf_close IH :=
  first [ solve [apply wf_two; wf_fin IH] | solve [apply wf_three; wf_fin IH]
        | solve [apply wf_four; wf_fin IH] ].

Ltac valid_row IH :=
  simpl;
  repeat (match goal with
          | |- context [match ?p with [] => _ | _ :: _ => _ end] =>
            destruct p as [|? ?]; [discriminate|]
          end;
          unfold utf8.locb, utf8.hicb; zbool; simpl; try discriminate);
  let Hv := fresh "Hv" in intros Hv; wf_close IH.

Lemma Valid_wellFormed_aux n : forall p,
  (length p <= n)%nat -> utf8.Valid p = true -> wellFormedUTF8 p.
Proof.
  induction n as [|n IH]; intros p Hlen.
  - destruct p; [constructor | simpl in Hlen; lia].
  - destruct p as [|b0 p]; [constructor|].
    simpl in Hlen.
    assert (IH' : forall q, (length q <= length p)%nat ->
                            utf8.Valid q = true -> wellFormedUTF8 q).
    { intros q Hq. apply IH. lia. }
    clear IH. simpl utf8.Valid.
    destruct (first_row b0) as [H|H|H|H|H|H|H|H|H].
    all: try (replace (bz b0 <? utf8.RuneSelf) with false
                by (unfold utf8.RuneSelf; lia)).
    + replace (bz b0 <? utf8.RuneSelf) with true by (unfold utf8.RuneSelf; lia).
      intros Hv. apply wf_one; [lia|]. apply IH'; [lia | assumption].
    + simpl. discriminate.
    + valid_row IH'.
    + valid_row IH'.
    + valid_row IH'.
    + valid_row IH'.
    + valid_row IH'.
    + valid_row IH'.
    + valid_row IH'.
Qed.

Lemma wellFormed_Valid p : wellFormedUTF8 p -> utf8.Valid p = true.
Proof.
  induction 1 as [ | b0 s H0 _ IH | b0 b1 s H0 H1 _ IH
                 | b0 b1 b2 s H0 H1 H2 Ha Hb _ IH
                 | b0 b1 b2 b3 s H0 H1 H2 H3 Ha Hb _ IH ];
    [reflexivity | ..]; unfold contByte in *; simpl utf8.Valid.
  - replace (bz b0 <? utf8.RuneSelf) with true by (unfold utf8.RuneSelf; lia).
    assumption.
  - replace (bz b0 <? utf8.RuneSelf) with false by (unfold utf8.RuneSelf; lia).
    destruct (first_row b0) as [H|H|H|H|H|H|H|H|H]; try lia;
      simpl; unfold utf8.locb, utf8.hicb; zbool; simpl; try lia; assumption.
  - replace (bz b0 <? utf8.RuneSelf) with false by (unfold utf8.RuneSelf; lia).
    destruct (first_row b0) as [H|H|H|H|H|H|H|H|H]; try lia;
      simpl; unfold utf8.locb, utf8.hicb; zbool; simpl; try lia; assumption.
  - replace (bz b0 <? utf8.RuneSelf) with false by (unfold utf8.RuneSelf; lia).
    destruct (first_row b0) as [H|H|H|H|H|H|H|H|H]; try lia;
      simpl; unfold utf8.locb, utf8.hicb; zbool; simpl; try lia; assumption.
Qed.

(** [utf8.Valid] decides well-formedness. *)
Lemma Valid_spec p : utf8.Valid p = true <-> wellFormedUTF8 p.
Proof.
  split; [apply (Valid_wellFormed_aux (length p)); lia | apply wellFormed_Valid].
Qed.

(** *** PUT: rejected headers *)

Lemma PUT_illegal_name verb p n fs rd :
  ToUpper verb = lit "PUT" ->
  ~ wellFormedPath p ->
  handleCommand [verb; p; n] fs rd
  = Continue fs rd (errReply "ERR illegal file name").
Proof.
  intros Hv Hp. rewrite handleCommand_PUT by assumption.
  unfold handlePUT. simpl.
  destruct (strings.HasPrefix p (lit "/")) eqn:E1; [|reflexivity].
  destruct (validPath_MatchString p) eqn:E2; [|reflexivity].
  exfalso. apply Hp, validPath_wellFormed. split; assumption.
Qed.

Lemma PUT_invalid_length verb p n fs rd :
  ToUpper verb = lit "PUT" ->
  wellFormedPath p ->
  strconv.Atoi n = None ->
  handleCommand [verb; p; n] fs rd
  = Continue fs rd (errReply "ERR invalid length").
Proof.
  intros Hv Hp Hn. rewrite handleCommand_PUT by assumption.
  unfold handlePUT. simpl.
  pose proof (proj2 (validPath_wellFormed p) Hp) as [H1 H2].
  rewrite H1, H2, Hn. reflexivity.
Qed.

Lemma PUT_negative_length verb p n z fs rd :
  ToUpper verb = lit "PUT" ->
  wellFormedPath p ->
  strconv.Atoi n = Some z -> z < 0 ->
  handleCommand [verb; p; n] fs rd = Panic.
Proof.
  intros Hv Hp Hn Hz. rewrite handleCommand_PUT by assumption.
  unfold handlePUT. simpl.
  pose proof (proj2 (validPath_wellFormed p) Hp) as [H1 H2].
  rewrite H1, H2, Hn. simpl. unfold makeslice_ok.
  replace (0 <=? z) with false by lia. reflexivity.
Qed.

(** A payload that is not text is consumed and refused. *)
Lemma PUT_not_text verb p n b rest fs :
  ToUpper verb = lit "PUT" ->
  wellFormedPath p ->
  strconv.Atoi n = Some (len b) ->
  len b <= maxAlloc ->
  ~ textPayload b ->
  handleCommand [verb; p; n] fs (b ++ rest)
  = Continue fs rest (errReply "ERR text files only").
Proof.
  intros Hv Hp Hn Hmax Htxt.
  rewrite handleCommand_PUT by assumption.
  unfold handlePUT. simpl.
  pose proof (proj2 (validPath_wellFormed p) Hp) as [H1 H2].
  rewrite H1, H2. simpl. rewrite Hn.
  unfold makeslice_ok.
  pose proof (len_nonneg b).
  replace (0 <=? len b) with true by lia.
  replace (len b <=? maxAlloc) with true by lia. simpl.
  rewrite len_app. pose proof (len_nonneg rest).
  replace (len b + len rest <? len b) with false by lia.
  rewrite to_nat_len, take_app_length, drop_app_length.
  destruct (utf8.Valid b) eqn:E1; [|reflexivity]. simpl.
  destruct (isText b) eqn:E2; [|reflexivity].
  exfalso. apply Htxt. split; [apply Valid_spec | apply isText_textByte]; assumption.
Qed.

Lemma PUT_text verb p n b rest fs :
  ToUpper verb = lit "PUT" ->
  wellFormedPath p ->
  strconv.Atoi n = Some (len b) ->
  len b <= maxAlloc ->
  textPayload b ->
  handleCommand [verb; p; n] fs (b ++ rest)
  = Continue (putRevision fs (map strings.lowerByte p) b).1 rest
             (okPut (putRevision fs (map strings.lowerByte p) b).2).
Proof.
  intros Hv Hp Hn Hmax [Hu Ht].
  apply PUT_accepted; try assumption. apply Valid_spec; assumption.
Qed.

(** *** GET *)

Lemma lookup_total_last (revs : list bytes) b :
  last revs = Some b -> revs !!! Z.to_nat (len revs - 1) = b.
Proof.
  intros H. apply list_lookup_total_correct.
  rewrite last_lookup in H.
  replace (Z.to_nat (len revs - 1)) with (pred (length revs)); [assumption|].
  unfold len. lia.
Qed.

(** GET without a revision token returns the last revision. *)
Lemma GET_latest verb p fs rd revs b :
  ToUpper verb = lit "GET" ->
  fs !! ToLower p = Some revs ->
  last revs = Some b ->
  handleCommand [verb; p] fs rd = Continue fs rd (okGet b).
Proof.
  intros Hv Hk Hl. rewrite handleCommand_GET by assumption.
  unfold handleGET. simpl. rewrite Hk.
  assert (0 < len revs).
  { destruct revs; [discriminate|]. unfold len. simpl length. lia. }
  replace (len revs - 1 <? 0) with false by lia.
  replace (len revs <=? len revs - 1) with false by lia. simpl.
  rewrite (lookup_total_last revs b Hl). reflexivity.
Qed.

Lemma GET_token verb p t extra fs rd revs :
  ToUpper verb = lit "GET" ->
  fs !! ToLower p = Some revs ->
  handleCommand (verb :: p :: t :: extra) fs rd
  = match tokenTarget t with
    | None => Continue fs rd (errReply "ERR no such revision")
    | Some targetIndex =>
      if (targetIndex <? 0) || (len revs <=? targetIndex)
      then Continue fs rd (errReply "ERR no such revision")
      else Continue fs rd (okGet (revs !!! Z.to_nat targetIndex))
    end.
Proof.
  intros Hv Hk. rewrite handleCommand_GET by assumption.
  unfold handleGET, tokenTarget. simpl length.
  change (S (S (S (length extra))) <? 2)%nat with false.
  change (3 <=? S (S (S (length extra))))%nat with true.
  cbv iota. simpl lookup_total.
  change ((verb :: p :: t :: extra) !!! 1%nat) with p.
  change ((verb :: p :: t :: extra) !!! 2%nat) with t.
  rewrite Hk.
  destruct (negb (strings.HasPrefix (ToLower t) (lit "r"))); [reflexivity|].
  destruct (strconv.Atoi (drop 1 t)); reflexivity.
Qed.

(** *** Which store a command leaves *)

Lemma handleCommand_store parts fs rd :
  match handleCommand parts fs rd with
  | Continue fs' _ _ | Return fs' _ =>
    fs' = fs \/ exists k b, fs' = (putRevision fs k b).1
  | Panic => True
  end.
Proof.
  unfold handleCommand, handlePUT, handleGET, handleLIST.
  repeat case_match; simplify_eq; auto.
  all: right; eexists _, _;
    match goal with H : putRevision _ _ _ = _ |- _ => rewrite H end;
    reflexivity.
Qed.

Lemma putRevision_nonEmpty fs k b :
  nonEmptyFiles fs -> nonEmptyFiles (putRevision fs k b).1.
Proof.
  intros Hfs. unfold putRevision. case_match; [exact Hfs|].
  simpl. intros k' revs'.
  destruct (decide (k = k')) as [->|Hne].
  - rewrite lookup_insert_eq. intros [= <-]. rewrite len_app.
    pose proof (len_nonneg (default [] (fs !! k'))). unfold len at 2. simpl. lia.
  - rewrite lookup_insert_ne by assumption. apply Hfs.
Qed.

Lemma reachable_nonEmpty fs : reachable fs -> nonEmptyFiles fs.
Proof.
  induction 1 as [ | fs parts rd fs' rd' out _ IH Hstep
                 | fs parts rd fs' out _ IH Hstep ].
  - intros k revs. rewrite lookup_empty. discriminate.
  - pose proof (handleCommand_store parts fs rd) as Hs. rewrite Hstep in Hs.
    destruct Hs as [-> | (k & b & ->)]; [assumption|].
    apply putRevision_nonEmpty; assumption.
  - pose proof (handleCommand_store parts fs rd) as Hs. rewrite Hstep in Hs.
    destruct Hs as [-> | (k & b & ->)]; [assumption|].
    apply putRevision_nonEmpty; assumption.
Qed.

Lemma okGet_not_err b : okGet b <> errReply "ERR no such revision".
Proof. unfold okGet, errReply, line, lit. simpl. discriminate. Qed.

Lemma okPut_not_err id : okPut id <> errReply "ERR text files only".
Proof. unfold okPut, errReply, line, lit. simpl. discriminate. Qed.

(** ** The claims *)

(** C1, at the failing input. The header [PUT /a -5] carries a length that
    is not a non-negative decimal integer, and the specification asks for
    [ERR invalid length] and [READY]. [strconv.Atoi] accepts the sign, and
    [make([]byte, -5)] panics: nothing is written and the process stops. *)
Theorem C1_negative_length_panics fs rd :
  handleCommand [lit "PUT"; lit "/a"; lit "-5"] fs rd = Panic.
Proof.
  apply (PUT_negative_length _ _ _ (-5)).
  - reflexivity.
  - apply validPath_wellFormed. split; reflexivity.
  - reflexivity.
  - lia.
Qed.

(** C2. An accepted PUT of payload [b] under the normalised key [k]: when
    the file exists and its last revision equals [b], the store is unchanged
    and the reply carries the current number of revisions; otherwise [b] is
    appended and the reply carries the new number of revisions. Only the
    last revision is compared: the contents of an earlier revision that is
    not the last one are stored again. *)
Theorem C2_put_dedup_against_tail verb p n b rest fs :
  ToUpper verb = lit "PUT" ->
  wellFormedPath p ->
  strconv.Atoi n = Some (len b) ->
  len b <= maxAlloc ->
  textPayload b ->
  exists fs' id,
    handleCommand [verb; p; n] fs (b ++ rest) = Continue fs' rest (okPut id)
    /\ (forall revs,
          fs !! map strings.lowerByte p = Some revs -> last revs = Some b ->
          fs' = fs /\ id = len revs)
    /\ ((forall revs,
          fs !! map strings.lowerByte p = Some revs -> last revs <> Some b) ->
        fs' = <[map strings.lowerByte p :=
                  default [] (fs !! map strings.lowerByte p) ++ [b]]> fs
        /\ id = len (default [] (fs !! map strings.lowerByte p) ++ [b]))
    /\ (forall revs,
          fs !! map strings.lowerByte p = Some revs ->
          b ∈ revs -> last revs <> Some b ->
          fs' !! map strings.lowerByte p = Some (revs ++ [b])
          /\ id = len revs + 1).
Proof.
  intros Hv Hp Hn Hmax Ht.
  eexists _, _. split; [apply PUT_text; assumption|].
  repeat split.
  - rewrite (putRevision_dup _ _ _ revs); auto.
  - rewrite (putRevision_dup _ _ _ revs); auto.
  - rewrite putRevision_new by assumption. reflexivity.
  - rewrite putRevision_new by assumption. simpl. rewrite len_app. reflexivity.
  - rewrite putRevision_new.
    + simpl. rewrite lookup_insert_eq. rewrite H. reflexivity.
    + intros revs' H'. rewrite H in H'. injection H' as <-. assumption.
  - rewrite putRevision_new.
    + simpl. rewrite H. reflexivity.
    + intros revs' H'. rewrite H in H'. injection H' as <-. assumption.
Qed.

(** C3. Starting from a store with no file at the key: PUT of a text
    payload [b] followed by GET returns exactly [b]; and PUT of [b1]
    followed by PUT of a different [b2] makes GET with the token [r1]
    return [b1] and GET without a token return [b2]. *)
Theorem C3_put_get_round_trip put get p fs rd
    b n rest b1 n1 rest1 b2 n2 rest2 :
  ToUpper put = lit "PUT" ->
  ToUpper get = lit "GET" ->
  wellFormedPath p ->
  fs !! map strings.lowerByte p = None ->
  textPayload b -> strconv.Atoi n = Some (len b) -> len b <= maxAlloc ->
  textPayload b1 -> strconv.Atoi n1 = Some (len b1) -> len b1 <= maxAlloc ->
  textPayload b2 -> strconv.Atoi n2 = Some (len b2) -> len b2 <= maxAlloc ->
  b1 <> b2 ->
  (exists fs1,
     handleCommand [put; p; n] fs (b ++ rest) = Continue fs1 rest (okPut 1)
     /\ handleCommand [get; p] fs1 rd = Continue fs1 rd (okGet b))
  /\ (exists fs1 fs2,
     handleCommand [put; p; n1] fs (b1 ++ rest1) = Continue fs1 rest1 (okPut 1)
     /\ handleCommand [put; p; n2] fs1 (b2 ++ rest2) = Continue fs2 rest2 (okPut 2)
     /\ handleCommand [get; p; lit "r1"] fs2 rd = Continue fs2 rd (okGet b1)
     /\ handleCommand [get; p] fs2 rd = Continue fs2 rd (okGet b2)).
Proof.
  intros Hput Hget Hp Hnone Hb Hn Hm Hb1 Hn1 Hm1 Hb2 Hn2 Hm2 Hne.
  pose proof (wellFormed_isASCII p Hp) as Hascii.
  set (k := map strings.lowerByte p) in *.
  assert (Hfirst : forall x, putRevision fs k x = (<[k := [x]]> fs, 1)).
  { intros x. rewrite putRevision_new.
    - rewrite Hnone. reflexivity.
    - intros revs H. rewrite Hnone in H. discriminate. }
  split.
  - exists (<[k := [b]]> fs). split.
    + rewrite PUT_text by assumption. fold k. rewrite Hfirst. reflexivity.
    + apply (GET_latest _ _ _ _ [b]); try assumption; [|reflexivity].
      rewrite ToLower_ascii_map by assumption. apply lookup_insert_eq.
  - exists (<[k := [b1]]> fs), (<[k := [b1; b2]]> (<[k := [b1]]> fs)).
    assert (Hk2 : <[k := [b1; b2]]> (<[k := [b1]]> fs) !! ToLower p = Some [b1; b2]).
    { rewrite ToLower_ascii_map by assumption. apply lookup_insert_eq. }
    repeat split.
    + rewrite PUT_text by assumption. fold k. rewrite Hfirst. reflexivity.
    + rewrite PUT_text by assumption. fold k. rewrite putRevision_new.
      * rewrite lookup_insert_eq. reflexivity.
      * intros revs. rewrite lookup_insert_eq. intros [= <-]. simpl. congruence.
    + rewrite (GET_token _ _ _ _ _ _ [b1; b2]) by assumption. reflexivity.
    + apply (GET_latest _ _ _ _ [b1; b2]); try assumption. reflexivity.
Qed.

(** C5. A PUT whose declared number of payload bytes has been read is
    accepted iff the payload is valid UTF-8 without control bytes below
    0x20 other than 0x09, 0x0A and 0x0D and without 0x7F; a payload that is
    refused gets [ERR text files only] and [READY], and the store is as it
    was. *)
Theorem C5_text_files_only verb p n b rest fs :
  ToUpper verb = lit "PUT" ->
  wellFormedPath p ->
  strconv.Atoi n = Some (len b) ->
  len b <= maxAlloc ->
  ((exists fs' id,
      handleCommand [verb; p; n] fs (b ++ rest) = Continue fs' rest (okPut id))
   <-> textPayload b)
  /\ (~ textPayload b ->
      handleCommand [verb; p; n] fs (b ++ rest)
      = Continue fs rest (errReply "ERR text files only")).
Proof.
  intros Hv Hp Hn Hmax.
  assert (Hrej : ~ textPayload b ->
      handleCommand [verb; p; n] fs (b ++ rest)
      = Continue fs rest (errReply "ERR text files only")).
  { intros Ht. apply PUT_not_text; assumption. }
  split; [split|exact Hrej].
  - intros (fs' & id & Hok).
    destruct (utf8.Valid b && isText b) eqn:E.
    + apply andb_true_iff in E as [E1 E2].
      split; [apply Valid_spec | apply isText_textByte]; assumption.
    + rewrite Hrej in Hok.
      * exfalso. apply (okPut_not_err id). congruence.
      * intros [H1 H2]. apply Valid_spec in H1. apply isText_textByte in H2.
        rewrite H1, H2 in E. discriminate.
  - intros Ht. eexists _, _. apply PUT_text; assumption.
Qed.

(** C6. A PUT with three tokens whose path does not begin with [/] or
    holds a character outside [A-Za-z0-9/._-] gets [ERR illegal file name]
    and [READY]; the connection goes on with the next command, no byte of
    the input has been consumed, and the store is as it was. *)
Theorem C6_illegal_file_name verb p n fs rd :
  ToUpper verb = lit "PUT" ->
  (forall p', p <> "/"%byte :: p') \/ (exists c, c ∈ p /\ c ∉ pathAlphabet) ->
  handleCommand [verb; p; n] fs rd
  = Continue fs rd (errReply "ERR illegal file name").
Proof.
  intros Hv Hbad. apply PUT_illegal_name; [assumption|].
  intros [[p' ->] Hall]. destruct Hbad as [Hno | (c & Hin & Hout)].
  - exact (Hno p' eq_refl).
  - rewrite Forall_forall in Hall. exact (Hout (Hall c Hin)).
Qed.

(** C9. In every reachable store each key that is present has at least one
    revision; so GET without a revision token, for a key that is present,
    does not answer [ERR no such revision]: it returns a revision. *)
Theorem C9_present_files_have_a_revision fs :
  reachable fs ->
  (forall k revs, fs !! k = Some revs -> 1 <= len revs)
  /\ (forall verb p rd,
        ToUpper verb = lit "GET" ->
        is_Some (fs !! ToLower p) ->
        handleCommand [verb; p] fs rd
        <> Continue fs rd (errReply "ERR no such revision")
        /\ exists b, handleCommand [verb; p] fs rd = Continue fs rd (okGet b)).
Proof.
  intros Hr. pose proof (reachable_nonEmpty fs Hr) as Hne.
  split; [exact Hne|].
  intros verb p rd Hv [revs Hk].
  assert (exists b, last revs = Some b) as [b Hl].
  { specialize (Hne _ _ Hk). destruct revs as [|x revs' _] using rev_ind.
    - unfold len in Hne. simpl in Hne. lia.
    - exists x. apply last_snoc. }
  rewrite (GET_latest verb p fs rd revs b Hv Hk Hl). split.
  - intros H. apply (okGet_not_err b). congruence.
  - eauto.
Qed.

(** ** LIST: the directory projection *)

(** *** The string helpers *)

Lemma HasPrefix_spec s pre :
  strings.HasPrefix s pre = true <-> exists rel, s = pre ++ rel.
Proof.
  unfold strings.HasPrefix.
  rewrite andb_true_iff, bool_decide_eq_true, Nat.leb_le. split.
  - intros [_ Ht]. exists (drop (length pre) s).
    rewrite <- (take_drop (length pre) s) at 1. rewrite Ht. reflexivity.
  - intros [rel ->]. rewrite length_app, take_app_length. split; [lia | reflexivity].
Qed.

Lemma TrimPrefix_app pre rel : strings.TrimPrefix (pre ++ rel) pre = rel.
Proof.
  unfold strings.TrimPrefix.
  rewrite (proj2 (HasPrefix_spec (pre ++ rel) pre)) by eauto.
  apply drop_app_length.
Qed.

Lemma HasSuffix_slash s :
  strings.HasSuffix s (lit "/") = true <-> last s = Some "/"%byte.
Proof.
  unfold strings.HasSuffix.
  rewrite andb_true_iff, bool_decide_eq_true, Nat.leb_le, last_Some.
  change (length (lit "/")) with 1%nat. change (lit "/") with ["/"%byte].
  split.
  - intros [Hl Hd]. exists (take (length s - 1) s).
    rewrite <- Hd. symmetry. apply take_drop.
  - intros [l' ->]. rewrite length_app. simpl. split; [lia|].
    apply drop_app_length'. lia.
Qed.

Lemma IndexByte_ge s c : -1 <= strings.IndexByte s c.
Proof.
  induction s as [|b s IH]; simpl; [lia|].
  case_bool_decide; [lia|]. destruct (Z.ltb_spec (strings.IndexByte s c) 0); lia.
Qed.

Lemma IndexByte_notin s c : strings.IndexByte s c = -1 <-> c ∉ s.
Proof.
  induction s as [|b s IH]; simpl.
  - split; [intros _; apply not_elem_of_nil | reflexivity].
  - rewrite not_elem_of_cons, <- IH. pose proof (IndexByte_ge s c).
    case_bool_decide; subst.
    + split; [lia | intros [? _]; congruence].
    + destruct (Z.ltb_spec (strings.IndexByte s c) 0); split;
        try (intros ?; split; [congruence | lia]); try lia; intros [_ ?]; lia.
Qed.

Lemma IndexByte_app seg c rest :
  c ∉ seg -> strings.IndexByte (seg ++ c :: rest) c = len seg.
Proof.
  induction seg as [|b seg IH]; simpl; intros Hn.
  - rewrite bool_decide_eq_true_2 by reflexivity. reflexivity.
  - apply not_elem_of_cons in Hn as [Hne Hn].
    rewrite bool_decide_eq_false_2 by congruence.
    rewrite IH by assumption. pose proof (len_nonneg seg).
    replace (len seg <? 0) with false by lia. unfold len. simpl length. lia.
Qed.

Lemma IndexByte_split s c :
  0 <= strings.IndexByte s c ->
  exists rest,
    s = take (Z.to_nat (strings.IndexByte s c)) s ++ c :: rest
    /\ c ∉ take (Z.to_nat (strings.IndexByte s c)) s.
Proof.
  induction s as [|b s IH]; simpl; [lia|].
  case_bool_decide; subst.
  - intros _. exists s. split; [reflexivity | apply not_elem_of_nil].
  - pose proof (IndexByte_ge s c).
    destruct (Z.ltb_spec (strings.IndexByte s c) 0); [lia|]. intros _.
    destruct IH as (rest & Hs & Hn); [lia|]. exists rest.
    replace (Z.to_nat (strings.IndexByte s c + 1))
      with (S (Z.to_nat (strings.IndexByte s c))) by lia.
    simpl. split; [congruence|]. apply not_elem_of_cons. split; [congruence | assumption].
Qed.

(** *** One entry *)

Lemma listStep_match pre entries rel revs :
  listStep pre entries (pre ++ rel, revs)
  = <[(entryFn rel revs).1 := (entryFn rel revs).2]> entries.
Proof.
  unfold listStep, entryFn.
  rewrite (proj2 (HasPrefix_spec (pre ++ rel) pre)) by eauto.
  rewrite TrimPrefix_app.
  destruct (negb (strings.IndexByte rel "/" =? -1)); reflexivity.
Qed.

Lemma listStep_skip pre entries path revs :
  (forall rel, path <> pre ++ rel) ->
  listStep pre entries (path, revs) = entries.
Proof.
  intros Hn. unfold listStep.
  destruct (strings.HasPrefix path pre) eqn:E; [|reflexivity].
  apply HasPrefix_spec in E as [rel ->]. destruct (Hn rel eq_refl).
Qed.

Lemma entryFn_spec rel revs name meta :
  entryOf rel revs name meta <-> entryFn rel revs = (name, meta).
Proof.
  unfold entryFn. split.
  - intros [seg rest -> Hn | Hn].
    + rewrite IndexByte_app by assumption. pose proof (len_nonneg seg).
      replace (len seg =? -1) with false by lia. simpl.
      rewrite to_nat_len, take_app_length. reflexivity.
    + rewrite (proj2 (IndexByte_notin rel "/") Hn). reflexivity.
  - destruct (Z.eqb_spec (strings.IndexByte rel "/") (-1)) as [E|E]; simpl.
    + intros [= <- <-]. apply entry_file. apply IndexByte_notin; assumption.
    + intros [= <- <-]. pose proof (IndexByte_ge rel "/").
      destruct (IndexByte_split rel "/") as (rest & Hs & Hn); [lia|].
      eapply entry_dir; eassumption.
Qed.

Lemma entryOf_fun rel revs name meta name' meta' :
  entryOf rel revs name meta -> entryOf rel revs name' meta' ->
  name = name' /\ meta = meta'.
Proof.
  rewrite !entryFn_spec. intros H1 H2. rewrite H1 in H2.
  injection H2; auto.
Qed.

Lemma entryOf_total rel revs : exists name meta, entryOf rel revs name meta.
Proof.
  exists (entryFn rel revs).1, (entryFn rel revs).2.
  apply entryFn_spec. destruct (entryFn rel revs); reflexivity.
Qed.

(** Two keys can share a display name only as the same directory. *)
Lemma entryOf_same_name rel revs rel' revs' name meta meta' :
  entryOf rel revs name meta -> entryOf rel' revs' name meta' ->
  meta = meta' \/ rel = rel'.
Proof.
  intros H1 H2. inversion H1; inversion H2; subst; auto.
  all: exfalso;
    match goal with
    | H : _ ∉ _ ++ lit "/" |- _ =>
      apply H; apply elem_of_app; right; apply list_elem_of_here
    end.
Qed.

(** *** The loop over the store *)

Lemma contributes_snoc_skip pre kvs path revs name meta :
  (forall rel, path <> pre ++ rel) ->
  contributes pre (kvs ++ [(path, revs)]) name meta
  <-> contributes pre kvs name meta.
Proof.
  intros Hn. unfold contributes. split.
  - intros (rel & revs' & Hin & He). exists rel, revs'. split; [|assumption].
    apply elem_of_app in Hin as [Hin | Hin]; [assumption|].
    apply list_elem_of_singleton in Hin. injection Hin as Hp _.
    destruct (Hn rel). congruence.
  - intros (rel & revs' & Hin & He). exists rel, revs'. split; [|assumption].
    apply elem_of_app. left; assumption.
Qed.

Lemma listEntries_lookup pre kvs name meta :
  NoDup kvs.*1 ->
  listEntries pre kvs !! name = Some meta <-> contributes pre kvs name meta.
Proof.
  unfold listEntries.
  induction kvs as [|[path revs] kvs IH] using rev_ind; intros Hnd.
  - simpl. rewrite lookup_empty. split; [discriminate|].
    intros (rel & revs & Hin & _). apply elem_of_nil in Hin. destruct Hin.
  - rewrite fmap_app in Hnd. apply NoDup_app in Hnd as (Hnd & Hfresh & _).
    specialize (IH Hnd). rewrite foldl_snoc.
    destruct (strings.HasPrefix path pre) eqn:Epre.
    + apply HasPrefix_spec in Epre as [rel0 ->].
      rewrite listStep_match.
      destruct (entryFn rel0 revs) as [n0 m0] eqn:E0. simpl.
      apply entryFn_spec in E0.
      destruct (decide (n0 = name)) as [->|Hne].
      * rewrite lookup_insert_eq. split.
        -- intros [= <-]. exists rel0, revs. split; [|assumption].
           apply elem_of_app. right. apply list_elem_of_here.
        -- intros (rel & revs' & Hin & He). f_equal.
           apply elem_of_app in Hin as [Hin | Hin].
           ++ destruct (entryOf_same_name _ _ _ _ _ _ _ E0 He) as [? | ->];
                [assumption|].
              exfalso. apply (Hfresh (pre ++ rel)).
              ** apply list_elem_of_fmap. exists (pre ++ rel, revs'). auto.
              ** simpl. apply list_elem_of_here.
           ++ apply list_elem_of_singleton in Hin. injection Hin as Hp ->.
              apply app_inv_head in Hp as ->.
              apply (entryOf_fun _ _ _ _ _ _ E0 He).
      * rewrite lookup_insert_ne by assumption. rewrite IH.
        unfold contributes. split.
        -- intros (rel & revs' & Hin & He). exists rel, revs'.
           split; [|assumption]. apply elem_of_app. left; assumption.
        -- intros (rel & revs' & Hin & He). exists rel, revs'.
           split; [|assumption].
           apply elem_of_app in Hin as [Hin | Hin]; [assumption|].
           apply list_elem_of_singleton in Hin. injection Hin as Hp ->.
           apply app_inv_head in Hp as ->.
           destruct Hne. apply (entryOf_fun _ _ _ _ _ _ E0 He).
    + assert (Hn : forall rel, path <> pre ++ rel).
      { intros rel ->.
        rewrite (proj2 (HasPrefix_spec (pre ++ rel) pre)) in Epre by eauto.
        discriminate. }
      rewrite listStep_skip by assumption.
      rewrite contributes_snoc_skip by assumption. exact IH.
Qed.

(** The order in which the loop visits the store does not matter. *)
Lemma listEntries_order pre kvs kvs' :
  NoDup kvs.*1 -> kvs ≡ₚ kvs' ->
  listEntries pre kvs = listEntries pre kvs'.
Proof.
  intros Hnd Hp. apply map_eq. intros name. apply option_eq. intros meta.
  assert (Hnd' : NoDup kvs'.*1) by (rewrite <- Hp; assumption).
  rewrite !listEntries_lookup by assumption.
  unfold contributes. split; intros (rel & revs & Hin & He); exists rel, revs;
    (split; [|assumption]); [rewrite <- Hp | rewrite Hp]; assumption.
Qed.

Lemma listEntries_store (pre : bytes) (fs : store) (name meta : bytes) :
  listEntries pre (map_to_list fs) !! name = Some meta
  <-> exists key revs rel,
        fs !! key = Some revs /\ key = pre ++ rel /\ entryOf rel revs name meta.
Proof.
  rewrite listEntries_lookup by apply NoDup_fst_map_to_list.
  unfold contributes. split.
  - intros (rel & revs & Hin & He). apply elem_of_map_to_list in Hin.
    exists (pre ++ rel), revs, rel. auto.
  - intros (key & revs & rel & Hk & -> & He). exists rel, revs.
    split; [|assumption]. apply elem_of_map_to_list. assumption.
Qed.

(** *** The order of the names *)

Lemma strLt_irrefl a : strLt a a = false.
Proof.
  induction a as [|x a IH]; simpl; [reflexivity|].
  rewrite Z.ltb_irrefl. assumption.
Qed.

Lemma strLt_trichotomy a b : strLt a b = false -> strLt b a = false -> a = b.
Proof.
  revert b. induction a as [|x a IH]; intros [|y b]; simpl; try congruence.
  destruct (Z.ltb_spec (bz x) (bz y)); [discriminate|].
  destruct (Z.ltb_spec (bz y) (bz x)); [discriminate|].
  intros H1 H2. f_equal; [apply bz_inj; lia | apply IH; assumption].
Qed.

Lemma strLt_trans a b c :
  strLt a b = true -> strLt b c = true -> strLt a c = true.
Proof.
  revert b c. induction a as [|x a IH]; intros [|y b] [|z c]; simpl;
    try congruence.
  destruct (Z.ltb_spec (bz x) (bz y)); destruct (Z.ltb_spec (bz y) (bz z));
    destruct (Z.ltb_spec (bz x) (bz z)); destruct (Z.ltb_spec (bz y) (bz x));
    destruct (Z.ltb_spec (bz z) (bz y)); destruct (Z.ltb_spec (bz z) (bz x));
    try lia; try congruence.
  apply IH.
Qed.

Lemma strLt_asym a b : strLt a b = true -> strLt b a = false.
Proof.
  intros H. destruct (strLt b a) eqn:E; [|reflexivity].
  pose proof (strLt_trans _ _ _ H E) as Haa.
  rewrite strLt_irrefl in Haa. discriminate.
Qed.

#[local] Instance strLe_total : Total strLe.
Proof.
  intros a b. unfold strLe. destruct (strLt b a) eqn:E; [|left; reflexivity].
  right. apply strLt_asym. assumption.
Qed.

#[local] Instance strLe_antisymm : AntiSymm (=) strLe.
Proof. intros a b H1 H2. apply strLt_trichotomy; assumption. Qed.

#[local] Instance strLe_trans : Transitive strLe.
Proof.
  intros a b c Hab Hbc. unfold strLe in *.
  destruct (strLt c a) eqn:Eca; [|reflexivity].
  destruct (strLt a b) eqn:Eab.
  - pose proof (strLt_trans _ _ _ Eca Eab). congruence.
  - pose proof (strLt_trichotomy _ _ Eab Hab). subst. congruence.
Qed.

Lemma sorted_NoDup_ascending l : Sorted strLe l -> NoDup l -> ascending l.
Proof.
  intros Hs Hnd. apply Sorted_StronglySorted in Hs; [|apply _].
  unfold ascending. induction Hs as [|x l Hs IH Hall]; [constructor|].
  apply NoDup_cons in Hnd as [Hx Hnd]. constructor; [apply IH; assumption|].
  rewrite Forall_forall in Hall |- *. intros y Hy.
  destruct (strLt x y) eqn:E; [reflexivity|]. exfalso.
  apply Hx. rewrite (strLt_trichotomy x y E (Hall y Hy)). assumption.
Qed.

Lemma ascending_NoDup l : ascending l -> NoDup l.
Proof.
  induction 1 as [|x l _ IH Hall]; constructor; [|assumption].
  intros Hin. rewrite Forall_forall in Hall. specialize (Hall x Hin).
  rewrite strLt_irrefl in Hall. discriminate.
Qed.

(** The result of [sort.Strings] depends on the elements only. *)
Lemma sort_Strings_unique l l' : l ≡ₚ l' -> sort_Strings l = sort_Strings l'.
Proof.
  intros Hp. unfold sort_Strings. apply (Sorted_unique strLe).
  - apply Sorted_merge_sort; apply _.
  - apply Sorted_merge_sort; apply _.
  - rewrite !merge_sort_Permutation. assumption.
Qed.

(** *** The reply *)

Lemma targetDirOf_listPrefix d : targetDirOf d = listPrefix d.
Proof.
  unfold targetDirOf, listPrefix.
  destruct (strings.HasSuffix (ToLower d) (lit "/")) eqn:E; simpl.
  - apply HasSuffix_slash in E. rewrite bool_decide_eq_true_2; auto.
  - rewrite bool_decide_eq_false_2; [reflexivity|].
    intros H. apply HasSuffix_slash in H. congruence.
Qed.

Lemma LIST_listing verb d fs rd :
  ToUpper verb = lit "LIST" ->
  handleCommand [verb; d] fs rd
  = Continue fs rd (okList (listing (listPrefix d) fs)).
Proof.
  intros Hv. rewrite handleCommand_LIST by assumption.
  unfold handleLIST, okList, listing. simpl.
  change ([verb; d] !!! 1%nat) with d. rewrite targetDirOf_listPrefix.
  unfold len. rewrite length_map, map_map. reflexivity.
Qed.

Lemma listing_names pre fs :
  (listing pre fs).*1
  = sort_Strings (map fst (map_to_list (listEntries pre (map_to_list fs)))).
Proof.
  unfold listing. cbv zeta.
  induction (sort_Strings (map fst (map_to_list (listEntries pre (map_to_list fs)))))
    as [|x l IH]; [reflexivity|].
  simpl. f_equal. exact IH.
Qed.

Lemma listing_elem (pre : bytes) (fs : store) (name meta : bytes) :
  (name, meta) ∈ listing pre fs
  <-> exists key revs rel,
        fs !! key = Some revs /\ key = pre ++ rel /\ entryOf rel revs name meta.
Proof.
  rewrite <- listEntries_store. unfold listing.
  set (entries := listEntries pre (map_to_list fs)).
  rewrite list_elem_of_fmap. split.
  - intros (n & [= -> ->] & Hin).
    unfold sort_Strings in Hin. rewrite merge_sort_Permutation in Hin.
    apply list_elem_of_fmap in Hin as ([n' m'] & -> & Hin).
    apply elem_of_map_to_list in Hin. simpl. rewrite Hin. reflexivity.
  - intros Hl. exists name. rewrite Hl. split; [reflexivity|].
    unfold sort_Strings. rewrite merge_sort_Permutation.
    apply list_elem_of_fmap. exists (name, meta). split; [reflexivity|].
    apply elem_of_map_to_list. assumption.
Qed.

Lemma listing_ascending pre fs : ascending (listing pre fs).*1.
Proof.
  rewrite listing_names. apply sorted_NoDup_ascending.
  - apply Sorted_merge_sort; apply _.
  - unfold sort_Strings. rewrite merge_sort_Permutation.
    apply NoDup_fst_map_to_list.
Qed.

(** C7, as the code has it. LIST of a directory [d]: the prefix is the
    directory through [strings.ToLower], plus a trailing [/] if absent. On
    a directory of ASCII bytes this is the prefix of the specification,
    [normalize_key(d)] byte for byte plus the [/]; on any other directory
    [strings.ToLower] maps the runes through the case tables and writes
    U+FFFD for an invalid byte. Every stored key that begins with the
    prefix contributes exactly one entry - a directory entry [seg/ DIR]
    when the remainder holds a [/], [seg] being the part before the first
    one, and otherwise the remainder itself with [r] and the number of
    revisions - the entries written are exactly these, the names are in
    strictly ascending byte order without duplicates, and the count line
    gives the number of entries. *)
Theorem C7_list_projection verb d fs rd :
  ToUpper verb = lit "LIST" ->
  (strings.isASCII d = true -> listPrefix d = specPrefix d)
  /\ exists es : list (bytes * bytes),
    handleCommand [verb; d] fs rd
    = Continue fs rd
        (line (lit "OK " ++ strconv.Itoa (len es))
         ++ concat (map (fun e => line (e.1 ++ lit " " ++ e.2)) es) ++ READY)
    /\ (forall name meta,
          (name, meta) ∈ es
          <-> exists key revs rel,
                fs !! key = Some revs /\ key = listPrefix d ++ rel
                /\ entryOf rel revs name meta)
    /\ (forall rel revs,
          exists name meta,
            entryOf rel revs name meta
            /\ forall name' meta',
                 entryOf rel revs name' meta' -> name' = name /\ meta' = meta)
    /\ ascending es.*1
    /\ NoDup es.*1.
Proof.
  intros Hv. split.
  { intros Ha. unfold listPrefix, specPrefix, normalize_key.
    rewrite ToLower_ascii_map by assumption. reflexivity. }
  exists (listing (listPrefix d) fs).
  split; [apply LIST_listing; assumption|].
  split; [apply listing_elem|].
  split; [|split; [apply listing_ascending
                  | apply ascending_NoDup, listing_ascending]].
  intros rel revs. destruct (entryOf_total rel revs) as (name & meta & He).
  exists name, meta. split; [assumption|].
  intros name' meta' He'. apply (entryOf_fun _ _ _ _ _ _ He' He).
Qed.

(** C10. When a stored key equals the LIST prefix itself (PUT [/a/], then
    LIST [/a]), the listing has an entry whose display name is the empty
    string: a line that begins with a space, followed by [r] and the
    number of revisions. The empty name sorts first, so this is the line
    after the count. *)
Theorem C10_empty_display_name verb d fs rd revs :
  ToUpper verb = lit "LIST" ->
  fs !! listPrefix d = Some revs ->
  exists n rest,
    handleCommand [verb; d] fs rd
    = Continue fs rd
        (line (lit "OK " ++ strconv.Itoa n)
         ++ line (lit " r" ++ strconv.Itoa (len revs)) ++ rest).
Proof.
  intros Hv Hk. rewrite LIST_listing by assumption.
  assert (Hin : ([], lit "r" ++ strconv.Itoa (len revs))
                ∈ listing (listPrefix d) fs).
  { apply listing_elem. exists (listPrefix d), revs, [].
    split; [assumption|]. split; [symmetry; apply app_nil_r|].
    apply entry_file. apply not_elem_of_nil. }
  pose proof (listing_ascending (listPrefix d) fs) as Hasc.
  destruct (listing (listPrefix d) fs) as [|[n0 m0] es] eqn:E.
  - apply elem_of_nil in Hin. destruct Hin.
  - assert (n0 = [] /\ m0 = lit "r" ++ strconv.Itoa (len revs)) as [-> ->].
    { apply elem_of_cons in Hin as [[= <- <-] | Hin]; [auto|].
      exfalso. simpl in Hasc. apply StronglySorted_inv in Hasc as [_ Hall].
      rewrite Forall_forall in Hall.
      assert (Hlt : strLt n0 [] = true).
      { apply Hall. apply list_elem_of_fmap. eexists; split; [|exact Hin]. reflexivity. }
      destruct n0; discriminate. }
    exists (len (([], lit "r" ++ strconv.Itoa (len revs)) :: es)),
           (concat (map renderEntry es) ++ READY).
    unfold okList. do 2 f_equal. simpl. rewrite <- app_assoc. reflexivity.
Qed.

(** ** [strings.Map] and [strings.ToLower] on arbitrary bytes *)

(** *** Bit operations as arithmetic *)

Lemma lor_high_low a b n :
  0 <= n -> 0 <= b < 2 ^ n -> Z.lor (a * 2 ^ n) b = a * 2 ^ n + b.
Proof.
  intros Hn Hb.
  assert (Hland : Z.land (a * 2 ^ n) b = 0).
  { apply Z.bits_inj'. intros i Hi. rewrite Z.land_spec, Z.bits_0.
    destruct (Z.lt_ge_cases i n) as [Hlt | Hge].
    - rewrite Z.mul_pow2_bits_low by lia. reflexivity.
    - rewrite <- (Z.mod_small b (2 ^ n)) by lia.
      rewrite Z.mod_pow2_bits_high by lia. apply andb_false_r. }
  rewrite <- Z.lxor_lor by assumption.
  symmetry. apply Z.add_nocarry_lxor. assumption.
Qed.

Lemma land_low a n : 0 <= n -> Z.land a (2 ^ n - 1) = a mod 2 ^ n.
Proof.
  intros Hn. rewrite <- Z.land_ones by assumption.
  rewrite Z.ones_equiv. reflexivity.
Qed.

Lemma land_maskx a : Z.land a utf8.maskx = a mod 64.
Proof. apply (land_low a 6). lia. Qed.

Lemma land_mask2 a : Z.land a utf8.mask2 = a mod 32.
Proof. apply (land_low a 5). lia. Qed.

Lemma land_mask3 a : Z.land a utf8.mask3 = a mod 16.
Proof. apply (land_low a 4). lia. Qed.

Lemma land_mask4 a : Z.land a utf8.mask4 = a mod 8.
Proof. apply (land_low a 3). lia. Qed.

Lemma lor_tx b : 0 <= b < 64 -> Z.lor utf8.tx b = 0x80 + b.
Proof. intros H. apply (lor_high_low 2 b 6); lia. Qed.

Lemma lor_t2 b : 0 <= b < 32 -> Z.lor utf8.t2 b = 0xC0 + b.
Proof. intros H. apply (lor_high_low 6 b 5); lia. Qed.

Lemma lor_t3 b : 0 <= b < 16 -> Z.lor utf8.t3 b = 0xE0 + b.
Proof. intros H. apply (lor_high_low 14 b 4); lia. Qed.

Lemma lor_t4 b : 0 <= b < 8 -> Z.lor utf8.t4 b = 0xF0 + b.
Proof. intros H. apply (lor_high_low 30 b 3); lia. Qed.

Lemma lor_shift6 a b : 0 <= b < 64 -> Z.lor (Z.shiftl a 6) b = a * 64 + b.
Proof.
  intros H. rewrite Z.shiftl_mul_pow2 by lia. apply (lor_high_low a b 6); lia.
Qed.

(** *** What [DecodeRune] returns *)

Lemma shift_rune2 p0 b1 :
  Z.lor (Z.shiftl (Z.land (bz p0) utf8.mask2) 6) (Z.land (bz b1) utf8.maskx)
  = rune2 p0 b1.
Proof.
  rewrite land_mask2, land_maskx. unfold rune2.
  apply lor_shift6. apply Z.mod_pos_bound. lia.
Qed.

Lemma shift_rune3 p0 b1 b2 :
  Z.lor (Z.lor (Z.shiftl (Z.land (bz p0) utf8.mask3) 12)
               (Z.shiftl (Z.land (bz b1) utf8.maskx) 6))
        (Z.land (bz b2) utf8.maskx)
  = rune3 p0 b1 b2.
Proof.
  rewrite land_mask3, !land_maskx. unfold rune3.
  pose proof (Z.mod_pos_bound (bz b1) 64). pose proof (Z.mod_pos_bound (bz b2) 64).
  rewrite (Z.shiftl_mul_pow2 _ 12), (Z.shiftl_mul_pow2 _ 6) by lia.
  rewrite (lor_high_low (bz p0 mod 16) (bz b1 mod 64 * 2 ^ 6) 12) by lia.
  replace (bz p0 mod 16 * 2 ^ 12 + bz b1 mod 64 * 2 ^ 6)
    with ((bz p0 mod 16 * 64 + bz b1 mod 64) * 2 ^ 6) by lia.
  rewrite (lor_high_low _ (bz b2 mod 64) 6) by lia. lia.
Qed.

Lemma shift_rune4 p0 b1 b2 b3 :
  Z.lor (Z.lor (Z.lor (Z.shiftl (Z.land (bz p0) utf8.mask4) 18)
                      (Z.shiftl (Z.land (bz b1) utf8.maskx) 12))
               (Z.shiftl (Z.land (bz b2) utf8.maskx) 6))
        (Z.land (bz b3) utf8.maskx)
  = rune4 p0 b1 b2 b3.
Proof.
  rewrite land_mask4, !land_maskx. unfold rune4.
  pose proof (Z.mod_pos_bound (bz b1) 64). pose proof (Z.mod_pos_bound (bz b2) 64).
  pose proof (Z.mod_pos_bound (bz b3) 64).
  rewrite (Z.shiftl_mul_pow2 _ 18), (Z.shiftl_mul_pow2 _ 12),
    (Z.shiftl_mul_pow2 _ 6) by lia.
  rewrite (lor_high_low (bz p0 mod 8) (bz b1 mod 64 * 2 ^ 12) 18) by lia.
  replace (bz p0 mod 8 * 2 ^ 18 + bz b1 mod 64 * 2 ^ 12)
    with ((bz p0 mod 8 * 64 + bz b1 mod 64) * 2 ^ 12) by lia.
  rewrite (lor_high_low _ (bz b2 mod 64 * 2 ^ 6) 12) by lia.
  replace ((bz p0 mod 8 * 64 + bz b1 mod 64) * 2 ^ 12 + bz b2 mod 64 * 2 ^ 6)
    with (((bz p0 mod 8 * 64 + bz b1 mod 64) * 64 + bz b2 mod 64) * 2 ^ 6) by lia.
  rewrite (lor_high_low _ (bz b3 mod 64) 6) by lia. lia.
Qed.

Ltac zbool_lia :=
  repeat (match goal with
          | |- context [Z.ltb ?a ?b] => destruct (Z.ltb_spec a b)
          | |- context [Z.leb ?a ?b] => destruct (Z.leb_spec a b)
          | |- context [Z.eqb ?a ?b] => destruct (Z.eqb_spec a b)
          end; try lia).

Ltac row_consts :=
  repeat match goal with
  | |- context [Z.land ?x 7] =>
    let v := eval vm_compute in (Z.land x 7) in change (Z.land x 7) with v
  | |- context [utf8.acceptRanges ?i] =>
    let v := eval vm_compute in (utf8.acceptRanges i) in
    change (utf8.acceptRanges i) with v
  | |- context [utf8.as_ <=? ?x] =>
    let v := eval vm_compute in (utf8.as_ <=? x) in
    change (utf8.as_ <=? x) with v
  | |- context [?x =? utf8.xx] =>
    let v := eval vm_compute in (x =? utf8.xx) in
    change (x =? utf8.xx) with v
  end.

Lemma DecodeRune_decoded s :
  s <> [] -> decoded s (utf8.DecodeRune s).1 (utf8.DecodeRune s).2.
Proof.
  destruct s as [|p0 s]; [congruence|]. intros _.
  unfold utf8.DecodeRune.
  change (at_ (p0 :: s) 0) with p0.
  pose proof (bz_range p0) as Hp0.
  destruct (first_row p0) as [H|H|H|H|H|H|H|H|H]; row_consts; cbv iota beta.
  1: { simpl length. zbool_lia. apply dec_ascii. lia. }
  1: { simpl length. zbool_lia. apply dec_invalid. lia. }
  all: destruct s as [|b1 [|b2 [|b3 s]]]; unfold at_; simpl lookup;
    simpl default; simpl length; unfold utf8.lo, utf8.hi, utf8.locb, utf8.hicb;
    zbool_lia; simpl orb; cbv iota; simpl fst; simpl snd;
    try (apply dec_invalid; lia);
    rewrite ?shift_rune2, ?shift_rune3, ?shift_rune4;
    first [ apply dec_two | apply dec_three | apply dec_four ];
    unfold contByte; lia.
Qed.

Lemma decoded_width s c w : decoded s c w -> 1 <= w <= len s.
Proof.
  intros H. pose proof (len_nonneg s).
  destruct H; unfold len in *; simpl length in *; lia.
Qed.

Lemma decoded_nonneg s c w : decoded s c w -> 0 <= c.
Proof.
  destruct 1 as [p0 s ? | | p0 b1 s | p0 b1 b2 s | p0 b1 b2 b3 s];
    unfold utf8.RuneError, rune2, rune3, rune4;
    try pose proof (bz_range p0); try lia;
    repeat match goal with
           | |- context [?a mod ?b] =>
             lazymatch goal with
             | _ : 0 <= a mod b < b |- _ => fail
             | _ => pose proof (Z.mod_pos_bound a b ltac:(lia))
             end
           end; lia.
Qed.

(** *** What [AppendRune] writes *)

Ltac zarith := Z.div_mod_to_equations; lia.

Ltac bytes_eq :=
  repeat match goal with
         | |- _ :: _ = _ :: _ => f_equal
         | |- zb _ = zb _ => f_equal; zarith
         end.

Ltac utf8_consts :=
  unfold utf8.rune1Max, utf8.rune2Max, utf8.rune3Max, utf8.MaxRune,
    utf8.surrogateMin, utf8.surrogateMax, utf8.RuneSelf in *.

Lemma AppendRune_1 r : 0 <= r <= 0x7F -> utf8.AppendRune r = [zb r].
Proof.
  intros H. unfold utf8.AppendRune. utf8_consts.
  cbv zeta. rewrite Z.mod_small by lia. zbool_lia. reflexivity.
Qed.

Lemma AppendRune_2 r :
  0x80 <= r <= 0x7FF ->
  utf8.AppendRune r = [zb (0xC0 + r / 64); zb (0x80 + r mod 64)].
Proof.
  intros H. unfold utf8.AppendRune. utf8_consts.
  cbv zeta. rewrite Z.mod_small by lia. zbool_lia.
  all: rewrite !bz_zb, land_maskx, Z.shiftr_div_pow2 by lia;
    change (2 ^ 6) with 64;
    rewrite lor_t2, lor_tx by zarith;
    bytes_eq.
Qed.

Lemma AppendRune_3 r :
  0x800 <= r <= 0xFFFF -> ~ (0xD800 <= r <= 0xDFFF) ->
  utf8.AppendRune r
  = [zb (0xE0 + r / 4096); zb (0x80 + (r / 64) mod 64); zb (0x80 + r mod 64)].
Proof.
  intros H Hs. unfold utf8.AppendRune. utf8_consts.
  cbv zeta. rewrite Z.mod_small by lia. zbool_lia.
  all: cbn [orb andb]; unfold utf8.encode3;
    rewrite !bz_zb, !land_maskx, !Z.shiftr_div_pow2 by lia;
    change (2 ^ 6) with 64; change (2 ^ 12) with 4096;
    rewrite lor_t3, !lor_tx by zarith;
    bytes_eq.
Qed.

Lemma AppendRune_4 r :
  0x10000 <= r <= 0x10FFFF ->
  utf8.AppendRune r
  = [zb (0xF0 + r / 262144); zb (0x80 + (r / 4096) mod 64);
     zb (0x80 + (r / 64) mod 64); zb (0x80 + r mod 64)].
Proof.
  intros H. unfold utf8.AppendRune. utf8_consts.
  cbv zeta. rewrite Z.mod_small by lia. zbool_lia.
  all: cbn [orb andb];
    rewrite !bz_zb, !land_maskx, !Z.shiftr_div_pow2 by lia;
    change (2 ^ 6) with 64; change (2 ^ 12) with 4096;
    change (2 ^ 18) with 262144;
    rewrite lor_t4, !lor_tx by zarith;
    bytes_eq.
Qed.

Lemma AppendRune_RuneError :
  utf8.AppendRune utf8.RuneError = [xef; xbf; xbd].
Proof. reflexivity. Qed.

(** A rune that is not the error of an invalid byte is written back as
    the bytes it was decoded from. *)
Lemma zb_eq x p : x = bz p -> zb x = p.
Proof. intros ->. apply zb_bz. Qed.

Ltac bytes_back :=
  repeat match goal with
         | |- _ :: _ = _ :: _ => f_equal
         | |- zb _ = _ => apply zb_eq; zarith
         end.

Lemma decoded_round_trip s c w :
  decoded s c w ->
  c <> utf8.RuneError \/ w <> 1 ->
  utf8.AppendRune c = take (Z.to_nat w) s /\ utf8.RuneLen c = w.
Proof.
  intros Hd Hv.
  destruct Hd as [p0 s H0 | p0 s H0 | p0 b1 s H0 H1
                 | p0 b1 b2 s H0 H1 H2 Ha Hb
                 | p0 b1 b2 b3 s H0 H1 H2 H3 Ha Hb];
    unfold contByte in *.
  - pose proof (bz_range p0). rewrite AppendRune_1 by lia.
    rewrite zb_bz. split; [reflexivity|].
    unfold utf8.RuneLen; utf8_consts; cbn [andb]; zbool_lia; try reflexivity.
  - destruct Hv; congruence.
  - assert (Hr : 0x80 <= rune2 p0 b1 <= 0x7FF) by (unfold rune2; zarith).
    rewrite AppendRune_2 by assumption. split.
    + change (take (Z.to_nat 2) (p0 :: b1 :: s)) with [p0; b1].
      unfold rune2 in *. bytes_back.
    + unfold utf8.RuneLen; utf8_consts; cbn [andb]; zbool_lia; try reflexivity.
  - assert (Hr : 0x800 <= rune3 p0 b1 b2 <= 0xFFFF) by (unfold rune3; zarith).
    assert (Hs : ~ (0xD800 <= rune3 p0 b1 b2 <= 0xDFFF)) by (unfold rune3; zarith).
    rewrite AppendRune_3 by assumption. split.
    + change (take (Z.to_nat 3) (p0 :: b1 :: b2 :: s)) with [p0; b1; b2].
      unfold rune3 in *. bytes_back.
    + unfold utf8.RuneLen; utf8_consts; cbn [andb]; zbool_lia; try reflexivity.
  - assert (Hr : 0x10000 <= rune4 p0 b1 b2 b3 <= 0x10FFFF) by (unfold rune4; zarith).
    rewrite AppendRune_4 by assumption. split.
    + change (take (Z.to_nat 4) (p0 :: b1 :: b2 :: b3 :: s)) with [p0; b1; b2; b3].
      unfold rune4 in *. bytes_back.
    + unfold utf8.RuneLen; utf8_consts; cbn [andb]; zbool_lia; try reflexivity.
Qed.

(** *** [Map] writes every rune through the mapping *)

Lemma writeRune_first r :
  (if 0 <=? r then utf8.AppendRune r else []) = writeRune r.
Proof.
  unfold writeRune. utf8_consts. zbool_lia; try reflexivity.
  apply AppendRune_1. lia.
Qed.

Lemma writeRune_decoded s c w :
  decoded s c w ->
  c <> utf8.RuneError \/ w <> 1 ->
  writeRune c = take (Z.to_nat w) s.
Proof.
  intros Hd Hv. pose proof (decoded_nonneg _ _ _ Hd).
  rewrite <- writeRune_first. replace (0 <=? c) with true by lia.
  apply (decoded_round_trip s c w Hd Hv).
Qed.

Lemma Map_rest_nil mapping fuel : strings.Map_rest mapping fuel [] = [].
Proof. destruct fuel; reflexivity. Qed.

Lemma Map_rest_step mapping fuel s :
  s <> [] ->
  strings.Map_rest mapping (S fuel) s
  = writeRune (mapping (utf8.DecodeRune s).1)
    ++ strings.Map_rest mapping fuel (drop (Z.to_nat (utf8.DecodeRune s).2) s).
Proof.
  intros Hs. destruct s as [|p0 s]; [congruence|].
  cbn [strings.Map_rest]. simpl length. cbn [Nat.leb].
  destruct (utf8.DecodeRune (p0 :: s)) as [c w]. reflexivity.
Qed.

Lemma drop_decoded_length s c w :
  decoded s c w -> (length (drop (Z.to_nat w) s) < length s)%nat.
Proof.
  intros Hd. pose proof (decoded_width _ _ _ Hd). unfold len in *.
  rewrite length_drop. lia.
Qed.

Lemma Map_rest_fuel mapping fuel : forall fuel' s,
  (length s <= fuel)%nat -> (length s <= fuel')%nat ->
  strings.Map_rest mapping fuel s = strings.Map_rest mapping fuel' s.
Proof.
  induction fuel as [|fuel IH]; intros fuel' s H1 H2.
  - destruct s; [|simpl in H1; lia]. rewrite !Map_rest_nil. reflexivity.
  - destruct (decide (s = [])) as [->|Hs]; [rewrite !Map_rest_nil; reflexivity|].
    destruct fuel' as [|fuel']; [destruct s; [congruence | simpl in H2; lia]|].
    rewrite !Map_rest_step by assumption. f_equal.
    pose proof (drop_decoded_length _ _ _ (DecodeRune_decoded s Hs)).
    apply IH; lia.
Qed.

Lemma Map_first_spec mapping fuel : forall s i,
  (length s - i <= fuel)%nat -> (i <= length s)%nat ->
  match strings.Map_first mapping fuel s i with
  | None => strings.Map_rest mapping (length s) (drop i s) = drop i s
  | Some (b, s') =>
    b ++ strings.Map_rest mapping (length s') s'
    = take i s ++ strings.Map_rest mapping (length s) (drop i s)
  end.
Proof.
  induction fuel as [|fuel IH]; intros s i Hf Hi.
  - simpl. rewrite drop_ge by lia. apply Map_rest_nil.
  - cbn [strings.Map_first].
    destruct (Nat.leb_spec (length s) i) as [Hge | Hlt].
    { rewrite drop_ge by lia. apply Map_rest_nil. }
    assert (Hne : drop i s <> []).
    { intros E. apply (f_equal length) in E. rewrite length_drop in E.
      simpl in E. lia. }
    pose proof (DecodeRune_decoded _ Hne) as Hd.
    pose proof (decoded_width _ _ _ Hd) as Hw.
    pose proof (drop_decoded_length _ _ _ Hd) as Hlen.
    destruct (length s) as [|n] eqn:En; [lia|].
    rewrite (Map_rest_step mapping n (drop i s) Hne).
    destruct (utf8.DecodeRune (drop i s)) as [c w] eqn:E. simpl fst in *.
    simpl snd in *. unfold len in Hw. rewrite length_drop in Hw, Hlen.
    rewrite drop_drop in *.
    assert (Hkeep :
      writeRune (mapping c) = take (Z.to_nat w) (drop i s) ->
      match strings.Map_first mapping fuel s (i + Z.to_nat w) with
      | Some (b, s') =>
        b ++ strings.Map_rest mapping (length s') s'
        = take i s ++ writeRune (mapping c)
          ++ strings.Map_rest mapping n (drop (i + Z.to_nat w) s)
      | None =>
        writeRune (mapping c)
        ++ strings.Map_rest mapping n (drop (i + Z.to_nat w) s) = drop i s
      end).
    { intros Hwr. specialize (IH s (i + Z.to_nat w)%nat).
      rewrite En in IH.
      rewrite (Map_rest_fuel mapping n (S n)); [|rewrite length_drop; lia..].
      destruct (strings.Map_first mapping fuel s (i + Z.to_nat w))
        as [[b s']|].
      - rewrite IH by lia. rewrite Hwr, app_assoc, take_take_drop. reflexivity.
      - rewrite IH by lia. rewrite Hwr, <- drop_drop. apply take_drop. }
    destruct ((mapping c =? c) && negb (c =? utf8.RuneError)) eqn:EA.
    { apply Hkeep. apply andb_true_iff in EA as [E1 E2].
      apply Z.eqb_eq in E1. apply negb_true_iff, Z.eqb_neq in E2.
      rewrite E1. apply (writeRune_decoded _ _ _ Hd). left; assumption. }
    destruct (c =? utf8.RuneError) eqn:EC.
    + apply Z.eqb_eq in EC.
      destruct (true && negb (w =? 1) && (mapping c =? c)) eqn:EB.
      * apply Hkeep. simpl andb in EB. apply andb_true_iff in EB as [E1 E2].
        apply Z.eqb_eq in E2. apply negb_true_iff, Z.eqb_neq in E1.
        rewrite E2. apply (writeRune_decoded _ _ _ Hd). right; assumption.
      * rewrite writeRune_first, <- app_assoc.
        rewrite (Map_rest_fuel mapping _ n); [reflexivity | lia |].
        rewrite length_drop. lia.
    + apply Z.eqb_neq in EC. cbn [andb].
      destruct (decoded_round_trip _ _ _ Hd (or_introl EC)) as [_ ->].
      rewrite writeRune_first, <- app_assoc.
      rewrite (Map_rest_fuel mapping _ n); [reflexivity | lia |].
      rewrite length_drop. lia.
Qed.

(** [Map] is the second loop run from the start of the string. *)
Lemma Map_eq_rest mapping s :
  strings.Map mapping s = strings.Map_rest mapping (length s) s.
Proof.
  unfold strings.Map.
  pose proof (Map_first_spec mapping (length s) s 0) as H.
  destruct (strings.Map_first mapping (length s) s 0) as [[b s']|].
  - rewrite H by lia. rewrite take_0, drop_0. reflexivity.
  - rewrite drop_0 in H. symmetry. apply H; lia.
Qed.

(** *** Paths that differ in the case of ASCII letters *)

Lemma bz_letters :
  bz "A" = 65 /\ bz "Z" = 90 /\ bz "a" = 97 /\ bz "z" = 122 /\ bz "0" = 48
  /\ bz "9" = 57.
Proof. repeat split; reflexivity. Qed.

Ltac letters :=
  destruct bz_letters as (HA & HZ & Ha & Hz & H0 & H9);
  unfold upperLetter in *; rewrite ?HA, ?HZ, ?Ha, ?Hz, ?H0, ?H9 in *.

Lemma sameLetter_ascii a b :
  sameLetter a b -> a = b \/ (bz a < 0x80 /\ bz b < 0x80).
Proof. intros [-> | [[H1 H2] | [H1 H2]]]; [auto | right..]; letters; lia. Qed.

Lemma sameLetter_lowerByte a b :
  sameLetter a b -> strings.lowerByte a = strings.lowerByte b.
Proof.
  intros [-> | [[H1 H2] | [H1 H2]]]; [reflexivity | |];
    unfold strings.lowerByte; letters; zbool_lia; cbn [andb].
  - apply zb_eq. lia.
  - symmetry. apply zb_eq. lia.
Qed.

Lemma lowerByte_value c :
  bz (strings.lowerByte c)
  = if (65 <=? bz c) && (bz c <=? 90) then bz c + 32 else bz c.
Proof.
  unfold strings.lowerByte. letters. pose proof (bz_range c).
  zbool_lia; cbn [andb]; try reflexivity.
  rewrite bz_zb. apply Z.mod_small. lia.
Qed.

Lemma unicode_ToLower_ascii To c :
  bz c < 0x80 -> unicode.ToLower To (bz c) = bz (strings.lowerByte c).
Proof.
  intros H. rewrite lowerByte_value. unfold unicode.ToLower, unicode.MaxASCII.
  letters. zbool_lia; reflexivity.
Qed.

Lemma unicode_ToLower_above To r :
  0x80 <= r -> unicode.ToLower To r = To r.
Proof.
  intros H. unfold unicode.ToLower, unicode.MaxASCII. zbool_lia; try reflexivity.
Qed.

Lemma writeRune_ascii c : bz c < 0x80 -> writeRune (bz c) = [c].
Proof.
  intros H. unfold writeRune. utf8_consts. pose proof (bz_range c).
  zbool_lia. rewrite zb_bz. reflexivity.
Qed.

Lemma lowerByte_ascii c : bz c < 0x80 -> bz (strings.lowerByte c) < 0x80.
Proof. intros H. rewrite lowerByte_value. zbool_lia; cbn [andb]; lia. Qed.

Lemma DecodeRune_ascii c s :
  bz c < 0x80 -> utf8.DecodeRune (c :: s) = (bz c, 1).
Proof.
  intros H. unfold utf8.DecodeRune. change (at_ (c :: s) 0) with c.
  simpl length. destruct (first_row c); try lia. row_consts.
  zbool_lia. reflexivity.
Qed.

Lemma DecodeRune_tail a t t' :
  0x80 <= bz a -> Forall2 sameLetter t t' ->
  utf8.DecodeRune (a :: t) = utf8.DecodeRune (a :: t').
Proof.
  intros Ha HF. unfold utf8.DecodeRune.
  change (at_ (a :: t) 0) with a. change (at_ (a :: t') 0) with a.
  destruct (first_row a) as [H|H|H|H|H|H|H|H|H]; row_consts; cbv iota beta;
    [lia | simpl length; zbool_lia; reflexivity | ..].
  all: destruct HF as [|b1 b1' t1 t1' H1 HF]; [reflexivity|];
    apply sameLetter_ascii in H1;
    (destruct HF as [|b2 b2' t2 t2' H2 HF];
     [|apply sameLetter_ascii in H2;
       (destruct HF as [|b3 b3' t3 t3' H3 HF];
        [|apply sameLetter_ascii in H3;
          pose proof (Forall2_length _ _ _ HF) as Hlen])]);
    unfold at_; simpl lookup; simpl default; simpl length;
    rewrite ?Hlen;
    unfold utf8.lo, utf8.hi, utf8.locb, utf8.hicb;
    repeat match goal with
           | H : _ = _ \/ _ |- _ => destruct H as [-> | [? ?]]
           end;
    zbool_lia; reflexivity.
Qed.

Lemma DecodeRune_case To s s' :
  casePermutation s s' -> s <> [] ->
  (utf8.DecodeRune s).2 = (utf8.DecodeRune s').2
  /\ unicode.ToLower To (utf8.DecodeRune s).1
     = unicode.ToLower To (utf8.DecodeRune s').1.
Proof.
  intros HF Hs. destruct HF as [|a b t t' Hab HF]; [congruence|].
  pose proof (sameLetter_lowerByte _ _ Hab) as Hl.
  apply sameLetter_ascii in Hab as [-> | [Ha Hb]].
  - destruct (Z.lt_ge_cases (bz b) 0x80) as [Hb | Hb].
    + rewrite !DecodeRune_ascii by assumption. auto.
    + rewrite (DecodeRune_tail b t t') by (assumption || lia). auto.
  - rewrite !DecodeRune_ascii by assumption. simpl.
    rewrite !unicode_ToLower_ascii by assumption. rewrite Hl. auto.
Qed.

Lemma Map_rest_case To fuel : forall s s',
  casePermutation s s' ->
  strings.Map_rest (unicode.ToLower To) fuel s
  = strings.Map_rest (unicode.ToLower To) fuel s'.
Proof.
  induction fuel as [|fuel IH]; intros s s' HF; [reflexivity|].
  destruct (decide (s = [])) as [->|Hs].
  { apply Forall2_nil_inv_l in HF as ->. reflexivity. }
  assert (Hs' : s' <> []).
  { intros ->. apply Forall2_nil_inv_r in HF. congruence. }
  rewrite !Map_rest_step by assumption.
  destruct (DecodeRune_case To s s' HF Hs) as [-> ->]. f_equal.
  apply IH. apply Forall2_drop. assumption.
Qed.

Lemma isASCII_case s s' :
  casePermutation s s' -> strings.isASCII s = strings.isASCII s'.
Proof.
  unfold strings.isASCII. induction 1 as [|a b t t' Hab _ IH]; [reflexivity|].
  simpl. rewrite IH. f_equal.
  apply sameLetter_ascii in Hab as [-> | [Ha Hb]]; [reflexivity|].
  utf8_consts. zbool_lia; reflexivity.
Qed.

(** Normalisation does not see the case of ASCII letters, whatever other
    bytes the path holds. *)
Lemma ToLower_case s s' : casePermutation s s' -> ToLower s = ToLower s'.
Proof.
  intros HF. unfold ToLower, strings.ToLower.
  rewrite <- (isASCII_case s s' HF).
  destruct (strings.isASCII s).
  - induction HF as [|a b t t' Hab _ IH]; [reflexivity|].
    simpl. rewrite IH, (sameLetter_lowerByte a b Hab). reflexivity.
  - rewrite !Map_eq_rest. rewrite <- (Forall2_length _ _ _ HF).
    apply Map_rest_case. assumption.
Qed.

(** The handlers see the path only through checks that ignore the case of
    ASCII letters. *)
Lemma pathChar_case a b : sameLetter a b -> pathChar a = pathChar b.
Proof.
  intros [-> | [[H1 H2] | [H1 H2]]]; [reflexivity | |];
    unfold pathChar; letters; cbv zeta; zbool_lia; reflexivity.
Qed.

Lemma validPath_case p p' :
  casePermutation p p' -> validPath_MatchString p = validPath_MatchString p'.
Proof.
  intros HF. unfold validPath_MatchString.
  rewrite (Forall2_length _ _ _ HF). f_equal.
  induction HF as [|a b t t' Hab _ IH]; [reflexivity|].
  simpl. rewrite IH, (pathChar_case a b Hab). reflexivity.
Qed.

Lemma HasPrefix_slash_case p p' :
  casePermutation p p' ->
  strings.HasPrefix p (lit "/") = strings.HasPrefix p' (lit "/").
Proof.
  intros HF. unfold strings.HasPrefix. rewrite (Forall2_length _ _ _ HF).
  f_equal. destruct HF as [|a b t t' Hab _]; [reflexivity|].
  change (lit "/") with ["/"%byte]. simpl. rewrite !take_0.
  apply bool_decide_ext.
  assert (a = "/"%byte <-> b = "/"%byte) as Hiff.
  { pose proof (eq_refl : bz "/" = 47) as Hs.
    destruct Hab as [-> | [[H1 H2] | [H1 H2]]]; [reflexivity | |];
      letters; split; intros ->; lia. }
  split; intros [= E]; f_equal; apply Hiff; assumption.
Qed.

Lemma handleCommand_case verb p p' extra fs rd :
  casePermutation p p' ->
  handleCommand (verb :: p :: extra) fs rd
  = handleCommand (verb :: p' :: extra) fs rd.
Proof.
  intros HF. unfold handleCommand, handlePUT, handleGET, handleLIST, targetDirOf.
  simpl length.
  change ((verb :: p :: extra) !!! 0%nat) with verb.
  change ((verb :: p' :: extra) !!! 0%nat) with verb.
  change ((verb :: p :: extra) !!! 1%nat) with p.
  change ((verb :: p' :: extra) !!! 1%nat) with p'.
  change ((verb :: p :: extra) !!! 2%nat) with ((verb :: p' :: extra) !!! 2%nat).
  rewrite (ToLower_case p p' HF), (validPath_case p p' HF),
    (HasPrefix_slash_case p p' HF).
  reflexivity.
Qed.

Lemma lowerByte_changes c : strings.lowerByte c <> c -> upperLetter c.
Proof.
  unfold strings.lowerByte, upperLetter.
  destruct (Z.leb_spec (bz "A") (bz c));
    destruct (Z.leb_spec (bz c) (bz "Z")); cbn [andb]; intros Hne;
    try congruence.
  lia.
Qed.

(** C8, as the code has it. The normalisation is [strings.ToLower]: on a
    path of ASCII bytes (every path that PUT accepts is one) it lower-cases
    byte for byte, and only the bytes [A]..[Z] change; and for every path
    [p], of any bytes, and every case-permutation [p'] of [p], the
    normalised keys are equal and PUT, GET and LIST treat [p] and [p']
    identically. *)
Theorem C8_case_permutations_are_identified p p' :
  casePermutation p p' ->
  (strings.isASCII p = true ->
     ToLower p = map strings.lowerByte p
     /\ forall c, c ∈ p -> strings.lowerByte c <> c -> upperLetter c)
  /\ (wellFormedPath p -> strings.isASCII p = true)
  /\ ToLower p = ToLower p'
  /\ forall verb extra fs rd,
       handleCommand (verb :: p :: extra) fs rd
       = handleCommand (verb :: p' :: extra) fs rd.
Proof.
  intros HF. split; [|split; [|split]].
  - intros Ha. split; [apply ToLower_ascii_map; assumption|].
    intros c _. apply lowerByte_changes.
  - apply wellFormed_isASCII.
  - apply ToLower_case. assumption.
  - intros. apply handleCommand_case. assumption.
Qed.

(** ** GET: the revision token *)

(** *** Decimal numerals *)

Lemma digitVal_spec c d :
  strconv.digitVal c = Some d <-> 0 <= d <= 9 /\ c = zb (bz "0" + d).
Proof.
  unfold strconv.digitVal. letters. cbv zeta. split.
  - destruct ((0 <=? bz c - 48) && (bz c - 48 <=? 9)) eqn:E; [|discriminate].
    intros [= <-]. apply andb_true_iff in E as [E1 E2].
    split; [lia|]. symmetry. apply zb_eq. lia.
  - intros [Hd ->]. rewrite bz_zb, Z.mod_small by lia.
    replace (48 + d - 48) with d by lia.
    destruct (Z.leb_spec 0 d); destruct (Z.leb_spec d 9); try lia. reflexivity.
Qed.

Lemma digitsValue_app a l1 l2 :
  strconv.digitsValue a (l1 ++ l2)
  = match strconv.digitsValue a l1 with
    | Some v => strconv.digitsValue v l2
    | None => None
    end.
Proof.
  revert a. induction l1 as [|c l1 IH]; intros a; simpl; [reflexivity|].
  destruct (strconv.digitVal c); [apply IH | reflexivity].
Qed.

Lemma decimal_digitsValue ds n :
  decimal ds n -> strconv.digitsValue 0 ds = Some n.
Proof.
  induction 1 as [d Hd | ds n d _ IH Hd].
  - simpl. rewrite (proj2 (digitVal_spec _ d)) by auto. reflexivity.
  - rewrite digitsValue_app, IH. simpl.
    rewrite (proj2 (digitVal_spec _ d)) by auto. f_equal. lia.
Qed.

Lemma digitsValue_decimal ds n :
  ds <> [] -> strconv.digitsValue 0 ds = Some n -> decimal ds n.
Proof.
  revert n. induction ds as [|c ds IH] using rev_ind; intros n Hne; [congruence|].
  rewrite digitsValue_app.
  destruct (strconv.digitsValue 0 ds) as [m|] eqn:E; [|discriminate].
  simpl. destruct (strconv.digitVal c) as [d|] eqn:Ec; [|discriminate].
  intros [= <-]. apply digitVal_spec in Ec as [Hd ->].
  destruct ds as [|c0 ds'].
  - simpl in E. injection E as <-. simpl. apply decimal_digit. assumption.
  - replace (m * 10 + d) with (10 * m + d) by lia.
    apply decimal_snoc; [|assumption]. apply IH; [discriminate | reflexivity].
Qed.

Lemma decimal_nonneg ds n : decimal ds n -> 0 <= n.
Proof. induction 1; lia. Qed.

Lemma decimal_head ds n :
  decimal ds n -> exists c rest, ds = c :: rest /\ bz "0" <= bz c <= bz "9".
Proof.
  induction 1 as [d Hd | ds n d _ (c & rest & -> & Hc) Hd].
  - eexists _, []. split; [reflexivity|]. rewrite bz_zb. letters.
    rewrite Z.mod_small; lia.
  - exists c, (rest ++ [zb (bz "0" + d)]). split; [reflexivity | assumption].
Qed.

(** [Atoi] accepts the decimal numerals, with an optional sign, whose
    value fits in 64 bits. *)
Lemma Atoi_spec s n :
  strconv.Atoi s = Some n
  <-> (decimal s n /\ n < 2 ^ 63)
      \/ (exists ds, s = "+"%byte :: ds /\ decimal ds n /\ n < 2 ^ 63)
      \/ (exists ds m, s = "-"%byte :: ds /\ decimal ds m /\ m <= 2 ^ 63
                       /\ n = - m).
Proof.
  pose proof (eq_refl : bz "+" = 43) as Hplus.
  pose proof (eq_refl : bz "-" = 45) as Hminus.
  split.
  - unfold strconv.Atoi. destruct s as [|c s']; [discriminate|].
    destruct (decide (c = "-"%byte)) as [-> | Hm].
    + rewrite bool_decide_eq_true_2 by reflexivity. cbn [orb].
      destruct s' as [|c0 s'']; [discriminate|].
      destruct (strconv.digitsValue 0 (c0 :: s'')) as [un|] eqn:E; [|discriminate].
      apply digitsValue_decimal in E; [|discriminate].
      destruct (Z.ltb_spec (2 ^ 63) un); [discriminate|]. intros [= <-].
      right; right. eauto 6.
    + rewrite bool_decide_eq_false_2 by assumption. cbn [orb].
      destruct (decide (c = "+"%byte)) as [-> | Hp].
      * rewrite bool_decide_eq_true_2 by reflexivity.
        destruct s' as [|c0 s'']; [discriminate|].
        destruct (strconv.digitsValue 0 (c0 :: s'')) as [un|] eqn:E; [|discriminate].
        apply digitsValue_decimal in E; [|discriminate].
        destruct (Z.leb_spec (2 ^ 63) un); [discriminate|]. intros [= <-].
        right; left. eauto.
      * rewrite bool_decide_eq_false_2 by assumption.
        destruct (strconv.digitsValue 0 (c :: s')) as [un|] eqn:E; [|discriminate].
        apply digitsValue_decimal in E; [|discriminate].
        destruct (Z.leb_spec (2 ^ 63) un); [discriminate|]. intros [= <-].
        left. auto.
  - intros [[Hd Hn] | [(ds & -> & Hd & Hn) | (ds & m & -> & Hd & Hm & ->)]].
    + destruct (decimal_head _ _ Hd) as (c & rest & -> & Hc).
      unfold strconv.Atoi.
      rewrite !bool_decide_eq_false_2 by (intros ->; letters; lia). cbn [orb].
      rewrite (decimal_digitsValue _ _ Hd).
      destruct (Z.leb_spec (2 ^ 63) n); [lia | reflexivity].
    + destruct (decimal_head _ _ Hd) as (c & rest & -> & Hc).
      unfold strconv.Atoi.
      rewrite bool_decide_eq_false_2 by discriminate.
      rewrite bool_decide_eq_true_2 by reflexivity. cbn [orb].
      rewrite (decimal_digitsValue _ _ Hd).
      destruct (Z.leb_spec (2 ^ 63) n); [lia | reflexivity].
    + destruct (decimal_head _ _ Hd) as (c & rest & -> & Hc).
      unfold strconv.Atoi.
      rewrite bool_decide_eq_true_2 by reflexivity. cbn [orb].
      rewrite (decimal_digitsValue _ _ Hd).
      destruct (Z.ltb_spec (2 ^ 63) m); [lia | reflexivity].
Qed.

(** [Itoa] writes the decimal numeral of a number that is not negative,
    and [Atoi] reads it back: every payload has a header that PUT accepts. *)
Lemma formatBits_decimal fuel : forall n acc,
  0 <= n -> (Z.to_nat n <= fuel)%nat ->
  exists ds, strconv.formatBits fuel n acc = ds ++ acc /\ decimal ds n.
Proof.
  induction fuel as [|fuel IH]; intros n acc Hn Hf.
  - assert (n = 0) as -> by lia. exists [zb (bz "0" + 0)].
    split; [reflexivity|]. apply decimal_digit. lia.
  - cbn [strconv.formatBits]. destruct (Z.ltb_spec n 10) as [Hlt | Hge].
    + exists [zb (bz "0" + n)]. rewrite Z.mod_small by lia.
      split; [reflexivity|]. apply decimal_digit. lia.
    + destruct (IH (n / 10) (zb (bz "0" + n mod 10) :: acc)) as (ds & Hds & Hd).
      * zarith.
      * zarith.
      * exists (ds ++ [zb (bz "0" + n mod 10)]). rewrite Hds, <- app_assoc.
        split; [reflexivity|].
        replace n with (10 * (n / 10) + n mod 10) at 2 by zarith.
        apply decimal_snoc; [assumption | zarith].
Qed.

Lemma Atoi_Itoa n : 0 <= n < 2 ^ 63 -> strconv.Atoi (strconv.Itoa n) = Some n.
Proof.
  intros Hn. unfold strconv.Itoa. replace (n <? 0) with false by lia.
  destruct (formatBits_decimal (Z.to_nat n) n [] ltac:(lia) ltac:(lia))
    as (ds & -> & Hd).
  rewrite app_nil_r. apply Atoi_spec. left. split; [assumption | lia].
Qed.

Lemma Atoi_high_byte b ds : 0x80 <= bz b -> strconv.Atoi (b :: ds) = None.
Proof.
  intros Hb. unfold strconv.Atoi.
  pose proof (eq_refl : bz "+" = 43) as Hplus.
  pose proof (eq_refl : bz "-" = 45) as Hminus.
  rewrite !bool_decide_eq_false_2 by (intros ->; lia).
  cbn [orb]. simpl. unfold strconv.digitVal. letters. cbv zeta.
  destruct (Z.leb_spec (bz b - 48) 9); [lia|]. rewrite andb_false_r. reflexivity.
Qed.

(** *** The first byte of a lower-cased token *)

Lemma lowerByte_r c :
  strings.lowerByte c = "r"%byte <-> c = "r"%byte \/ c = "R"%byte.
Proof.
  split.
  - destruct c; vm_compute; intros H; try discriminate H; auto.
  - intros [-> | ->]; reflexivity.
Qed.

Lemma ToLower_head_ascii c ds :
  bz c < 0x80 -> exists rest, ToLower (c :: ds) = strings.lowerByte c :: rest.
Proof.
  intros Hc. unfold ToLower, strings.ToLower.
  destruct (strings.isASCII (c :: ds)).
  - simpl. eauto.
  - rewrite Map_eq_rest. simpl length. rewrite Map_rest_step by discriminate.
    rewrite DecodeRune_ascii by assumption. simpl fst. simpl snd.
    rewrite unicode_ToLower_ascii by assumption.
    rewrite writeRune_ascii by (apply lowerByte_ascii; assumption).
    simpl. eauto.
Qed.

Lemma ToLower_r_prefix t :
  To_LowerCase utf8.RuneError = utf8.RuneError ->
  strings.HasPrefix (ToLower t) (lit "r") = true ->
  (exists c ds, t = c :: ds /\ (c = "r"%byte \/ c = "R"%byte))
  \/ (exists c b1 ds, t = c :: b1 :: ds /\ 0x80 <= bz b1).
Proof.
  intros Hrune Hpre. apply HasPrefix_spec in Hpre as [rel Hrel].
  change (lit "r" ++ rel) with ("r"%byte :: rel) in Hrel.
  destruct t as [|c ds]; [discriminate|].
  destruct (Z.lt_ge_cases (bz c) 0x80) as [Hc | Hc].
  - destruct (ToLower_head_ascii c ds Hc) as [rest Hl].
    rewrite Hl in Hrel. injection Hrel as Hr _.
    left. exists c, ds. split; [reflexivity|]. apply lowerByte_r. assumption.
  - unfold ToLower, strings.ToLower in Hrel.
    assert (strings.isASCII (c :: ds) = false) as Hna.
    { simpl. utf8_consts. replace (bz c <? 128) with false by lia. reflexivity. }
    rewrite Hna, Map_eq_rest in Hrel. simpl length in Hrel.
    rewrite Map_rest_step in Hrel by discriminate.
    pose proof (DecodeRune_decoded (c :: ds) ltac:(discriminate)) as Hd.
    destruct (utf8.DecodeRune (c :: ds)) as [c0 w]. simpl fst in *. simpl snd in *.
    inversion Hd; subst; unfold contByte in *.
    + lia.
    + rewrite unicode_ToLower_above in Hrel by (unfold utf8.RuneError; lia).
      rewrite Hrune in Hrel.
      change (writeRune utf8.RuneError) with [xef; xbf; xbd] in Hrel.
      discriminate.
    + right. eexists _, _, _. split; [reflexivity | lia].
    + right. eexists _, _, _. split; [reflexivity | lia].
    + right. eexists _, _, _. split; [reflexivity | lia].
Qed.

Lemma tokenTarget_spec t idx :
  To_LowerCase utf8.RuneError = utf8.RuneError ->
  tokenTarget t = Some idx
  <-> exists c ds m,
        t = c :: ds /\ (c = "r"%byte \/ c = "R"%byte)
        /\ strconv.Atoi ds = Some m /\ idx = wrap64 (m - 1).
Proof.
  intros Hrune. unfold tokenTarget. split.
  - destruct (strings.HasPrefix (ToLower t) (lit "r")) eqn:E;
      simpl negb; cbv iota; [|discriminate].
    destruct (ToLower_r_prefix t Hrune E)
      as [(c & ds & -> & Hc) | (c & b1 & ds & -> & Hb)].
    + change (drop 1 (c :: ds)) with ds.
      destruct (strconv.Atoi ds) as [m|] eqn:Em; [|discriminate].
      intros [= <-]. eauto 8.
    + change (drop 1 (c :: b1 :: ds)) with (b1 :: ds).
      rewrite Atoi_high_byte by assumption. discriminate.
  - intros (c & ds & m & -> & Hc & Hm & ->).
    assert (bz c < 0x80) as Hlt by (destruct Hc as [-> | ->]; vm_compute; reflexivity).
    destruct (ToLower_head_ascii c ds Hlt) as [rest Hl].
    rewrite Hl, (proj2 (lowerByte_r c) Hc).
    rewrite (proj2 (HasPrefix_spec _ _)) by (exists rest; reflexivity).
    change (drop 1 (c :: ds)) with ds. simpl negb. cbv iota.
    rewrite Hm. reflexivity.
Qed.

(** *** The revision a token names *)

Lemma wrap64_small z : - 2 ^ 63 <= z < 2 ^ 63 -> wrap64 z = z.
Proof. intros H. unfold wrap64. rewrite Z.mod_small; lia. Qed.

Lemma revisionToken_target t n :
  To_LowerCase utf8.RuneError = utf8.RuneError ->
  revisionToken t n -> 1 <= n < 2 ^ 63 ->
  tokenTarget t = Some (n - 1).
Proof.
  intros Hrune (c & ds & Hc & Hd & Ht) Hn.
  apply tokenTarget_spec; [assumption|].
  destruct Ht as [-> | ->].
  - exists c, ds, n. repeat split; try assumption.
    + apply Atoi_spec. left. split; [assumption | lia].
    + symmetry. apply wrap64_small. lia.
  - exists c, ("+"%byte :: ds), n. repeat split; try assumption.
    + apply Atoi_spec. right; left. exists ds. repeat split; [assumption | lia].
    + symmetry. apply wrap64_small. lia.
Qed.

Lemma target_revisionToken t idx :
  To_LowerCase utf8.RuneError = utf8.RuneError ->
  tokenTarget t = Some idx -> 0 <= idx < 2 ^ 63 - 1 ->
  revisionToken t (idx + 1).
Proof.
  intros Hrune Ht Hi.
  apply tokenTarget_spec in Ht as (c & ds & m & -> & Hc & Hm & ->);
    [|assumption].
  apply Atoi_spec in Hm
    as [[Hd Hn] | [(ds' & -> & Hd & Hn) | (ds' & m' & -> & Hd & Hm' & ->)]].
  - pose proof (decimal_nonneg _ _ Hd).
    rewrite wrap64_small in * by lia.
    replace (m - 1 + 1) with m by lia. exists c, ds. auto.
  - pose proof (decimal_nonneg _ _ Hd).
    rewrite wrap64_small in * by lia.
    replace (m - 1 + 1) with m by lia. exists c, ds'. auto.
  - pose proof (decimal_nonneg _ _ Hd). exfalso.
    destruct (Z.eq_dec m' (2 ^ 63)) as [-> | Hne].
    + assert (wrap64 (- 2 ^ 63 - 1) = 2 ^ 63 - 1) as E by reflexivity.
      rewrite E in Hi. lia.
    + rewrite wrap64_small in Hi by lia. lia.
Qed.

(** C4, as the code has it. GET of an existing file with a revision token
    [t] returns the bytes of revision [n] iff the first byte of [t] is [r]
    or [R] and the remaining bytes are decimal digits denoting [n], with
    an optional [+] sign before them, and [1 <= n <=] the number of
    revisions. Every other token - [r] alone, a remainder that is not a
    numeral, a remainder with a [-] sign, a number out of range - gets
    [ERR no such revision] and [READY]. Without a token the last revision
    is returned. *)
Theorem C4_revision_token verb p t extra fs rd revs :
  ToUpper verb = lit "GET" ->
  fs !! ToLower p = Some revs ->
  To_LowerCase utf8.RuneError = utf8.RuneError ->
  len revs < 2 ^ 63 ->
  (forall n,
     revisionToken t n -> 1 <= n <= len revs ->
     handleCommand (verb :: p :: t :: extra) fs rd
     = Continue fs rd (okGet (revs !!! Z.to_nat (n - 1))))
  /\ ((forall n, revisionToken t n -> ~ (1 <= n <= len revs)) ->
      handleCommand (verb :: p :: t :: extra) fs rd
      = Continue fs rd (errReply "ERR no such revision"))
  /\ (forall b,
        last revs = Some b ->
        handleCommand [verb; p] fs rd = Continue fs rd (okGet b)).
Proof.
  intros Hv Hk Hrune Hlen. split; [|split].
  - intros n Ht Hn. rewrite (GET_token _ _ _ _ _ _ revs) by assumption.
    rewrite (revisionToken_target t n Hrune Ht) by lia.
    replace (n - 1 <? 0) with false by lia.
    replace (len revs <=? n - 1) with false by lia. reflexivity.
  - intros Hno. rewrite (GET_token _ _ _ _ _ _ revs) by assumption.
    destruct (tokenTarget t) as [idx|] eqn:Et; [|reflexivity].
    destruct (Z.ltb_spec idx 0); [reflexivity|].
    destruct (Z.leb_spec (len revs) idx); [reflexivity|]. exfalso.
    apply (Hno (idx + 1)); [|lia].
    apply target_revisionToken; [assumption.. | lia].
  - intros b Hl. apply (GET_latest _ _ _ _ revs); assumption.
Qed.

(** On a byte that is not valid UTF-8 the normalisation is not byte for
    byte, whatever the case tables hold for the letters: the byte is
    replaced by the encoding of U+FFFD. *)
Lemma ToLower_invalid_byte :
  To_LowerCase utf8.RuneError = utf8.RuneError ->
  ToLower [x2f; xff] = [x2f; xef; xbf; xbd].
Proof.
  intros Hrune. unfold ToLower, strings.ToLower.
  change (strings.isASCII [x2f; xff]) with false. cbv iota.
  rewrite Map_eq_rest. simpl length.
  rewrite Map_rest_step by discriminate.
  change (utf8.DecodeRune [x2f; xff]) with (47, 1). simpl fst. simpl snd.
  change (drop (Z.to_nat 1) [x2f; xff]) with [xff].
  rewrite Map_rest_step by discriminate.
  change (utf8.DecodeRune [xff]) with (utf8.RuneError, 1). simpl fst. simpl snd.
  rewrite (unicode_ToLower_above _ utf8.RuneError)
    by (unfold utf8.RuneError; lia).
  rewrite Hrune. reflexivity.
Qed.

(** ** Further properties of the command handlers *)

(** *** The critical section of PUT, key by key *)

Lemma putRevision_lookup fs k b k' revs' :
  (putRevision fs k b).1 !! k' = Some revs' ->
  fs !! k' = Some revs'
  \/ (k' = k /\ revs' = default [] (fs !! k) ++ [b]
      /\ last (default [] (fs !! k)) <> Some b).
Proof.
  unfold putRevision.
  destruct ((0 <? len (default [] (fs !! k)))
            && bool_decide (last (default [] (fs !! k)) = Some b)) eqn:E; simpl.
  - auto.
  - destruct (decide (k = k')) as [<- | Hne].
    + rewrite lookup_insert_eq. intros [= <-]. right.
      split; [reflexivity|]. split; [reflexivity|].
      apply andb_false_iff in E as [E | E].
      * destruct (default [] (fs !! k)); [discriminate|].
        apply Z.ltb_ge in E. unfold len in E. simpl length in E. lia.
      * apply bool_decide_eq_false_1 in E. assumption.
    + rewrite lookup_insert_ne by assumption. auto.
Qed.

Lemma putRevision_result fs k b :
  exists revs',
    (putRevision fs k b).1 !! k = Some revs'
    /\ (putRevision fs k b).2 = len revs' /\ last revs' = Some b.
Proof.
  unfold putRevision.
  destruct ((0 <? len (default [] (fs !! k)))
            && bool_decide (last (default [] (fs !! k)) = Some b)) eqn:E; simpl.
  - apply andb_true_iff in E as [E1 E2]. apply bool_decide_eq_true_1 in E2.
    destruct (fs !! k) as [revs|] eqn:Ek; [|discriminate].
    exists revs. auto.
  - rewrite lookup_insert_eq. simpl.
    exists (default [] (fs !! k) ++ [b]). rewrite last_snoc. auto.
Qed.

Lemma putRevision_frame fs k b k' :
  k' <> k -> (putRevision fs k b).1 !! k' = fs !! k'.
Proof.
  intros Hne. unfold putRevision. case_match; simpl; [reflexivity|].
  apply lookup_insert_ne. congruence.
Qed.

Lemma putRevision_extends fs k b k' revs :
  fs !! k' = Some revs ->
  exists more, (putRevision fs k b).1 !! k' = Some (revs ++ more).
Proof.
  intros Hk. unfold putRevision. case_match; simpl.
  - exists []. rewrite app_nil_r. assumption.
  - destruct (decide (k = k')) as [-> | Hne].
    + rewrite lookup_insert_eq, Hk. simpl. eauto.
    + rewrite lookup_insert_ne by assumption.
      exists []. rewrite app_nil_r. assumption.
Qed.

(** The only write of a command is the critical section of PUT, run on
    the lower-cased bytes of a well-formed path with a text payload. *)
Lemma handleCommand_write parts fs rd :
  match handleCommand parts fs rd with
  | Continue fs' _ _ | Return fs' _ =>
    fs' = fs
    \/ exists p b, wellFormedPath p /\ textPayload b
         /\ fs' = (putRevision fs (map strings.lowerByte p) b).1
  | Panic => True
  end.
Proof.
  unfold handleCommand, handlePUT, handleGET, handleLIST.
  repeat case_match; simplify_eq; auto.
  all: right.
  all: repeat match goal with
              | H : negb _ = false |- _ => apply negb_false_iff in H
              end.
  all: match goal with
       | Hp : strings.HasPrefix ?p _ = true,
         Hv : validPath_MatchString ?p = true,
         Hu : utf8.Valid ?b = true,
         Ht : isText ?b = true,
         Hr : putRevision _ _ _ = _ |- _ =>
         assert (wellFormedPath p) as Hwf
           by (apply validPath_wellFormed; split; assumption);
         exists p, b; split; [exact Hwf|];
         split; [split; [apply Valid_spec | apply isText_textByte]; assumption|];
         rewrite <- ToLower_ascii_map by (apply wellFormed_isASCII; exact Hwf);
         rewrite Hr; reflexivity
       end.
Qed.

Lemma step_write fs fs' :
  step fs fs' ->
  fs' = fs
  \/ exists p b, wellFormedPath p /\ textPayload b
       /\ fs' = (putRevision fs (map strings.lowerByte p) b).1.
Proof.
  intros [parts rd fs1 rd' out H | parts rd fs1 out H];
    pose proof (handleCommand_write parts fs rd) as Hw; rewrite H in Hw;
    exact Hw.
Qed.

Lemma reachable_later fs : reachable fs <-> later ∅ fs.
Proof.
  split.
  - induction 1 as [ | fs parts rd fs' rd' out _ IH Hstep
                   | fs parts rd fs' out _ IH Hstep ].
    + constructor.
    + eapply later_step; [exact IH|]. eapply step_Continue; exact Hstep.
    + eapply later_step; [exact IH|]. eapply step_Return; exact Hstep.
  - induction 1 as [ | fs' fs'' _ IH Hstep ]; [constructor|].
    destruct Hstep as [parts rd fs1 rd' out H | parts rd fs1 out H].
    + eapply reachable_Continue; eassumption.
    + eapply reachable_Return; eassumption.
Qed.

(** *** Revisions are never changed or removed *)

Lemma later_extends fs fs' k revs :
  later fs fs' ->
  fs !! k = Some revs ->
  exists more, fs' !! k = Some (revs ++ more).
Proof.
  intros Hl Hk. induction Hl as [ | fs' fs'' _ IH Hstep ].
  - exists []. rewrite app_nil_r. assumption.
  - destruct IH as [more IH].
    destruct (step_write _ _ Hstep) as [-> | (p & b & _ & _ & ->)].
    + eauto.
    + destruct (putRevision_extends fs' (map strings.lowerByte p) b k _ IH)
        as [more' H].
      exists (more ++ more'). rewrite app_assoc. assumption.
Qed.

(** X1. Whatever commands follow, by whatever connections, a file keeps every
    revision it has, with the same number and the same bytes: the store
    only grows, at the end of a file's list of revisions. *)
Theorem revisions_are_kept fs fs' k revs :
  later fs fs' ->
  fs !! k = Some revs ->
  exists revs',
    fs' !! k = Some revs' /\ len revs <= len revs'
    /\ forall (i : nat) b, revs !! i = Some b -> revs' !! i = Some b.
Proof.
  intros Hl Hk. destruct (later_extends _ _ _ _ Hl Hk) as [more H].
  exists (revs ++ more). split; [assumption|]. split.
  - rewrite len_app. pose proof (len_nonneg more). lia.
  - intros i b Hi. apply lookup_app_l_Some. assumption.
Qed.

(** The token [r<n>] in decimal selects the index [n - 1]. *)
Lemma tokenTarget_Itoa n :
  0 <= n < 2 ^ 63 -> tokenTarget (lit "r" ++ strconv.Itoa n) = Some (n - 1).
Proof.
  intros Hn. unfold tokenTarget.
  change (lit "r" ++ strconv.Itoa n) with ("r"%byte :: strconv.Itoa n).
  destruct (ToLower_head_ascii "r" (strconv.Itoa n)) as [rest Hl];
    [vm_compute; reflexivity|].
  rewrite Hl. change (strings.lowerByte "r") with "r"%byte.
  rewrite (proj2 (HasPrefix_spec _ _)) by (exists rest; reflexivity).
  change (drop 1 ("r"%byte :: strconv.Itoa n)) with (strconv.Itoa n).
  simpl negb. cbv iota. rewrite Atoi_Itoa by lia.
  rewrite wrap64_small by lia. reflexivity.
Qed.

Lemma GET_numbered verb p n fs rd revs :
  ToUpper verb = lit "GET" ->
  fs !! ToLower p = Some revs ->
  1 <= n <= len revs -> n < 2 ^ 63 ->
  handleCommand [verb; p; lit "r" ++ strconv.Itoa n] fs rd
  = Continue fs rd (okGet (revs !!! Z.to_nat (n - 1))).
Proof.
  intros Hv Hk Hn Hmax. rewrite (GET_token _ _ _ _ _ _ revs) by assumption.
  rewrite tokenTarget_Itoa by lia.
  destruct (Z.ltb_spec (n - 1) 0); [lia|].
  destruct (Z.leb_spec (len revs) (n - 1)); [lia|]. reflexivity.
Qed.

(** X2. A GET of revision [n] returns the same bytes before and after any
    further commands. *)
Theorem GET_revision_is_stable verb p n fs fs' rd rd' revs :
  ToUpper verb = lit "GET" ->
  later fs fs' ->
  fs !! ToLower p = Some revs ->
  1 <= n <= len revs -> n < 2 ^ 63 ->
  exists b,
    handleCommand [verb; p; lit "r" ++ strconv.Itoa n] fs rd
    = Continue fs rd (okGet b)
    /\ handleCommand [verb; p; lit "r" ++ strconv.Itoa n] fs' rd'
       = Continue fs' rd' (okGet b).
Proof.
  intros Hv Hl Hk Hn Hmax.
  destruct (later_extends _ _ _ _ Hl Hk) as [more Hk'].
  exists (revs !!! Z.to_nat (n - 1)). split.
  - apply GET_numbered; assumption.
  - rewrite (GET_numbered verb p n fs' rd' (revs ++ more)); try assumption.
    + rewrite lookup_total_app_l; [reflexivity|]. unfold len in Hn. lia.
    + rewrite len_app. pose proof (len_nonneg more). lia.
Qed.


(** *** Invariants of the reachable stores *)

Lemma lowerByte_alphabet c :
  c ∈ pathAlphabet -> strings.lowerByte c ∈ pathAlphabet.
Proof.
  intros H.
  assert (Hb : bool_decide (c ∈ pathAlphabet) = true)
    by (apply bool_decide_eq_true_2; exact H).
  cut (bool_decide (strings.lowerByte c ∈ pathAlphabet) = true);
    [apply bool_decide_eq_true_1|].
  revert Hb. clear H. destruct c; vm_compute; congruence.
Qed.

Lemma lowerByte_not_upper c : ~ upperLetter (strings.lowerByte c).
Proof.
  pose proof (lowerByte_value c) as Hv. pose proof (bz_range c).
  intros Hu. letters. revert Hv.
  destruct (Z.leb_spec 65 (bz c)), (Z.leb_spec (bz c) 90); cbn [andb]; lia.
Qed.

Lemma wellFormed_lower p :
  wellFormedPath p ->
  wellFormedPath (map strings.lowerByte p)
  /\ lowerCase (map strings.lowerByte p).
Proof.
  intros [[p' ->] Hall]. split; [split|].
  - exists (map strings.lowerByte p'). reflexivity.
  - apply Forall_fmap. eapply Forall_impl; [exact Hall|].
    intros c Hc. apply lowerByte_alphabet. assumption.
  - apply Forall_fmap, Forall_forall. intros c _. apply lowerByte_not_upper.
Qed.

Lemma noRepeat_snoc revs b :
  noRepeat revs -> last revs <> Some b -> noRepeat (revs ++ [b]).
Proof.
  intros Hn Hl i x y Hx Hy.
  pose proof (lookup_lt_Some _ _ _ Hy) as Hlt. rewrite length_app in Hlt.
  simpl in Hlt.
  rewrite lookup_app_l in Hx by lia.
  destruct (decide (S i = length revs)) as [E | E].
  - rewrite lookup_app_r in Hy by lia.
    replace (S i - length revs)%nat with 0%nat in Hy by lia.
    injection Hy as <-. intros ->. apply Hl.
    rewrite last_lookup. replace (pred (length revs)) with i by lia.
    assumption.
  - rewrite lookup_app_l in Hy by lia. eapply Hn; eassumption.
Qed.

(** X3. Every key of a reachable store is a well-formed path without upper-case
    letters. *)
Theorem stored_keys_are_lower_case_paths fs k revs :
  reachable fs ->
  fs !! k = Some revs ->
  wellFormedPath k /\ lowerCase k.
Proof.
  intros Hr. apply reachable_later in Hr. revert k revs.
  induction Hr as [ | fs' fs'' _ IH Hstep ]; intros k revs Hk.
  - rewrite lookup_empty in Hk. discriminate.
  - destruct (step_write _ _ Hstep) as [-> | (p & b & Hp & _ & ->)];
      [eauto|].
    apply putRevision_lookup in Hk as [Hk | (-> & _ & _)]; [eauto|].
    apply wellFormed_lower. assumption.
Qed.

(** X4. Every revision of a reachable store is a text payload, and no revision
    equals the one before it. *)
Theorem stored_revisions_are_text fs k revs :
  reachable fs ->
  fs !! k = Some revs ->
  Forall textPayload revs /\ noRepeat revs.
Proof.
  intros Hr. apply reachable_later in Hr. revert k revs.
  induction Hr as [ | fs' fs'' _ IH Hstep ]; intros k revs Hk.
  - rewrite lookup_empty in Hk. discriminate.
  - destruct (step_write _ _ Hstep) as [-> | (p & b & _ & Hb & ->)];
      [eauto|].
    apply putRevision_lookup in Hk as [Hk | (-> & -> & Hl)]; [eauto|].
    destruct (fs' !! map strings.lowerByte p) as [old|] eqn:E; simpl in *.
    + destruct (IH _ _ E) as [Ht Hn]. split.
      * apply Forall_app. split; [assumption|]. constructor; [assumption|constructor].
      * apply noRepeat_snoc; assumption.
    + split.
      * constructor; [assumption|constructor].
      * intros i x y _ Hy. apply lookup_lt_Some in Hy. simpl in Hy. lia.
Qed.

(** *** Commands other than PUT *)

Lemma prompt_1 a : endsWithPrompt (line a ++ READY).
Proof. exists (line a). reflexivity. Qed.

Lemma prompt_2 a b : endsWithPrompt (line a ++ b ++ READY).
Proof. exists (line a ++ b). rewrite app_assoc. reflexivity. Qed.

Lemma only_PUT_continues verb args fs rd :
  ToUpper verb <> lit "PUT" ->
  exists out,
    handleCommand (verb :: args) fs rd = Continue fs rd out
    /\ endsWithPrompt out.
Proof.
  intros Hv. unfold handleCommand.
  change (length (verb :: args) =? 0)%nat with false. cbv iota.
  change ((verb :: args) !!! 0%nat) with verb.
  rewrite bool_decide_eq_false_2 by assumption.
  unfold handleGET, handleLIST.
  repeat case_match; eexists; (split; [reflexivity|]);
    first [apply prompt_1 | apply prompt_2].
Qed.

(** X5. A command whose verb is not PUT, whatever its arguments, leaves the
    store and the unread input as they are and ends neither the connection
    nor the process; its reply ends with the prompt. *)
Theorem only_PUT_writes verb args fs rd :
  ToUpper verb <> lit "PUT" ->
  exists out,
    handleCommand (verb :: args) fs rd = Continue fs rd out
    /\ endsWithPrompt out.
Proof. apply only_PUT_continues. Qed.

(** *** The ways a command ends *)

(** The header checks of PUT, for a header of three tokens. *)
Lemma PUT_header verb p n z fs rd :
  ToUpper verb = lit "PUT" ->
  wellFormedPath p ->
  strconv.Atoi n = Some z ->
  handleCommand [verb; p; n] fs rd
  = if negb (makeslice_ok z) then Panic
    else if len rd <? z then Return fs []
    else
      let fileData := take (Z.to_nat z) rd in
      let rd' := drop (Z.to_nat z) rd in
      if utf8.Valid fileData && isText fileData then
        Continue (putRevision fs (map strings.lowerByte p) fileData).1 rd'
                 (okPut (putRevision fs (map strings.lowerByte p) fileData).2)
      else Continue fs rd' (errReply "ERR text files only").
Proof.
  intros Hv Hp Hn. rewrite handleCommand_PUT by assumption.
  unfold handlePUT. simpl.
  pose proof (proj2 (validPath_wellFormed p) Hp) as [H1 H2].
  rewrite H1, H2. simpl. rewrite Hn.
  destruct (makeslice_ok z); simpl; [|reflexivity].
  destruct (len rd <? z); [reflexivity|].
  destruct (utf8.Valid (take (Z.to_nat z) rd)); simpl; [|reflexivity].
  destruct (isText (take (Z.to_nat z) rd)); simpl; [|reflexivity].
  rewrite ToLower_ascii_map by (apply wellFormed_isASCII; assumption).
  destruct (putRevision fs (map strings.lowerByte p) (take (Z.to_nat z) rd)).
  reflexivity.
Qed.

(** The header of every command that does not end in [Continue]. *)
Lemma not_Continue parts fs rd :
  (forall fs' rd' out, handleCommand parts fs rd <> Continue fs' rd' out) ->
  exists verb p n z,
    parts = [verb; p; n] /\ ToUpper verb = lit "PUT" /\ wellFormedPath p
    /\ strconv.Atoi n = Some z.
Proof.
  intros Hno.
  destruct parts as [|verb args].
  { exfalso. eapply Hno. reflexivity. }
  destruct (decide (ToUpper verb = lit "PUT")) as [Hv | Hv].
  2: { destruct (only_PUT_continues verb args fs rd Hv) as [out [H _]].
       exfalso. eapply Hno. exact H. }
  destruct args as [|p [|n [|x args]]].
  1, 2, 4: exfalso; eapply Hno; rewrite handleCommand_PUT by assumption;
    reflexivity.
  destruct (strings.HasPrefix p (lit "/")) eqn:E1.
  2: { exfalso. eapply Hno. apply PUT_illegal_name; [assumption|].
       intros Hp. apply validPath_wellFormed in Hp as [Hp _]. congruence. }
  destruct (validPath_MatchString p) eqn:E2.
  2: { exfalso. eapply Hno. apply PUT_illegal_name; [assumption|].
       intros Hp. apply validPath_wellFormed in Hp as [_ Hp]. congruence. }
  assert (wellFormedPath p) as Hp by (apply validPath_wellFormed; auto).
  destruct (strconv.Atoi n) as [z|] eqn:En.
  2: { exfalso. eapply Hno. apply PUT_invalid_length; assumption. }
  exists verb, p, n, z. auto.
Qed.


(** X6. A command makes the process panic exactly when it is a PUT of three
    tokens with a well-formed path whose length token [strconv.Atoi] reads
    as a negative number or as one above the largest allocation. *)
Theorem panic_iff parts fs rd :
  handleCommand parts fs rd = Panic
  <-> exists verb p n z,
        parts = [verb; p; n] /\ ToUpper verb = lit "PUT" /\ wellFormedPath p
        /\ strconv.Atoi n = Some z /\ (z < 0 \/ maxAlloc < z).
Proof.
  split.
  - intros H.
    destruct (not_Continue parts fs rd)
      as (verb & p & n & z & -> & Hv & Hp & Hn).
    { intros fs' rd' out. rewrite H. discriminate. }
    exists verb, p, n, z. do 4 (split; [assumption || reflexivity|]).
    rewrite (PUT_header _ _ _ z) in H by assumption.
    unfold makeslice_ok in H.
    destruct (Z.leb_spec 0 z); [|lia].
    destruct (Z.leb_spec z maxAlloc); [|lia].
    cbn [andb negb] in H. cbv zeta in H.
    repeat case_match; discriminate.
  - intros (verb & p & n & z & -> & Hv & Hp & Hn & Hz).
    rewrite (PUT_header _ _ _ z) by assumption. unfold makeslice_ok.
    destruct (Z.leb_spec 0 z), (Z.leb_spec z maxAlloc);
      cbn [andb negb]; try reflexivity; lia.
Qed.


Lemma Continue_inj fs rd out fs' rd' out' :
  Continue fs rd out = Continue fs' rd' out' ->
  fs = fs' /\ rd = rd' /\ out = out'.
Proof. intros [= -> -> ->]. auto. Qed.

Lemma Continue_prompt parts fs rd fs' rd' out :
  parts <> [] ->
  handleCommand parts fs rd = Continue fs' rd' out ->
  endsWithPrompt out /\ exists consumed, rd = consumed ++ rd'.
Proof.
  intros Hne H. destruct parts as [|verb args]; [congruence|].
  destruct (decide (ToUpper verb = lit "PUT")) as [Hv | Hv].
  - rewrite handleCommand_PUT in H by assumption. revert H. unfold handlePUT.
    repeat case_match; intros Hc; try discriminate Hc;
      apply Continue_inj in Hc as (<- & <- & <-); (split; [apply prompt_1|]);
      first [ exists []; reflexivity
            | eexists; symmetry; apply take_drop ].
  - destruct (only_PUT_continues verb args fs rd Hv) as (out' & H' & Hp).
    rewrite H' in H. injection H as <- <- <-.
    split; [assumption | exists []; reflexivity].
Qed.

Lemma Return_silent parts fs rd fs' out :
  handleCommand parts fs rd = Return fs' out -> fs' = fs /\ out = [].
Proof.
  unfold handleCommand, handlePUT, handleGET, handleLIST.
  repeat case_match; intros Hc; try discriminate Hc.
  injection Hc as <- <-. auto.
Qed.

(** X8. Every reply to a line that has a field ends with the prompt, and a
    command consumes input from the front only. *)
Theorem reply_ends_with_prompt parts fs rd fs' rd' out :
  parts <> [] ->
  handleCommand parts fs rd = Continue fs' rd' out ->
  endsWithPrompt out /\ exists consumed, rd = consumed ++ rd'.
Proof.
  intros Hne H. destruct parts as [|verb args]; [congruence|].
  destruct (decide (ToUpper verb = lit "PUT")) as [Hv | Hv].
  - rewrite handleCommand_PUT in H by assumption. revert H. unfold handlePUT.
    repeat case_match; intros Hc; try discriminate Hc;
      apply Continue_inj in Hc as (<- & <- & <-); (split; [apply prompt_1|]);
      first [ exists []; reflexivity
            | eexists; symmetry; apply take_drop ].
  - destruct (only_PUT_continues verb args fs rd Hv) as (out' & H' & Hp).
    rewrite H' in H. injection H as <- <- <-.
    split; [assumption | exists []; reflexivity].
Qed.

(** *** PUT and the other commands *)

(** X9. The id that PUT replies with is a revision token for the payload: a
    GET of the path with [r<id>] returns the bytes just stored, whether
    PUT appended them or found them as the last revision. *)
Theorem PUT_id_names_the_payload verb verb' p n b rest rd fs :
  ToUpper verb = lit "PUT" ->
  ToUpper verb' = lit "GET" ->
  wellFormedPath p ->
  strconv.Atoi n = Some (len b) ->
  len b <= maxAlloc ->
  textPayload b ->
  (forall revs, fs !! map strings.lowerByte p = Some revs ->
                len revs < 2 ^ 63 - 1) ->
  exists fs' id,
    handleCommand [verb; p; n] fs (b ++ rest) = Continue fs' rest (okPut id)
    /\ handleCommand [verb'; p; lit "r" ++ strconv.Itoa id] fs' rd
       = Continue fs' rd (okGet b).
Proof.
  intros Hv Hv' Hp Hn Hmax Hb Hfit.
  eexists _, _. split; [apply PUT_text; assumption|].
  destruct (putRevision_result fs (map strings.lowerByte p) b)
    as (revs' & Hk & -> & Hl).
  assert (1 <= len revs') as H1.
  { destruct revs'; [discriminate|]. unfold len. simpl length. lia. }
  assert (len revs' < 2 ^ 63) as H2.
  { destruct (putRevision_lookup _ _ _ _ _ Hk) as [Hold | (_ & -> & _)].
    - specialize (Hfit _ Hold). lia.
    - rewrite len_app. change (len [b]) with 1.
      destruct (fs !! map strings.lowerByte p) as [old|] eqn:E; simpl.
      + specialize (Hfit _ eq_refl). lia.
      + change (len []) with 0. lia. }
  rewrite (GET_numbered verb' p (len revs') _ rd revs'); try assumption; try lia.
  - rewrite (lookup_total_last revs' b Hl). reflexivity.
  - rewrite ToLower_ascii_map by (apply wellFormed_isASCII; assumption).
    assumption.
Qed.

(** X10. A command changes no file other than the one at the lower-cased path
    of its first argument. *)
Theorem other_files_are_untouched verb p args fs rd fs' rd' out k :
  handleCommand (verb :: p :: args) fs rd = Continue fs' rd' out ->
  k <> ToLower p ->
  fs' !! k = fs !! k.
Proof.
  intros H Hk. revert H. unfold handleCommand, handlePUT, handleGET, handleLIST.
  change ((verb :: p :: args) !!! 1%nat) with p.
  repeat case_match; intros; simplify_eq; try reflexivity.
  match goal with
  | Hr : putRevision _ _ _ = _ |- _ =>
    apply (f_equal fst) in Hr; cbn [fst] in Hr; rewrite <- Hr
  end.
  apply putRevision_frame. assumption.
Qed.

(** X11. GET replies [ERR no such file] exactly when the store has no file at
    the lower-cased path; a revision token, well-formed or not, is not
    looked at before. *)
Theorem GET_no_such_file verb p args fs rd :
  ToUpper verb = lit "GET" ->
  fs !! ToLower p = None
  <-> handleCommand (verb :: p :: args) fs rd
      = Continue fs rd (errReply "ERR no such file").
Proof.
  intros Hv. rewrite handleCommand_GET by assumption. unfold handleGET.
  change (length (verb :: p :: args) <? 2)%nat with false. cbv iota zeta.
  change ((verb :: p :: args) !!! 1%nat) with p.
  destruct (fs !! ToLower p) as [revs|]; split; try reflexivity;
    try discriminate.
  intros H. exfalso. revert H. unfold errReply, line, lit.
  repeat case_match; simpl; discriminate.
Qed.

(** *** LIST *)

(** X12. The reply of LIST is the same whatever the order in which the loop
    over the store visits the files and whatever the order in which the
    names of the entries are collected before they are sorted. *)
Theorem LIST_ignores_iteration_order verb d fs rd kvs names :
  ToUpper verb = lit "LIST" ->
  kvs ≡ₚ map_to_list fs ->
  names ≡ₚ (map_to_list (listEntries (targetDirOf d) kvs)).*1 ->
  handleCommand [verb; d] fs rd
  = Continue fs rd (listReply (targetDirOf d) kvs names).
Proof.
  intros Hv Hk Hn. rewrite handleCommand_LIST by assumption.
  unfold handleLIST, listReply. simpl length. cbv iota zeta. simpl negb.
  cbv iota. change ([verb; d] !!! 1%nat) with d.
  assert (listEntries (targetDirOf d) kvs
          = listEntries (targetDirOf d) (map_to_list fs)) as E.
  { symmetry. apply listEntries_order; [apply NoDup_fst_map_to_list|].
    symmetry. assumption. }
  rewrite E in Hn |- *.
  rewrite (sort_Strings_unique names _ Hn). reflexivity.
Qed.

Lemma decimal_zero n : decimal ["0"%byte] n -> n = 0.
Proof.
  intros Hd. apply decimal_digitsValue in Hd. vm_compute in Hd. congruence.
Qed.

Lemma decimal_no_LF ds rest n : ~ decimal (ds ++ LF :: rest) n.
Proof.
  intros Hd. apply decimal_digitsValue in Hd. revert Hd.
  generalize 0. induction ds as [|c ds IH]; intros acc; simpl.
  - discriminate.
  - destruct (strconv.digitVal c); [apply IH | discriminate].
Qed.

Lemma Itoa_decimal n : 0 <= n -> decimal (strconv.Itoa n) n.
Proof.
  intros Hn. unfold strconv.Itoa. destruct (Z.ltb_spec n 0); [lia|].
  destruct (formatBits_decimal (Z.to_nat n) n [] ltac:(lia) ltac:(lia))
    as (ds & -> & Hd).
  rewrite app_nil_r. assumption.
Qed.

(** X13. LIST replies [OK 0] exactly when no key of the store begins with the
    prefix. *)
Theorem LIST_empty verb d fs rd :
  ToUpper verb = lit "LIST" ->
  (forall rel, fs !! (listPrefix d ++ rel) = None)
  <-> handleCommand [verb; d] fs rd
      = Continue fs rd (line (lit "OK 0") ++ READY).
Proof.
  intros Hv. rewrite LIST_listing by assumption. split.
  - intros Hnone.
    destruct (listing (listPrefix d) fs) as [|[name meta] l] eqn:E;
      [reflexivity|].
    assert ((name, meta) ∈ listing (listPrefix d) fs) as Hin
      by (rewrite E; left).
    apply listing_elem in Hin as (key & revs & rel & Hk & -> & _).
    rewrite Hnone in Hk. discriminate.
  - intros H rel. destruct (fs !! (listPrefix d ++ rel)) as [revs|] eqn:Ek;
      [exfalso | reflexivity].
    assert (exists name meta, (name, meta) ∈ listing (listPrefix d) fs)
      as (name & meta & Hin).
    { destruct (entryFn rel revs) as [name meta] eqn:Ef.
      exists name, meta. apply listing_elem. exists (listPrefix d ++ rel), revs, rel.
      split; [assumption|]. split; [reflexivity|]. apply entryFn_spec.
      assumption. }
    destruct (listing (listPrefix d) fs) as [|e l] eqn:E;
      [apply elem_of_nil in Hin; exact Hin|].
    injection H as H. unfold okList, line in H.
    pose proof (Itoa_decimal (len (e :: l)) (len_nonneg _)) as Hd.
    assert (1 <= len (e :: l)) as Hpos by (unfold len; simpl length; lia).
    destruct (strconv.Itoa (len (e :: l))) as [|c ds] eqn:Ei.
    { apply decimal_head in Hd as (? & ? & ? & _). discriminate. }
    change (lit "OK " ++ c :: ds) with (lit "OK " ++ [c] ++ ds) in H.
    simpl in H. injection H as -> H.
    destruct ds as [|c' ds'].
    + apply decimal_zero in Hd. lia.
    + simpl in H. injection H as -> _.
      apply (decimal_no_LF ["0"%byte] ds' _ Hd).
Qed.

(** X14. After a PUT, LIST of a directory that holds the file directly shows it
    with the revision id that PUT replied with. *)
Theorem LIST_shows_the_PUT_id verb verb' p n b rest rd d name fs :
  ToUpper verb = lit "PUT" ->
  ToUpper verb' = lit "LIST" ->
  wellFormedPath p ->
  strconv.Atoi n = Some (len b) ->
  len b <= maxAlloc ->
  textPayload b ->
  map strings.lowerByte p = listPrefix d ++ name ->
  "/"%byte ∉ name ->
  exists fs' id,
    handleCommand [verb; p; n] fs (b ++ rest) = Continue fs' rest (okPut id)
    /\ handleCommand [verb'; d] fs' rd
       = Continue fs' rd (okList (listing (listPrefix d) fs'))
    /\ (name, lit "r" ++ strconv.Itoa id) ∈ listing (listPrefix d) fs'.
Proof.
  intros Hv Hv' Hp Hn Hmax Hb Hkey Hname.
  eexists _, _. split; [apply PUT_text; assumption|].
  split; [apply LIST_listing; assumption|].
  destruct (putRevision_result fs (map strings.lowerByte p) b)
    as (revs' & Hk & -> & _).
  apply listing_elem. exists (map strings.lowerByte p), revs', name.
  split; [assumption|]. split; [assumption|].
  apply entry_file. assumption.
Qed.


(** ** The command loop *)

(** *** Reading a line *)

Lemma ReadString_line l rest :
  LF ∉ l -> ReadString (l ++ LF :: rest) = Some (l ++ [LF], rest).
Proof.
  induction l as [|c l IH]; intros Hl; cbn [ReadString app].
  - rewrite bool_decide_eq_true_2 by reflexivity. reflexivity.
  - apply not_elem_of_cons in Hl as [Hc Hl].
    rewrite bool_decide_eq_false_2 by congruence.
    rewrite IH by assumption. reflexivity.
Qed.

Lemma ReadString_none rd : LF ∉ rd -> ReadString rd = None.
Proof.
  induction rd as [|c rd IH]; intros Hl; cbn [ReadString]; [reflexivity|].
  apply not_elem_of_cons in Hl as [Hc Hl].
  rewrite bool_decide_eq_false_2 by congruence.
  rewrite IH by assumption. reflexivity.
Qed.

Lemma ReadString_shorter rd l rest :
  ReadString rd = Some (l, rest) -> (length rest < length rd)%nat.
Proof.
  revert l rest. induction rd as [|c rd IH]; intros l rest; cbn [ReadString];
    [discriminate|].
  destruct (bool_decide (c = LF)).
  - intros [= <- <-]. simpl. lia.
  - destruct (ReadString rd) as [[l' rest']|]; [|discriminate].
    intros [= <- <-]. specialize (IH _ _ eq_refl). simpl. lia.
Qed.

(** *** Splitting an ASCII line *)

Lemma asciiSpace_ascii c : strings.asciiSpace c = true -> bz c < 0x80.
Proof.
  unfold strings.asciiSpace. intros H.
  repeat (apply orb_true_iff in H as [H | H]); apply Z.eqb_eq in H; lia.
Qed.

Lemma isASCII_Forall s :
  strings.isASCII s = true <-> Forall (fun c => bz c < 0x80) s.
Proof.
  unfold strings.isASCII. rewrite forallb_forall, Forall_forall.
  split; intros H c Hc.
  - apply list_elem_of_In in Hc. specialize (H c Hc).
    apply Z.ltb_lt in H. exact H.
  - apply Z.ltb_lt. apply H, list_elem_of_In, Hc.
Qed.

Lemma blank_ascii ws : blank ws -> Forall (fun c => bz c < 0x80) ws.
Proof.
  intros H. eapply Forall_impl; [exact H|]. intros c Hc.
  apply asciiSpace_ascii. assumption.
Qed.

Lemma token_ascii t : token t -> Forall (fun c => bz c < 0x80) t.
Proof.
  intros [_ H]. eapply Forall_impl; [exact H|]. intros c [Hc _]. assumption.
Qed.

Lemma tokensOf_ascii l ts : tokensOf l ts -> Forall (fun c => bz c < 0x80) l.
Proof.
  induction 1 as [ws Hws | ws t Hws Ht | ws t sp l ts Hws Ht Hsp _ IH].
  - apply blank_ascii. assumption.
  - apply Forall_app. split; [apply blank_ascii | apply token_ascii]; assumption.
  - apply Forall_app. split; [apply blank_ascii; assumption|].
    apply Forall_app. split; [apply token_ascii; assumption|].
    constructor; [apply asciiSpace_ascii|]; assumption.
Qed.

Lemma Fields_scan_blank_l ws s :
  blank ws -> strings.Fields_scan (ws ++ s) None = strings.Fields_scan s None.
Proof.
  induction 1 as [|c ws Hc _ IH]; [reflexivity|].
  simpl. rewrite Hc. exact IH.
Qed.

Lemma Fields_scan_blank ws field :
  blank ws -> strings.Fields_scan ws field = strings.Fields_scan [] field.
Proof.
  intros Hws. destruct Hws as [|c ws Hc Hws]; [reflexivity|].
  pose proof (Fields_scan_blank_l ws [] Hws) as H. rewrite app_nil_r in H.
  simpl. rewrite Hc, H. destruct field; reflexivity.
Qed.

Lemma Fields_scan_blank_r ws : forall s field,
  blank ws ->
  strings.Fields_scan (s ++ ws) field = strings.Fields_scan s field.
Proof.
  intros s field Hws. revert field.
  induction s as [|c s IH]; intros field.
  - apply Fields_scan_blank. assumption.
  - simpl. destruct (strings.asciiSpace c); [destruct field|]; rewrite ?IH;
      reflexivity.
Qed.

Lemma Fields_scan_field t : forall s fld,
  Forall (fun c => bz c < 0x80 /\ strings.asciiSpace c = false) t ->
  strings.Fields_scan (t ++ s) (Some fld)
  = strings.Fields_scan s (Some (fld ++ t)).
Proof.
  induction t as [|c t IH]; intros s fld Ht.
  - rewrite app_nil_r. reflexivity.
  - apply Forall_cons in Ht as [[_ Hc] Ht]. simpl. rewrite Hc. simpl.
    rewrite IH by assumption. rewrite <- app_assoc. reflexivity.
Qed.

Lemma Fields_scan_token t s :
  token t ->
  strings.Fields_scan (t ++ s) None = strings.Fields_scan s (Some t).
Proof.
  intros [Hne Ht]. destruct t as [|c t]; [congruence|].
  apply Forall_cons in Ht as [[_ Hc] Ht]. simpl. rewrite Hc. simpl.
  apply (Fields_scan_field t s [c]). assumption.
Qed.

(** The scan returns the tokens of the line. *)
Lemma Fields_scan_tokens l ts :
  tokensOf l ts -> strings.Fields_scan l None = ts.
Proof.
  induction 1 as [ws Hws | ws t Hws Ht | ws t sp l ts Hws Ht Hsp _ IH].
  - apply (Fields_scan_blank ws None). assumption.
  - rewrite Fields_scan_blank_l by assumption.
    pose proof (Fields_scan_token t [] Ht) as H. rewrite app_nil_r in H.
    exact H.
  - rewrite Fields_scan_blank_l by assumption.
    rewrite Fields_scan_token by assumption. simpl. rewrite Hsp, IH.
    reflexivity.
Qed.

Lemma TrimSpace_stop_ascii IsSp s : forall stop,
  Forall (fun c => bz c < 0x80) s -> (stop <= length s)%nat ->
  exists post,
    take stop s = strings.TrimSpace_stop IsSp s stop ++ post /\ blank post.
Proof.
  intros stop Hs. induction stop as [|stop IH]; intros Hlen.
  - exists []. split; [reflexivity | constructor].
  - destruct (lookup_lt_is_Some_2 s stop ltac:(lia)) as [c Hc].
    assert (bz c < 0x80) as Hasc.
    { rewrite Forall_forall in Hs. apply Hs. eapply list_elem_of_lookup_2.
      exact Hc. }
    simpl. unfold at_. rewrite Hc. simpl. utf8_consts.
    destruct (Z.leb_spec 128 (bz c)); [lia|].
    destruct (strings.asciiSpace c) eqn:Esp; simpl.
    + destruct IH as (post & Ht & Hb); [lia|].
      exists (post ++ [c]). split.
      * rewrite (take_S_r _ _ _ Hc), Ht, app_assoc. reflexivity.
      * apply Forall_app. split; [assumption|]. constructor; [assumption|constructor].
    + exists []. rewrite app_nil_r. split; [reflexivity | constructor].
Qed.

(** On an ASCII string [TrimSpace] removes white space at both ends. *)
Lemma TrimSpace_ascii IsSp s :
  Forall (fun c => bz c < 0x80) s ->
  exists pre post,
    s = pre ++ strings.TrimSpace IsSp s ++ post /\ blank pre /\ blank post.
Proof.
  induction s as [|c s IH]; intros Hs.
  - exists [], []. repeat split; constructor.
  - pose proof Hs as Hs'. apply Forall_cons in Hs' as [Hc Hs'].
    cbn [strings.TrimSpace]. utf8_consts.
    destruct (Z.leb_spec 128 (bz c)); [lia|].
    destruct (strings.asciiSpace c) eqn:Esp; cbn [negb].
    + destruct (IH Hs') as (pre & post & He & Hpre & Hpost).
      exists (c :: pre), post. split; [|split].
      * simpl. f_equal. exact He.
      * constructor; assumption.
      * assumption.
    + destruct (TrimSpace_stop_ascii IsSp (c :: s) (length (c :: s)) Hs
                  ltac:(lia)) as (post & Ht & Hpost).
      rewrite firstn_all in Ht.
      exists [], post. split; [exact Ht|]. split; [constructor | assumption].
Qed.

(** The fields of the trimmed line are the tokens of the line. *)
Lemma Fields_TrimSpace IsSp l ts :
  tokensOf l ts -> strings.Fields IsSp (strings.TrimSpace IsSp l) = ts.
Proof.
  intros Ht. pose proof (tokensOf_ascii _ _ Ht) as Hl.
  destruct (TrimSpace_ascii IsSp l Hl) as (pre & post & He & Hpre & Hpost).
  assert (strings.isASCII (strings.TrimSpace IsSp l) = true) as Ha.
  { apply isASCII_Forall. rewrite He in Hl.
    apply Forall_app in Hl as [_ Hl]. apply Forall_app in Hl as [Hl _].
    exact Hl. }
  unfold strings.Fields. rewrite Ha. cbn [negb].
  rewrite <- (Fields_scan_tokens l ts Ht).
  rewrite He at 2.
  rewrite Fields_scan_blank_l, Fields_scan_blank_r by assumption.
  reflexivity.
Qed.

(** *** The iterations *)

Lemma handleCommand_consumes parts fs rd fs' rd' out :
  handleCommand parts fs rd = Continue fs' rd' out ->
  (length rd' <= length rd)%nat.
Proof.
  unfold handleCommand, handlePUT, handleGET, handleLIST.
  repeat case_match; intros Hc; try discriminate Hc;
    apply Continue_inj in Hc as (_ & <- & _); rewrite ?length_drop; lia.
Qed.

(** Iterations beyond [length rd] are never run. *)
Lemma commandLoop_fuel W : forall fuel fuel' fs rd,
  (length rd <= fuel)%nat -> (length rd <= fuel')%nat ->
  commandLoop W fuel fs rd = commandLoop W fuel' fs rd.
Proof.
  induction fuel as [|fuel IH]; intros fuel' fs rd H1 H2.
  - destruct rd; [|simpl in H1; lia]. destruct fuel'; reflexivity.
  - destruct fuel' as [|fuel'].
    { destruct rd; [|simpl in H2; lia]. reflexivity. }
    cbn [commandLoop].
    destruct (ReadString rd) as [[l rd1]|] eqn:Er; [|reflexivity].
    apply ReadString_shorter in Er.
    destruct (handleCommand _ fs rd1) as [fs1 rd2 out | |] eqn:Eh;
      try reflexivity.
    apply handleCommand_consumes in Eh.
    rewrite (IH fuel' fs1 rd2) by lia. reflexivity.
Qed.

Lemma commands_line W l rest ts fs :
  LF ∉ l -> tokensOf (l ++ [LF]) ts ->
  commands W fs (l ++ LF :: rest)
  = match handleCommand ts fs rest with
    | Continue fs' rd' out => andThen out (commands W fs' rd')
    | Return fs' out => (Closed, fs', out)
    | Panic => (Crashed, fs, [])
    end.
Proof.
  intros Hl Ht. unfold commands.
  destruct (length (l ++ LF :: rest)) as [|n] eqn:En.
  { destruct l; discriminate. }
  cbn [commandLoop]. rewrite ReadString_line by assumption.
  rewrite (Fields_TrimSpace _ _ ts Ht).
  destruct (handleCommand ts fs rest) as [fs1 rd2 out | |] eqn:Eh;
    try reflexivity.
  apply handleCommand_consumes in Eh.
  rewrite length_app in En. simpl in En.
  rewrite (commandLoop_fuel W n (length rd2)) by lia. reflexivity.
Qed.


(** *** Tokens *)

Lemma token_check t :
  negb (length t =? 0)%nat
  && forallb (fun c => (bz c <? 0x80) && negb (strings.asciiSpace c)) t = true ->
  token t.
Proof.
  intros H. apply andb_true_iff in H as [H1 H2]. split.
  - intros ->. discriminate H1.
  - apply Forall_forall. intros c Hc. rewrite forallb_forall in H2.
    specialize (H2 c (proj1 (list_elem_of_In _ _) Hc)).
    apply andb_true_iff in H2 as [Ha Hb]. apply Z.ltb_lt in Ha.
    apply negb_true_iff in Hb. auto.
Qed.

Lemma token_no_LF t : token t -> LF ∉ t.
Proof.
  intros [_ H] Hin. rewrite Forall_forall in H.
  destruct (H _ Hin) as [_ Hsp]. discriminate Hsp.
Qed.

Lemma alphabet_token c :
  c ∈ pathAlphabet -> bz c < 0x80 /\ strings.asciiSpace c = false.
Proof.
  intros H.
  assert (Hb : bool_decide (c ∈ pathAlphabet) = true)
    by (apply bool_decide_eq_true_2; exact H).
  cut ((bz c <? 0x80) && negb (strings.asciiSpace c) = true).
  { intros Hc. apply andb_true_iff in Hc as [H1 H2]. apply Z.ltb_lt in H1.
    apply negb_true_iff in H2. auto. }
  revert Hb. clear H. destruct c; vm_compute; congruence.
Qed.

Lemma wellFormed_token p : wellFormedPath p -> token p.
Proof.
  intros [[p' ->] Hall]. split; [discriminate|].
  eapply Forall_impl; [exact Hall|]. intros c Hc. apply alphabet_token.
  assumption.
Qed.

Lemma decimal_digits ds n :
  decimal ds n -> Forall (fun c => bz "0" <= bz c <= bz "9") ds.
Proof.
  assert (forall d, 0 <= d <= 9 ->
                    bz "0" <= bz (zb (bz "0" + d)) <= bz "9") as Hd.
  { intros d Hd. rewrite bz_zb. letters. rewrite Z.mod_small; lia. }
  induction 1 as [d H | ds n d _ IH H].
  - constructor; [apply Hd; assumption | constructor].
  - apply Forall_app. split; [assumption|].
    constructor; [apply Hd; assumption | constructor].
Qed.

Lemma Itoa_token n : 0 <= n -> token (strconv.Itoa n).
Proof.
  intros Hn. pose proof (Itoa_decimal n Hn) as Hd. split.
  - intros E. rewrite E in Hd. apply decimal_head in Hd as (? & ? & ? & _).
    discriminate.
  - eapply Forall_impl; [exact (decimal_digits _ _ Hd)|].
    intros c Hc. letters. split; [lia|].
    unfold strings.asciiSpace.
    repeat match goal with
           | |- context [Z.eqb ?a ?b] => destruct (Z.eqb_spec a b); [lia|]
           end.
    reflexivity.
Qed.

(** A request written with one space between the tokens and a line feed
    after them has these tokens. *)
Lemma tokensOf_unwords ts :
  Forall token ts -> tokensOf (unwords ts ++ [LF]) ts.
Proof.
  induction 1 as [|t ts Ht Hts IH].
  - apply tokens_none. repeat constructor.
  - destruct ts as [|t' ts'].
    + apply (tokens_more [] t LF [] []); [constructor | assumption | reflexivity|].
      apply tokens_none. constructor.
    + assert (unwords (t :: t' :: ts') ++ [LF]
              = [] ++ t ++ " "%byte :: (unwords (t' :: ts') ++ [LF])) as ->.
      { change (unwords (t :: t' :: ts'))
          with (t ++ " "%byte :: unwords (t' :: ts')).
        rewrite <- app_assoc. reflexivity. }
      apply tokens_more; [constructor | assumption | reflexivity | exact IH].
Qed.

Lemma unwords_no_LF ts : Forall token ts -> LF ∉ unwords ts.
Proof.
  induction 1 as [|t ts Ht Hts IH]; [apply not_elem_of_nil|].
  destruct ts as [|t' ts']; [apply token_no_LF; assumption|].
  change (unwords (t :: t' :: ts')) with (t ++ " "%byte :: unwords (t' :: ts')).
  rewrite elem_of_app, elem_of_cons. intros [H | [H | H]].
  - apply (token_no_LF t Ht H).
  - discriminate H.
  - apply IH, H.
Qed.

Lemma andThen_nil r : andThen [] r = r.
Proof. destruct r as [[e fs] out]. reflexivity. Qed.

Lemma commands_request W ts rest fs :
  Forall token ts ->
  commands W fs (unwords ts ++ LF :: rest)
  = match handleCommand ts fs rest with
    | Continue fs' rd' out => andThen out (commands W fs' rd')
    | Return fs' out => (Closed, fs', out)
    | Panic => (Crashed, fs, [])
    end.
Proof.
  intros Hts. apply commands_line.
  - apply unwords_no_LF. assumption.
  - apply tokensOf_unwords. assumption.
Qed.

(** *** The connection, command by command *)

(** X15. At any point of a connection, a line of ASCII tokens separated by ASCII
    white space (a carriage return before the line feed included) is
    served as the command of these tokens, on the bytes that follow the
    line feed; the loop then goes on with what the command left. *)
Theorem command_line_is_served W l rest ts fs :
  LF ∉ l ->
  tokensOf (l ++ [LF]) ts ->
  commands W fs (l ++ LF :: rest)
  = match handleCommand ts fs rest with
    | Continue fs' rd' out => andThen out (commands W fs' rd')
    | Return fs' out => (Closed, fs', out)
    | Panic => (Crashed, fs, [])
    end.
Proof. apply commands_line. Qed.

(** X16. A line of white space only is skipped without a reply, not even the
    prompt. *)
Theorem blank_lines_are_skipped W ws rest fs :
  blank ws -> LF ∉ ws ->
  commands W fs (ws ++ LF :: rest) = commands W fs rest.
Proof.
  intros Hws Hl. rewrite (commands_line W ws rest [] fs Hl).
  - change (handleCommand [] fs rest) with (Continue fs rest []).
    apply andThen_nil.
  - apply tokens_none. apply Forall_app. split; [assumption|].
    constructor; [reflexivity | constructor].
Qed.

(** X17. Bytes without a line feed after them are never a command: when the
    client closes after an unfinished line, the connection ends with
    nothing done for it. *)
Theorem unfinished_line_is_dropped W rd fs :
  LF ∉ rd ->
  handleConnection W fs rd = (Closed, fs, READY).
Proof.
  intros Hl. unfold handleConnection, commands.
  destruct rd as [|c rd'].
  - reflexivity.
  - cbn [length commandLoop]. rewrite (ReadString_none _ Hl). reflexivity.
Qed.

(** X18. A whole connection: PUT of a text payload followed on the wire by GET
    of the same path. The reply is the greeting, the id and the payload,
    byte for byte, whatever bytes the payload holds (line feeds and the
    text of the prompt included). *)
Theorem PUT_then_GET_on_the_wire W p b fs :
  wellFormedPath p ->
  textPayload b ->
  len b <= maxAlloc ->
  handleConnection W fs
    (lit "PUT " ++ p ++ lit " " ++ strconv.Itoa (len b) ++ [LF] ++ b
     ++ lit "GET " ++ p ++ [LF])
  = (Closed, (putRevision fs (map strings.lowerByte p) b).1,
     READY ++ okPut (putRevision fs (map strings.lowerByte p) b).2 ++ okGet b).
Proof.
  intros Hp Hb Hmax. unfold handleConnection.
  pose proof (wellFormed_token p Hp) as Htp.
  pose proof (Itoa_token (len b) (len_nonneg b)) as Htn.
  assert (token (lit "PUT")) as HtP by (apply token_check; reflexivity).
  assert (token (lit "GET")) as HtG by (apply token_check; reflexivity).
  change (lit "PUT " ++ p ++ lit " " ++ strconv.Itoa (len b) ++ [LF] ++ b
          ++ lit "GET " ++ p ++ [LF])
    with (lit "PUT" ++ " "%byte :: p ++ " "%byte :: strconv.Itoa (len b)
          ++ LF :: b ++ lit "GET " ++ p ++ [LF]).
  replace (lit "PUT" ++ " "%byte :: p ++ " "%byte :: strconv.Itoa (len b)
           ++ LF :: b ++ lit "GET " ++ p ++ [LF])
    with (unwords [lit "PUT"; p; strconv.Itoa (len b)]
          ++ LF :: b ++ (unwords [lit "GET"; p] ++ LF :: [])).
  2: { cbn [unwords]. rewrite <- !app_assoc. cbn [app].
       rewrite <- !app_assoc. reflexivity. }
  rewrite commands_request
    by (repeat (constructor; [assumption|]); constructor).
  rewrite (PUT_text (lit "PUT") p _ b) by
    (try assumption; try reflexivity;
     apply Atoi_Itoa; pose proof (len_nonneg b); unfold maxAlloc in Hmax; lia).
  rewrite commands_request
    by (repeat (constructor; [assumption|]); constructor).
  destruct (putRevision_result fs (map strings.lowerByte p) b)
    as (revs' & Hk & _ & Hl).
  rewrite (GET_latest (lit "GET") p _ [] revs' b); try assumption;
    try reflexivity.
  - cbn. rewrite app_nil_r. reflexivity.
  - rewrite ToLower_ascii_map by (apply wellFormed_isASCII; assumption).
    assumption.
Qed.

(** *** The stores a connection leaves *)

Lemma later_trans fs1 fs2 fs3 : later fs1 fs2 -> later fs2 fs3 -> later fs1 fs3.
Proof.
  intros H12 H23. induction H23 as [|fs3 fs4 _ IH Hs]; [assumption|].
  eapply later_step; eassumption.
Qed.

Lemma commandLoop_later W : forall fuel fs rd,
  later fs (commandLoop W fuel fs rd).1.2.
Proof.
  induction fuel as [|fuel IH]; intros fs rd; cbn [commandLoop];
    destruct (ReadString rd) as [[l rd1]|]; try apply later_now;
    destruct (handleCommand _ fs rd1) as [fs1 rd2 out | fs1 out |] eqn:Eh;
    try apply later_now.
  - eapply later_step; [apply later_now|]. eapply step_Continue. exact Eh.
  - eapply later_step; [apply later_now|]. eapply step_Return. exact Eh.
  - specialize (IH fs1 rd2).
    destruct (commandLoop W fuel fs1 rd2) as [[e fs2] out2]. simpl in *.
    eapply later_trans; [|exact IH].
    eapply later_step; [apply later_now|]. eapply step_Continue. exact Eh.
  - eapply later_step; [apply later_now|]. eapply step_Return. exact Eh.
Qed.

Lemma putRevision_invariant fs p b :
  storeInvariant fs -> wellFormedPath p -> textPayload b ->
  storeInvariant (putRevision fs (map strings.lowerByte p) b).1.
Proof.
  intros Hi Hp Hb k revs Hk.
  apply putRevision_lookup in Hk as [Hk | (-> & -> & Hl)]; [eauto|].
  destruct (wellFormed_lower p Hp) as [Hw Hlow].
  split; [assumption|]. split; [assumption|].
  destruct (fs !! map strings.lowerByte p) as [old|] eqn:E; simpl in *.
  - destruct (Hi _ _ E) as (_ & _ & H1 & Ht & Hn).
    split; [rewrite len_app; change (len [b]) with 1; lia|]. split.
    + apply Forall_app. split; [assumption|].
      constructor; [assumption | constructor].
    + apply noRepeat_snoc; assumption.
  - split; [change (len [b]) with 1; lia|]. split.
    + constructor; [assumption | constructor].
    + intros i x y _ Hy. apply lookup_lt_Some in Hy. simpl in Hy. lia.
Qed.

Lemma later_invariant fs fs' :
  later fs fs' -> storeInvariant fs -> storeInvariant fs'.
Proof.
  induction 1 as [|fs' fs'' _ IH Hs]; intros Hi; [assumption|].
  destruct (step_write _ _ Hs) as [-> | (p & b & Hp & Hb & ->)]; [auto|].
  apply putRevision_invariant; auto.
Qed.

Lemma reachable_invariant fs : reachable fs -> storeInvariant fs.
Proof.
  intros Hr. apply reachable_later in Hr.
  apply (later_invariant _ _ Hr). intros k revs Hk.
  rewrite lookup_empty in Hk. discriminate.
Qed.

Lemma prompt_app a b : endsWithPrompt b -> endsWithPrompt (a ++ b).
Proof. intros [body ->]. exists (a ++ body). apply app_assoc. Qed.

Lemma Continue_out parts fs rd fs' rd' out :
  handleCommand parts fs rd = Continue fs' rd' out ->
  out = [] \/ endsWithPrompt out.
Proof.
  intros H. destruct parts as [|verb args].
  - left. change (handleCommand [] fs rd) with (Continue fs rd []) in H.
    apply Continue_inj in H as (_ & _ & <-). reflexivity.
  - right.
    destruct (Continue_prompt (verb :: args) fs rd fs' rd' out) as [Hp _];
      [discriminate | exact H | exact Hp].
Qed.

(** What the loop writes is empty or ends with the prompt. *)
Lemma commandLoop_out W : forall fuel fs rd,
  (commandLoop W fuel fs rd).2 = []
  \/ endsWithPrompt (commandLoop W fuel fs rd).2.
Proof.
  induction fuel as [|fuel IH]; intros fs rd; cbn [commandLoop];
    destruct (ReadString rd) as [[l rd1]|]; try (left; reflexivity);
    destruct (handleCommand _ fs rd1) as [fs1 rd2 out | fs1 out |] eqn:Eh;
    try (left; reflexivity).
  - exact (Continue_out _ _ _ _ _ _ Eh).
  - left. apply Return_silent in Eh as [_ ->]. reflexivity.
  - specialize (IH fs1 rd2).
    destruct (commandLoop W fuel fs1 rd2) as [[e fs2] out2]. cbn [snd] in *.
    destruct IH as [-> | IH].
    + rewrite app_nil_r. exact (Continue_out _ _ _ _ _ _ Eh).
    + right. apply prompt_app. assumption.
  - left. apply Return_silent in Eh as [_ ->]. reflexivity.
Qed.

(** X19. Whatever bytes a client sends - commands, garbage, bytes that are
    not UTF-8, a body cut short - a connection that ends without a panic
    leaves the store well kept if it found it so: every key is a
    well-formed path in lower case and every file has a revision, only
    text payloads, and no revision equal to the one before it. The files
    it found keep all their revisions, new ones coming after them. And
    what the connection wrote ends with the prompt. *)
Theorem connection_keeps_the_invariants W rd fs fs' out :
  storeInvariant fs ->
  handleConnection W fs rd = (Closed, fs', out) ->
  storeInvariant fs'
  /\ (forall k revs,
        fs !! k = Some revs -> exists more, fs' !! k = Some (revs ++ more))
  /\ endsWithPrompt out.
Proof.
  intros Hi H. unfold handleConnection, commands in H.
  pose proof (commandLoop_later W (length rd) fs rd) as Hl.
  pose proof (commandLoop_out W (length rd) fs rd) as Ho.
  destruct (commandLoop W (length rd) fs rd) as [[e fs1] out1].
  cbn [fst snd] in Hl, Ho. unfold andThen in H.
  assert (fs1 = fs' /\ READY ++ out1 = out) as [-> <-]
    by (split; congruence).
  split; [eapply later_invariant; eassumption|]. split.
  - intros k revs Hk. eapply later_extends; eassumption.
  - destruct Ho as [-> | Ho].
    + exists []. rewrite app_nil_r. reflexivity.
    + apply prompt_app. assumption.
Qed.


(** *** The verb *)

Lemma upperByte_value c :
  bz (strings.upperByte c)
  = if (97 <=? bz c) && (bz c <=? 122) then bz c - 32 else bz c.
Proof.
  unfold strings.upperByte. letters. pose proof (bz_range c).
  zbool_lia; cbn [andb]; try reflexivity.
  rewrite bz_zb. apply Z.mod_small. lia.
Qed.

Lemma sameLetter_upperByte a b :
  sameLetter a b -> strings.upperByte a = strings.upperByte b.
Proof.
  intros [-> | [[H1 H2] | [H1 H2]]]; [reflexivity | |];
    unfold strings.upperByte; letters; zbool_lia; cbn [andb].
  - symmetry. apply zb_eq. lia.
  - apply zb_eq. lia.
Qed.

Lemma unicode_ToUpper_ascii To c :
  bz c < 0x80 -> unicode.ToUpper To (bz c) = bz (strings.upperByte c).
Proof.
  intros H. rewrite upperByte_value. unfold unicode.ToUpper, unicode.MaxASCII.
  letters. zbool_lia; reflexivity.
Qed.

Lemma DecodeRune_case_upper To s s' :
  casePermutation s s' -> s <> [] ->
  (utf8.DecodeRune s).2 = (utf8.DecodeRune s').2
  /\ unicode.ToUpper To (utf8.DecodeRune s).1
     = unicode.ToUpper To (utf8.DecodeRune s').1.
Proof.
  intros HF Hs. destruct HF as [|a b t t' Hab HF]; [congruence|].
  pose proof (sameLetter_upperByte _ _ Hab) as Hl.
  apply sameLetter_ascii in Hab as [-> | [Ha Hb]].
  - destruct (Z.lt_ge_cases (bz b) 0x80) as [Hb | Hb].
    + rewrite !DecodeRune_ascii by assumption. auto.
    + rewrite (DecodeRune_tail b t t') by (assumption || lia). auto.
  - rewrite !DecodeRune_ascii by assumption. simpl.
    rewrite !unicode_ToUpper_ascii by assumption. rewrite Hl. auto.
Qed.

Lemma Map_rest_case_upper To fuel : forall s s',
  casePermutation s s' ->
  strings.Map_rest (unicode.ToUpper To) fuel s
  = strings.Map_rest (unicode.ToUpper To) fuel s'.
Proof.
  induction fuel as [|fuel IH]; intros s s' HF; [reflexivity|].
  destruct (decide (s = [])) as [->|Hs].
  { apply Forall2_nil_inv_l in HF as ->. reflexivity. }
  assert (Hs' : s' <> []).
  { intros ->. apply Forall2_nil_inv_r in HF. congruence. }
  rewrite !Map_rest_step by assumption.
  destruct (DecodeRune_case_upper To s s' HF Hs) as [-> ->]. f_equal.
  apply IH. apply Forall2_drop. assumption.
Qed.

Lemma ToUpper_case s s' : casePermutation s s' -> ToUpper s = ToUpper s'.
Proof.
  intros HF. unfold ToUpper, strings.ToUpper.
  rewrite <- (isASCII_case s s' HF).
  destruct (strings.isASCII s).
  - induction HF as [|a b t t' Hab _ IH]; [reflexivity|].
    simpl. rewrite IH, (sameLetter_upperByte a b Hab). reflexivity.
  - rewrite !Map_eq_rest. rewrite <- (Forall2_length _ _ _ HF).
    apply Map_rest_case_upper. assumption.
Qed.

(** X20. The verb is matched without regard to the case of its ASCII letters:
    two verbs that differ in it only are the same command, whatever the
    arguments. *)
Theorem verbs_ignore_case verb verb' args fs rd :
  casePermutation verb verb' ->
  handleCommand (verb :: args) fs rd = handleCommand (verb' :: args) fs rd.
Proof.
  intros HF. unfold handleCommand.
  change (length (verb :: args) =? 0)%nat with false.
  change (length (verb' :: args) =? 0)%nat with false. cbv iota.
  change ((verb :: args) !!! 0%nat) with verb.
  change ((verb' :: args) !!! 0%nat) with verb'.
  rewrite (ToUpper_case verb verb' HF).
  reflexivity.
Qed.


(** *** More on how the commands compose *)

(** X21. GET without a revision token is GET with the token of the number of
    revisions: the latest revision is the one with the highest id. *)
Theorem GET_latest_is_the_highest_id verb p fs rd revs :
  ToUpper verb = lit "GET" ->
  fs !! ToLower p = Some revs ->
  len revs < 2 ^ 63 ->
  handleCommand [verb; p] fs rd
  = handleCommand [verb; p; lit "r" ++ strconv.Itoa (len revs)] fs rd.
Proof.
  intros Hv Hk Hlen. pose proof (len_nonneg revs) as H0.
  rewrite (GET_token _ _ _ _ _ _ revs) by assumption.
  rewrite tokenTarget_Itoa by lia.
  rewrite handleCommand_GET by assumption. unfold handleGET.
  simpl length. cbv iota zeta.
  change ([verb; p] !!! 1%nat) with p. rewrite Hk. reflexivity.
Qed.

(** X22. The same PUT twice in a row: the second one stores nothing and replies
    with the id of the first. *)
Theorem PUT_twice_is_PUT_once verb p n b rest rest' fs :
  ToUpper verb = lit "PUT" ->
  wellFormedPath p ->
  strconv.Atoi n = Some (len b) ->
  len b <= maxAlloc ->
  textPayload b ->
  exists fs' id,
    handleCommand [verb; p; n] fs (b ++ rest) = Continue fs' rest (okPut id)
    /\ handleCommand [verb; p; n] fs' (b ++ rest')
       = Continue fs' rest' (okPut id).
Proof.
  intros Hv Hp Hn Hmax Hb.
  eexists _, _. split; [apply PUT_text; assumption|].
  rewrite PUT_text by assumption.
  destruct (putRevision_result fs (map strings.lowerByte p) b)
    as (revs' & Hk & Hid & Hl).
  rewrite (putRevision_dup _ _ _ revs' Hk Hl). simpl. rewrite Hid.
  reflexivity.
Qed.

Lemma lowerByte_slash c : strings.lowerByte c = "/"%byte -> c = "/"%byte.
Proof. destruct c; vm_compute; congruence. Qed.

(** X23. The slash at the end of the directory of LIST is optional: for a
    directory of ASCII bytes that does not end with a slash, LIST replies
    the same with the slash added. *)
Theorem LIST_trailing_slash verb d fs rd :
  ToUpper verb = lit "LIST" ->
  strings.isASCII d = true ->
  last d <> Some "/"%byte ->
  handleCommand [verb; d ++ lit "/"] fs rd = handleCommand [verb; d] fs rd.
Proof.
  intros Hv Ha Hl. rewrite !LIST_listing by assumption.
  assert (strings.isASCII (d ++ lit "/") = true) as Ha'.
  { unfold strings.isASCII in *. rewrite forallb_app, Ha. reflexivity. }
  assert (listPrefix (d ++ lit "/") = listPrefix d) as ->; [|reflexivity].
  unfold listPrefix. rewrite !ToLower_ascii_map by assumption.
  rewrite map_app. change (map strings.lowerByte (lit "/")) with ["/"%byte].
  rewrite last_snoc, bool_decide_eq_true_2 by reflexivity.
  rewrite bool_decide_eq_false_2; [reflexivity|].
  intros H. apply Hl. change (map strings.lowerByte d) with (strings.lowerByte <$> d) in H.
  rewrite fmap_last in H. destruct (last d) as [c|]; [|discriminate].
  injection H as H. apply lowerByte_slash in H. congruence.
Qed.

End Server.

(** * The theorems at concrete inputs *)

Lemma wellFormed_x : wellFormedPath (lit "/X").
Proof. apply validPath_wellFormed. split; reflexivity. Defined.

Lemma text_foo : textPayload (lit "foo").
Proof. split; [apply Valid_spec | apply isText_textByte]; reflexivity. Defined.

Lemma text_bar : textPayload (lit "bar").
Proof. split; [apply Valid_spec | apply isText_textByte]; reflexivity. Defined.

Lemma not_text_deadbeef : ~ textPayload [xde; xad; xbe; xef].
Proof. intros [H _]. apply Valid_spec in H. discriminate H. Defined.

Lemma C2_witness :
  exists fs' id,
    handleCommand latin1Lower latin1Upper
      [lit "put"; lit "/X"; lit "3"] store_foo (lit "fooGET /x")
    = Continue fs' (lit "GET /x") (okPut id)
    /\ fs' = store_foo /\ id = 1.
Proof.
  destruct (C2_put_dedup_against_tail latin1Lower latin1Upper
              (lit "put") (lit "/X") (lit "3") (lit "foo") (lit "GET /x")
              store_foo)
    as (fs' & id & Hrun & Hdup & _).
  - reflexivity.
  - exact wellFormed_x.
  - reflexivity.
  - vm_compute. discriminate.
  - exact text_foo.
  - exists fs', id. split; [exact Hrun|].
    apply (Hdup [lit "foo"]); reflexivity.
Defined.

Lemma C3_witness :
  (exists fs1,
     handleCommand latin1Lower latin1Upper
       [lit "PUT"; lit "/X"; lit "3"] ∅ (lit "foo") = Continue fs1 [] (okPut 1)
     /\ handleCommand latin1Lower latin1Upper
       [lit "GET"; lit "/X"] fs1 [] = Continue fs1 [] (okGet (lit "foo")))
  /\ (exists fs1 fs2,
     handleCommand latin1Lower latin1Upper
       [lit "PUT"; lit "/X"; lit "3"] ∅ (lit "foo") = Continue fs1 [] (okPut 1)
     /\ handleCommand latin1Lower latin1Upper
       [lit "PUT"; lit "/X"; lit "3"] fs1 (lit "bar")
     = Continue fs2 [] (okPut 2)
     /\ handleCommand latin1Lower latin1Upper
       [lit "GET"; lit "/X"; lit "r1"] fs2 []
     = Continue fs2 [] (okGet (lit "foo"))
     /\ handleCommand latin1Lower latin1Upper
       [lit "GET"; lit "/X"] fs2 [] = Continue fs2 [] (okGet (lit "bar"))).
Proof.
  apply (C3_put_get_round_trip latin1Lower latin1Upper
           (lit "PUT") (lit "GET") (lit "/X") ∅ []
           (lit "foo") (lit "3") [] (lit "foo") (lit "3") []
           (lit "bar") (lit "3") []).
  - reflexivity.
  - reflexivity.
  - exact wellFormed_x.
  - reflexivity.
  - exact text_foo.
  - reflexivity.
  - vm_compute. discriminate.
  - exact text_foo.
  - reflexivity.
  - vm_compute. discriminate.
  - exact text_bar.
  - reflexivity.
  - vm_compute. discriminate.
  - discriminate.
Defined.

(** The token [r+1] has a signed remainder, and GET returns revision 1. *)
Lemma C4_counterexample :
  handleCommand latin1Lower latin1Upper
    [lit "GET"; lit "/x"; lit "r+1"] store_foo []
  = Continue store_foo [] (okGet (lit "foo"))
  /\ okGet (lit "foo") <> errReply "ERR no such revision".
Proof. split; [reflexivity | discriminate]. Qed.

Lemma C4_witness :
  handleCommand latin1Lower latin1Upper
    [lit "GET"; lit "/x"; lit "R+02"] store_foo_bar []
  = Continue store_foo_bar [] (okGet (lit "bar"))
  /\ handleCommand latin1Lower latin1Upper
    [lit "GET"; lit "/x"] store_foo_bar []
     = Continue store_foo_bar [] (okGet (lit "bar")).
Proof.
  destruct (C4_revision_token latin1Lower latin1Upper
              (lit "GET") (lit "/x") (lit "R+02") [] store_foo_bar []
              [lit "foo"; lit "bar"])
    as (Hok & _ & Hlast).
  - reflexivity.
  - reflexivity.
  - reflexivity.
  - vm_compute. reflexivity.
  - split.
    + apply (Hok 2).
      * exists "R"%byte, (lit "02"). split; [right; reflexivity|].
        split; [|right; reflexivity].
        apply (decimal_snoc (lit "0") 0 2); [apply (decimal_digit 0)|]; lia.
      * vm_compute. split; discriminate.
    + apply Hlast. reflexivity.
Defined.

Lemma C5_witness :
  ((exists fs' id,
      handleCommand latin1Lower latin1Upper
        [lit "PUT"; lit "/X"; lit "4"] store_foo [xde; xad; xbe; xef]
      = Continue fs' [] (okPut id))
   <-> textPayload [xde; xad; xbe; xef])
  /\ (~ textPayload [xde; xad; xbe; xef] ->
      handleCommand latin1Lower latin1Upper
        [lit "PUT"; lit "/X"; lit "4"] store_foo [xde; xad; xbe; xef]
      = Continue store_foo [] (errReply "ERR text files only")).
Proof.
  apply (C5_text_files_only latin1Lower latin1Upper
           (lit "PUT") (lit "/X") (lit "4") [xde; xad; xbe; xef] [] store_foo).
  - reflexivity.
  - exact wellFormed_x.
  - reflexivity.
  - vm_compute. discriminate.
Defined.

Lemma C6_witness :
  handleCommand latin1Lower latin1Upper
    [lit "PUT"; lit "/has space"; lit "1"] store_foo (lit "A")
  = Continue store_foo (lit "A") (errReply "ERR illegal file name").
Proof.
  apply (C6_illegal_file_name latin1Lower latin1Upper).
  - reflexivity.
  - right. exists " "%byte. split.
    + apply list_elem_of_In. vm_compute. tauto.
    + intros H.
      assert (Hb : bool_decide (" "%byte ∈ pathAlphabet) = true)
        by (apply bool_decide_eq_true_2; exact H).
      vm_compute in Hb. discriminate Hb.
Defined.

Lemma C7_witness :
  listPrefix latin1Lower (lit "/DIR") = specPrefix (lit "/DIR")
  /\ exists es : list (bytes * bytes),
    handleCommand latin1Lower latin1Upper [lit "list"; lit "/DIR"] store_dir []
    = Continue store_dir []
        (line (lit "OK " ++ strconv.Itoa (len es))
         ++ concat (map (fun e => line (e.1 ++ lit " " ++ e.2)) es) ++ READY)
    /\ ascending es.*1 /\ NoDup es.*1.
Proof.
  destruct (C7_list_projection latin1Lower latin1Upper
              (lit "list") (lit "/DIR") store_dir [])
    as (Hpre & es & Hrun & _ & _ & Hasc & Hnd).
  - reflexivity.
  - split; [apply Hpre; reflexivity|]. exists es. auto.
Defined.

(** LIST of [/K] with the Kelvin sign, on the store that [PUT /k/a] leaves:
    the code's prefix is [/k/], and the file is listed; the prefix of the
    specification keeps the three bytes of the sign, no stored key begins
    with it, and the listing that the specification asks for is empty. *)
Lemma C7_counterexample :
  reachable latin1Lower latin1Upper store_k
  /\ handleCommand latin1Lower latin1Upper [lit "LIST"; kelvinPath] store_k []
     = Continue store_k [] (line (lit "OK 1") ++ line (lit "a r1") ++ READY)
  /\ listPrefix latin1Lower kelvinPath = lit "/k/"
  /\ specPrefix kelvinPath = kelvinPath ++ lit "/"
  /\ (forall rel, store_k !! (specPrefix kelvinPath ++ rel) = None)
  /\ line (lit "OK 1") ++ line (lit "a r1") ++ READY
     <> line (lit "OK 0") ++ READY.
Proof.
  split; [|split; [|split; [|split; [|split]]]].
  - apply (reachable_Continue latin1Lower latin1Upper ∅
             [lit "PUT"; lit "/k/a"; lit "1"] (lit "x") store_k []
             (okPut 1)).
    + apply reachable_init.
    + vm_compute. reflexivity.
  - vm_compute. reflexivity.
  - reflexivity.
  - reflexivity.
  - intros rel. unfold store_k. apply lookup_singleton_ne.
    change (specPrefix kelvinPath ++ rel)
      with (x2f :: xe2 :: x84 :: xaa :: x2f :: rel).
    discriminate.
  - discriminate.
Qed.

(** The path [/K] with the Kelvin sign is normalised to [/k], which a
    byte-for-byte lower-casing leaves alone, so GET finds the file [/k];
    and an invalid byte is replaced by three others. *)
Lemma C8_counterexample :
  strings.ToLower latin1Lower kelvinPath = lit "/k"
  /\ map strings.lowerByte kelvinPath = kelvinPath
  /\ handleCommand latin1Lower latin1Upper
    [lit "GET"; kelvinPath] {[ lit "/k" := [lit "foo"] ]} []
     = Continue {[ lit "/k" := [lit "foo"] ]} [] (okGet (lit "foo"))
  /\ ({[ lit "/k" := [lit "foo"] ]} : store) !! map strings.lowerByte kelvinPath = None
  /\ strings.ToLower latin1Lower [x2f; xff] = [x2f; xef; xbf; xbd]
  /\ map strings.lowerByte [x2f; xff] = [x2f; xff].
Proof. repeat split; reflexivity. Qed.

Lemma casePermutation_example : casePermutation (lit "/Dir/A.txt") (lit "/dIR/a.TXT").
Proof.
  unfold casePermutation. cbv -[sameLetter].
  repeat (apply List.Forall2_cons;
          [first [ left; reflexivity
                 | right; left; split;
                   [split; apply Z.leb_le; reflexivity | reflexivity]
                 | right; right; split;
                   [split; apply Z.leb_le; reflexivity | reflexivity] ]|]).
  apply List.Forall2_nil.
Defined.

Lemma C8_witness :
  strings.ToLower latin1Lower (lit "/Dir/A.txt")
  = strings.ToLower latin1Lower (lit "/dIR/a.TXT")
  /\ forall verb extra fs rd,
       handleCommand latin1Lower latin1Upper
         (verb :: lit "/Dir/A.txt" :: extra) fs rd
       = handleCommand latin1Lower latin1Upper
         (verb :: lit "/dIR/a.TXT" :: extra) fs rd.
Proof.
  destruct (C8_case_permutations_are_identified latin1Lower latin1Upper
              (lit "/Dir/A.txt") (lit "/dIR/a.TXT") casePermutation_example)
    as (_ & _ & Hkey & Hrun).
  split; [exact Hkey | exact Hrun].
Defined.

Lemma reachable_foo : reachable latin1Lower latin1Upper store_foo.
Proof.
  apply (reachable_Continue latin1Lower latin1Upper ∅
           [lit "PUT"; lit "/x"; lit "3"] (lit "foo") store_foo []
           (okPut 1)).
  - apply reachable_init.
  - vm_compute. reflexivity.
Defined.

Lemma C9_witness :
  (forall k revs, store_foo !! k = Some revs -> 1 <= len revs)
  /\ handleCommand latin1Lower latin1Upper [lit "GET"; lit "/X"] store_foo []
     <> Continue store_foo [] (errReply "ERR no such revision").
Proof.
  destruct (C9_present_files_have_a_revision latin1Lower latin1Upper
              store_foo reachable_foo) as [Hlen Hget].
  split; [exact Hlen|].
  apply (Hget (lit "GET") (lit "/X") []); [reflexivity|].
  exists [lit "foo"]. reflexivity.
Defined.

(** PUT [/a/], then LIST [/a]. *)
Lemma C10_witness :
  exists n rest,
    handleCommand latin1Lower latin1Upper
      [lit "LIST"; lit "/a"] {[ lit "/a/" := [lit "x"] ]} []
    = Continue {[ lit "/a/" := [lit "x"] ]} []
        (line (lit "OK " ++ strconv.Itoa n) ++ line (lit " r1") ++ rest).
Proof.
  apply (C10_empty_display_name latin1Lower latin1Upper
           (lit "LIST") (lit "/a") {[ lit "/a/" := [lit "x"] ]} [] [lit "x"]).
  - reflexivity.
  - reflexivity.
Defined.

(** ** The scenarios of the specification *)

Example scenario_basic_put_get :
  handleCommand latin1Lower latin1Upper
    [lit "PUT"; lit "/a.txt"; lit "5"] ∅ (lit "hello")
  = Continue {[ lit "/a.txt" := [lit "hello"] ]} [] (lit "OK r1" ++ [LF] ++ lit "READY" ++ [LF])
  /\ handleCommand latin1Lower latin1Upper
    [lit "GET"; lit "/a.txt"] {[ lit "/a.txt" := [lit "hello"] ]} []
     = Continue {[ lit "/a.txt" := [lit "hello"] ]} []
         (lit "OK 5" ++ [LF] ++ lit "hello" ++ lit "READY" ++ [LF]).
Proof. split; vm_compute; reflexivity. Qed.

Example scenario_dedup :
  handleCommand latin1Lower latin1Upper
    [lit "PUT"; lit "/x"; lit "3"] ∅ (lit "foo")
  = Continue store_foo [] (okPut 1)
  /\ handleCommand latin1Lower latin1Upper
    [lit "PUT"; lit "/x"; lit "3"] store_foo (lit "foo")
     = Continue store_foo [] (okPut 1)
  /\ handleCommand latin1Lower latin1Upper
    [lit "PUT"; lit "/x"; lit "3"] store_foo (lit "bar")
     = Continue store_foo_bar [] (okPut 2).
Proof. repeat split; vm_compute; reflexivity. Qed.

Example scenario_revision_fetch :
  handleCommand latin1Lower latin1Upper
    [lit "GET"; lit "/x"; lit "r1"] store_foo_bar []
  = Continue store_foo_bar [] (okGet (lit "foo"))
  /\ handleCommand latin1Lower latin1Upper
    [lit "GET"; lit "/x"; lit "r9"] store_foo_bar []
     = Continue store_foo_bar [] (errReply "ERR no such revision")
  /\ handleCommand latin1Lower latin1Upper
    [lit "GET"; lit "/x"; lit "r-1"] store_foo_bar []
     = Continue store_foo_bar [] (errReply "ERR no such revision")
  /\ handleCommand latin1Lower latin1Upper
    [lit "GET"; lit "/x"; lit "r"] store_foo_bar []
     = Continue store_foo_bar [] (errReply "ERR no such revision").
Proof. repeat split; vm_compute; reflexivity. Qed.

Example scenario_hierarchical_list :
  handleCommand latin1Lower latin1Upper [lit "LIST"; lit "/dir"] store_dir []
  = Continue store_dir []
      (lit "OK 2" ++ [LF] ++ lit "a.txt r1" ++ [LF] ++ lit "sub/ DIR" ++ [LF]
       ++ lit "READY" ++ [LF])
  /\ handleCommand latin1Lower latin1Upper [lit "LIST"; lit "/"] store_dir []
     = Continue store_dir []
         (lit "OK 1" ++ [LF] ++ lit "dir/ DIR" ++ [LF] ++ lit "READY" ++ [LF]).
Proof. split; vm_compute; reflexivity. Qed.

Example scenario_empty_name :
  handleCommand latin1Lower latin1Upper
    [lit "PUT"; lit "/a/"; lit "1"] ∅ (lit "x")
  = Continue {[ lit "/a/" := [lit "x"] ]} [] (okPut 1)
  /\ handleCommand latin1Lower latin1Upper
    [lit "LIST"; lit "/a"] {[ lit "/a/" := [lit "x"] ]} []
     = Continue {[ lit "/a/" := [lit "x"] ]} []
         (lit "OK 1" ++ [LF] ++ lit " r1" ++ [LF] ++ lit "READY" ++ [LF]).
Proof. split; vm_compute; reflexivity. Qed.

Example scenario_help_and_unknown :
  handleCommand latin1Lower latin1Upper [lit "help"] ∅ []
  = Continue ∅ [] (line (lit "OK usage: HELP|GET|PUT|LIST") ++ READY)
  /\ handleCommand latin1Lower latin1Upper [lit "drop"; lit "/x"] ∅ []
     = Continue ∅ [] (errReply "ERR illegal method: DROP")
  /\ handleCommand latin1Lower latin1Upper
    [] ∅ (lit "x") = Continue ∅ (lit "x") [].
Proof. repeat split; vm_compute; reflexivity. Qed.

Example scenario_short_body :
  handleCommand latin1Lower latin1Upper
    [lit "PUT"; lit "/x"; lit "5"] store_foo (lit "abc") = Return store_foo [].
Proof. vm_compute. reflexivity. Qed.

(** ** The further properties at concrete inputs *)

Lemma later_foo_bar : later latin1Lower latin1Upper store_foo store_foo_bar.
Proof.
  apply (later_step latin1Lower latin1Upper store_foo store_foo store_foo_bar).
  - apply later_now.
  - apply (step_Continue latin1Lower latin1Upper store_foo
             [lit "PUT"; lit "/x"; lit "3"] (lit "bar") store_foo_bar []
             (okPut 2)).
    vm_compute. reflexivity.
Defined.

Lemma reachable_foo_bar : reachable latin1Lower latin1Upper store_foo_bar.
Proof.
  apply (reachable_Continue latin1Lower latin1Upper store_foo
           [lit "PUT"; lit "/x"; lit "3"] (lit "bar") store_foo_bar []
           (okPut 2)).
  - exact reachable_foo.
  - vm_compute. reflexivity.
Defined.

Lemma revisions_are_kept_witness :
  exists revs',
    store_foo_bar !! lit "/x" = Some revs' /\ len [lit "foo"] <= len revs'
    /\ forall (i : nat) b, [lit "foo"] !! i = Some b -> revs' !! i = Some b.
Proof.
  apply (revisions_are_kept latin1Lower latin1Upper store_foo store_foo_bar
           (lit "/x") [lit "foo"]).
  - exact later_foo_bar.
  - reflexivity.
Defined.

Lemma GET_revision_is_stable_witness :
  exists b,
    handleCommand latin1Lower latin1Upper
      [lit "GET"; lit "/X"; lit "r" ++ strconv.Itoa 1] store_foo []
    = Continue store_foo [] (okGet b)
    /\ handleCommand latin1Lower latin1Upper
         [lit "GET"; lit "/X"; lit "r" ++ strconv.Itoa 1] store_foo_bar []
       = Continue store_foo_bar [] (okGet b).
Proof.
  apply (GET_revision_is_stable latin1Lower latin1Upper
           (lit "GET") (lit "/X") 1 store_foo store_foo_bar [] []
           [lit "foo"]).
  - reflexivity.
  - exact later_foo_bar.
  - reflexivity.
  - vm_compute. split; discriminate.
  - reflexivity.
Defined.

Lemma stored_keys_are_lower_case_paths_witness :
  wellFormedPath (lit "/x") /\ lowerCase (lit "/x").
Proof.
  apply (stored_keys_are_lower_case_paths latin1Lower latin1Upper
           store_foo_bar (lit "/x") [lit "foo"; lit "bar"]).
  - exact reachable_foo_bar.
  - reflexivity.
Defined.

Lemma stored_revisions_are_text_witness :
  Forall textPayload [lit "foo"; lit "bar"]
  /\ noRepeat [lit "foo"; lit "bar"].
Proof.
  apply (stored_revisions_are_text latin1Lower latin1Upper
           store_foo_bar (lit "/x") [lit "foo"; lit "bar"]).
  - exact reachable_foo_bar.
  - reflexivity.
Defined.

Lemma only_PUT_writes_witness :
  exists out,
    handleCommand latin1Lower latin1Upper
      [lit "list"; lit "/"; lit "more"] store_dir (lit "unread")
    = Continue store_dir (lit "unread") out
    /\ endsWithPrompt out.
Proof.
  apply (only_PUT_writes latin1Lower latin1Upper
           (lit "list") [lit "/"; lit "more"] store_dir (lit "unread")).
  vm_compute. discriminate.
Defined.


Lemma reply_ends_with_prompt_witness :
  endsWithPrompt (okPut 1)
  /\ exists consumed, lit "fooGET" = consumed ++ lit "GET".
Proof.
  apply (reply_ends_with_prompt latin1Lower latin1Upper
           [lit "PUT"; lit "/x"; lit "3"] ∅ (lit "fooGET") store_foo
           (lit "GET") (okPut 1)).
  - discriminate.
  - vm_compute. reflexivity.
Defined.

Lemma PUT_id_names_the_payload_witness :
  exists fs' id,
    handleCommand latin1Lower latin1Upper
      [lit "PUT"; lit "/X"; lit "3"] store_foo_bar (lit "foo")
    = Continue fs' [] (okPut id)
    /\ handleCommand latin1Lower latin1Upper
         [lit "GET"; lit "/X"; lit "r" ++ strconv.Itoa id] fs' []
       = Continue fs' [] (okGet (lit "foo")).
Proof.
  apply (PUT_id_names_the_payload latin1Lower latin1Upper
           (lit "PUT") (lit "GET") (lit "/X") (lit "3") (lit "foo") [] []
           store_foo_bar).
  - reflexivity.
  - reflexivity.
  - exact wellFormed_x.
  - reflexivity.
  - vm_compute. discriminate.
  - exact text_foo.
  - intros revs H. vm_compute in H. injection H as <-. reflexivity.
Defined.

Lemma other_files_are_untouched_witness :
  ({[ lit "/dir/a.txt" := [lit "A"; lit "Z"];
      lit "/dir/sub/b.txt" := [lit "B"] ]} : store) !! lit "/dir/sub/b.txt"
  = store_dir !! lit "/dir/sub/b.txt".
Proof.
  apply (other_files_are_untouched latin1Lower latin1Upper
           (lit "PUT") (lit "/DIR/a.txt") [lit "1"] store_dir (lit "Z")
           {[ lit "/dir/a.txt" := [lit "A"; lit "Z"];
              lit "/dir/sub/b.txt" := [lit "B"] ]} [] (okPut 2)).
  - vm_compute. reflexivity.
  - vm_compute. discriminate.
Defined.

Lemma GET_no_such_file_witness :
  store_foo !! strings.ToLower latin1Lower (lit "/nope") = None
  <-> handleCommand latin1Lower latin1Upper
        [lit "GET"; lit "/nope"; lit "x1"] store_foo []
      = Continue store_foo [] (errReply "ERR no such file").
Proof.
  apply (GET_no_such_file latin1Lower latin1Upper
           (lit "GET") (lit "/nope") [lit "x1"] store_foo []).
  reflexivity.
Defined.

Lemma LIST_ignores_iteration_order_witness :
  handleCommand latin1Lower latin1Upper [lit "LIST"; lit "/dir"] store_dir []
  = Continue store_dir []
      (listReply (targetDirOf latin1Lower (lit "/dir"))
         (reverse (map_to_list store_dir))
         (reverse (map_to_list
                     (listEntries (targetDirOf latin1Lower (lit "/dir"))
                        (reverse (map_to_list store_dir)))).*1)).
Proof.
  apply (LIST_ignores_iteration_order latin1Lower latin1Upper
           (lit "LIST") (lit "/dir") store_dir []).
  - reflexivity.
  - apply reverse_Permutation.
  - apply reverse_Permutation.
Defined.

Lemma LIST_empty_witness :
  (forall rel, store_dir !! (listPrefix latin1Lower (lit "/nope") ++ rel) = None)
  <-> handleCommand latin1Lower latin1Upper
        [lit "LIST"; lit "/nope"] store_dir []
      = Continue store_dir [] (line (lit "OK 0") ++ READY).
Proof.
  apply (LIST_empty latin1Lower latin1Upper
           (lit "LIST") (lit "/nope") store_dir []).
  reflexivity.
Defined.

Lemma LIST_shows_the_PUT_id_witness :
  exists fs' id,
    handleCommand latin1Lower latin1Upper
      [lit "PUT"; lit "/dir/A.txt"; lit "1"] store_dir (lit "Z")
    = Continue fs' [] (okPut id)
    /\ handleCommand latin1Lower latin1Upper [lit "LIST"; lit "/DIR"] fs' []
       = Continue fs' []
           (okList (listing (listPrefix latin1Lower (lit "/DIR")) fs'))
    /\ (lit "a.txt", lit "r" ++ strconv.Itoa id)
       ∈ listing (listPrefix latin1Lower (lit "/DIR")) fs'.
Proof.
  apply (LIST_shows_the_PUT_id latin1Lower latin1Upper
           (lit "PUT") (lit "LIST") (lit "/dir/A.txt") (lit "1") (lit "Z")
           [] [] (lit "/DIR") (lit "a.txt") store_dir).
  - reflexivity.
  - reflexivity.
  - apply validPath_wellFormed. split; reflexivity.
  - reflexivity.
  - vm_compute. discriminate.
  - split; [apply Valid_spec | apply isText_textByte]; reflexivity.
  - reflexivity.
  - intros H.
    assert (Hb : bool_decide ("/"%byte ∈ lit "a.txt") = true)
      by (apply bool_decide_eq_true_2; exact H).
    vm_compute in Hb. discriminate Hb.
Defined.

Lemma tokens_example :
  tokensOf ([x20; x20] ++ lit "get" ++ [x09] ++ lit "/X" ++ [x20; x0d] ++ [LF])
           [lit "get"; lit "/X"].
Proof.
  apply (tokens_more [x20; x20] (lit "get") x09 (lit "/X" ++ [x20; x0d; LF])
           [lit "/X"]).
  - repeat (constructor; [reflexivity|]). constructor.
  - apply token_check. reflexivity.
  - reflexivity.
  - apply (tokens_more [] (lit "/X") x20 [x0d; LF] []).
    + constructor.
    + apply token_check. reflexivity.
    + reflexivity.
    + apply tokens_none. repeat (constructor; [reflexivity|]). constructor.
Defined.

Lemma command_line_is_served_witness :
  commands latin1Lower latin1Upper whiteSpace store_foo
    (([x20; x20] ++ lit "get" ++ [x09] ++ lit "/X" ++ [x20; x0d])
     ++ LF :: lit "help")
  = andThen (okGet (lit "foo"))
      (commands latin1Lower latin1Upper whiteSpace store_foo (lit "help")).
Proof.
  apply (command_line_is_served latin1Lower latin1Upper whiteSpace
           ([x20; x20] ++ lit "get" ++ [x09] ++ lit "/X" ++ [x20; x0d])
           (lit "help") [lit "get"; lit "/X"] store_foo).
  - intros H.
    assert (Hb : bool_decide
                   (LF ∈ [x20; x20] ++ lit "get" ++ [x09] ++ lit "/X"
                         ++ [x20; x0d]) = true)
      by (apply bool_decide_eq_true_2; exact H).
    vm_compute in Hb. discriminate Hb.
  - exact tokens_example.
Defined.

Lemma blank_lines_are_skipped_witness :
  commands latin1Lower latin1Upper whiteSpace store_foo
    ([x20; x0d] ++ LF :: lit "GET /x" ++ [LF])
  = commands latin1Lower latin1Upper whiteSpace store_foo
      (lit "GET /x" ++ [LF]).
Proof.
  apply (blank_lines_are_skipped latin1Lower latin1Upper whiteSpace
           [x20; x0d] (lit "GET /x" ++ [LF]) store_foo).
  - repeat (constructor; [reflexivity|]). constructor.
  - intros H.
    assert (Hb : bool_decide (LF ∈ [x20; x0d]) = true)
      by (apply bool_decide_eq_true_2; exact H).
    vm_compute in Hb. discriminate Hb.
Defined.

Lemma unfinished_line_is_dropped_witness :
  handleConnection latin1Lower latin1Upper whiteSpace store_foo (lit "GET /x")
  = (Closed, store_foo, READY).
Proof.
  apply (unfinished_line_is_dropped latin1Lower latin1Upper whiteSpace
           (lit "GET /x") store_foo).
  intros H.
  assert (Hb : bool_decide (LF ∈ lit "GET /x") = true)
    by (apply bool_decide_eq_true_2; exact H).
  vm_compute in Hb. discriminate Hb.
Defined.

Lemma text_two_lines : textPayload (lit "a" ++ [LF] ++ lit "READY" ++ [LF]).
Proof. split; [apply Valid_spec | apply isText_textByte]; reflexivity. Defined.

Lemma PUT_then_GET_on_the_wire_witness :
  handleConnection latin1Lower latin1Upper whiteSpace ∅
    (lit "PUT " ++ lit "/X" ++ lit " "
     ++ strconv.Itoa (len (lit "a" ++ [LF] ++ lit "READY" ++ [LF])) ++ [LF]
     ++ (lit "a" ++ [LF] ++ lit "READY" ++ [LF])
     ++ lit "GET " ++ lit "/X" ++ [LF])
  = (Closed,
     (putRevision ∅ (map strings.lowerByte (lit "/X"))
        (lit "a" ++ [LF] ++ lit "READY" ++ [LF])).1,
     READY
     ++ okPut (putRevision ∅ (map strings.lowerByte (lit "/X"))
                 (lit "a" ++ [LF] ++ lit "READY" ++ [LF])).2
     ++ okGet (lit "a" ++ [LF] ++ lit "READY" ++ [LF])).
Proof.
  apply (PUT_then_GET_on_the_wire latin1Lower latin1Upper whiteSpace
           (lit "/X") (lit "a" ++ [LF] ++ lit "READY" ++ [LF]) ∅).
  - exact wellFormed_x.
  - exact text_two_lines.
  - vm_compute. discriminate.
Defined.

Lemma connection_keeps_the_invariants_witness :
  storeInvariant {[ lit "/x" := [lit "foo"]; lit "/y" := [lit "Z"] ]}
  /\ (forall k revs,
        store_foo !! k = Some revs ->
        exists more,
          ({[ lit "/x" := [lit "foo"]; lit "/y" := [lit "Z"] ]} : store) !! k
          = Some (revs ++ more))
  /\ endsWithPrompt
       (READY ++ okPut 1
        ++ line (lit "ERR illegal method: " ++ [xef; xbf; xbd]) ++ READY).
Proof.
  apply (connection_keeps_the_invariants latin1Lower latin1Upper whiteSpace
           (lit "PUT /y 1" ++ [LF] ++ lit "Z" ++ [xff; LF]) store_foo).
  - exact (reachable_invariant latin1Lower latin1Upper store_foo reachable_foo).
  - vm_compute. reflexivity.
Defined.

Lemma casePermutation_verb : casePermutation (lit "get") (lit "GeT").
Proof.
  unfold casePermutation. cbv -[sameLetter].
  repeat (apply List.Forall2_cons;
          [first [ left; reflexivity
                 | right; left; split;
                   [split; apply Z.leb_le; reflexivity | reflexivity]
                 | right; right; split;
                   [split; apply Z.leb_le; reflexivity | reflexivity] ]|]).
  apply List.Forall2_nil.
Defined.

Lemma verbs_ignore_case_witness :
  handleCommand latin1Lower latin1Upper [lit "get"; lit "/x"] store_foo []
  = handleCommand latin1Lower latin1Upper [lit "GeT"; lit "/x"] store_foo [].
Proof.
  apply (verbs_ignore_case latin1Lower latin1Upper
           (lit "get") (lit "GeT") [lit "/x"] store_foo []).
  exact casePermutation_verb.
Defined.

Lemma GET_latest_is_the_highest_id_witness :
  handleCommand latin1Lower latin1Upper [lit "GET"; lit "/X"] store_foo_bar []
  = handleCommand latin1Lower latin1Upper
      [lit "GET"; lit "/X";
       lit "r" ++ strconv.Itoa (len [lit "foo"; lit "bar"])] store_foo_bar [].
Proof.
  apply (GET_latest_is_the_highest_id latin1Lower latin1Upper
           (lit "GET") (lit "/X") store_foo_bar [] [lit "foo"; lit "bar"]).
  - reflexivity.
  - reflexivity.
  - reflexivity.
Defined.

Lemma PUT_twice_is_PUT_once_witness :
  exists fs' id,
    handleCommand latin1Lower latin1Upper
      [lit "PUT"; lit "/X"; lit "3"] store_foo_bar (lit "foo" ++ lit "GET /x")
    = Continue fs' (lit "GET /x") (okPut id)
    /\ handleCommand latin1Lower latin1Upper
         [lit "PUT"; lit "/X"; lit "3"] fs' (lit "foo" ++ [])
       = Continue fs' [] (okPut id).
Proof.
  apply (PUT_twice_is_PUT_once latin1Lower latin1Upper
           (lit "PUT") (lit "/X") (lit "3") (lit "foo") (lit "GET /x") []
           store_foo_bar).
  - reflexivity.
  - exact wellFormed_x.
  - reflexivity.
  - vm_compute. discriminate.
  - exact text_foo.
Defined.

Lemma LIST_trailing_slash_witness :
  handleCommand latin1Lower latin1Upper
    [lit "LIST"; lit "/Dir" ++ lit "/"] store_dir []
  = handleCommand latin1Lower latin1Upper [lit "LIST"; lit "/Dir"] store_dir [].
Proof.
  apply (LIST_trailing_slash latin1Lower latin1Upper
           (lit "LIST") (lit "/Dir") store_dir []).
  - reflexivity.
  - reflexivity.
  - vm_compute. discriminate.
Defined.

(** ** Connections, byte for byte *)

Example connection_put_get_list :
  handleConnection latin1Lower latin1Upper whiteSpace ∅
    (lit "  put   /A  3 " ++ [x0d; LF] ++ lit "foo" ++ [LF; x0d; LF]
     ++ lit "get /a r1" ++ [LF] ++ lit "LIST /" ++ [LF] ++ lit "list /")
  = (Closed, {[ lit "/a" := [lit "foo"] ]},
     lit "READY" ++ [LF] ++ lit "OK r1" ++ [LF] ++ lit "READY" ++ [LF]
     ++ lit "OK 3" ++ [LF] ++ lit "foo" ++ lit "READY" ++ [LF]
     ++ lit "OK 1" ++ [LF] ++ lit "a r1" ++ [LF] ++ lit "READY" ++ [LF]).
Proof. vm_compute. reflexivity. Qed.

(** The no-break space U+00A0 and the ideographic space U+3000 separate
    fields as well, and an invalid byte in the verb is echoed as U+FFFD. *)
Example connection_unicode_space :
  handleConnection latin1Lower latin1Upper whiteSpace store_foo
    (lit "GET" ++ [xc2; xa0] ++ lit "/x" ++ [xe3; x80; x80; LF]
     ++ lit "he" ++ [xff] ++ lit "lp" ++ [LF])
  = (Closed, store_foo,
     lit "READY" ++ [LF] ++ lit "OK 3" ++ [LF] ++ lit "foo" ++ lit "READY"
     ++ [LF] ++ lit "ERR illegal method: HE" ++ [xef; xbf; xbd] ++ lit "LP"
     ++ [LF] ++ lit "READY" ++ [LF]).
Proof. vm_compute. reflexivity. Qed.

(** A negative length ends the process; a length beyond the input ends
    the connection. *)
Example connection_crash_and_close :
  handleConnection latin1Lower latin1Upper whiteSpace store_foo
    (lit "GET /x" ++ [LF] ++ lit "PUT /a -1" ++ [LF] ++ lit "GET /x" ++ [LF])
  = (Crashed, store_foo,
     lit "READY" ++ [LF] ++ lit "OK 3" ++ [LF] ++ lit "foo" ++ lit "READY"
     ++ [LF])
  /\ handleConnection latin1Lower latin1Upper whiteSpace store_foo
       (lit "PUT /a 10" ++ [LF] ++ lit "GET /x" ++ [LF])
     = (Closed, store_foo, lit "READY" ++ [LF]).
Proof. split; vm_compute; reflexivity. Qed.
